(** * The image catalog loader: staging, cleaning, upsert, sub-providers

    A shallow embedding of [dags/util/loader/sql.py] (the loader that
    copies a TSV file into a staging table, cleans it, upserts it into
    the [image] table and re-labels sub-providers) and of
    [dags/provider_api_scripts/raw_pixel.py] (the RawPixel record
    normalizer and its run over the pages of the API), followed by the
    properties proved about them.

    The SQL statements the Python code sends to PostgreSQL are embedded
    by their meaning on tables: a table is the list of its rows, SQL
    NULL is [None], and every [PostgresHook.run] is a function from the
    database before the statement to the database after it.  Python
    exceptions and errors raised by the store are values of [outcome].

    The loading table is only appended to and deleted from, so its list
    is in physical (ctid) order, which the cleaner compares.  The list of
    the image table only tells its rows apart: where the store keeps a
    row it has updated, and in which order a SELECT without ORDER BY
    returns its records, is the store's business.  A property that pairs
    a row before a statement with the row at the same position after it
    says that it is the same row, not where the store keeps it, and the
    properties of the sub-provider passes hold for the selected records
    in any order.

    The sub-provider passes format values into the text of their UPDATE
    between single quotes, unescaped.  A value without a single quote
    stands for itself; with one, the statement is whatever the store
    makes of the text ([malformed_update]).

    What the two files call and do not define (the store's bulk loader
    and digest, Python's string functions, urllib, the image store, the
    sub-provider tables) enters as the fields of a class; the properties
    hold for every instance, and the examples use the instances of
    [Examples]. *)

From stdpp Require Import gmap strings list fin_maps pretty.
From Stdlib Require Import ZArith Lia Ascii.

#[local] Set Warnings "-register-all".
#[local] Open Scope Z_scope.

(** ** Python values, exceptions and outcomes *)

Module Py.

(** The exceptions the two source files can raise or let through. *)
Inductive exn : Type :=
  | InvalidTextRepresentation (msg : string)
  | CardinalityViolation
  | Exception (msg : string)
  | AssertionError
  | IndexError
  | ValueError
  | TypeError
  | AttributeError
  | JSONDecodeError
  | SyntaxError (msg : string).

(** A call either returns a value or raises. *)
Inductive outcome (A : Type) : Type :=
  | Done (a : A)
  | Raised (e : exn).
Arguments Done {A} a.
Arguments Raised {A} e.

#[global] Instance outcome_ret : MRet outcome := fun A a => Done a.
#[global] Instance outcome_bind : MBind outcome := fun A B f o =>
  match o with Done a => f a | Raised e => Raised e end.

(** [f"{x}"] for a value that is a string or [None]. *)
Definition format_str (x : option string) : string :=
  match x with Some s => s | None => "None" end.

(** A dict is the list of its items in insertion order. *)
Definition dict (V : Type) : Type := list (string * V).

End Py.
Export Py.

(** ** JSON values and the jsonb operators used by the queries *)

Module Jsonb.

(** A jsonb value.  Objects are finite maps: jsonb keeps one value per
    key and compares objects irrespective of key order. *)
Inductive json : Type :=
  | JNull
  | JBool (b : bool)
  | JNum (n : Z)
  | JStr (s : string)
  | JArr (l : list json)
  | JObj (m : gmap string json).

#[global] Instance json_eq_dec : EqDecision json.
Proof.
  refine (fix go (j1 j2 : json) : Decision (j1 = j2) :=
    let _ : EqDecision json := @go in
    match j1, j2 with
    | JNull, JNull => left eq_refl
    | JBool a, JBool b => cast_if (decide (a = b))
    | JNum a, JNum b => cast_if (decide (a = b))
    | JStr a, JStr b => cast_if (decide (a = b))
    | JArr a, JArr b => cast_if (decide (a = b))
    | JObj a, JObj b => cast_if (decide (a = b))
    | _, _ => right _
    end); abstract congruence.
Defined.

Definition is_null (j : json) : bool :=
  match j with JNull => true | _ => false end.

Fixpoint json_size (j : json) : nat :=
  match j with
  | JArr l => S (list_sum (map json_size l))
  | JObj m => S (map_fold (fun _ v acc => (json_size v + acc)%nat) 0%nat m)
  | _ => 1%nat
  end.

(** [jsonb_strip_nulls]: deletes every object field whose value is
    null, recursively; nulls that are array elements stay. *)
Fixpoint jsonb_strip_nulls (j : json) : json :=
  match j with
  | JArr l => JArr (map jsonb_strip_nulls l)
  | JObj m =>
      JObj (omap (fun v => if is_null v then None
                           else Some (jsonb_strip_nulls v)) m)
  | _ => j
  end.

(** The fields of an object after [jsonb_strip_nulls]. *)
Definition strip_nulls_fields (m : gmap string json) : gmap string json :=
  omap (fun v => if is_null v then None else Some (jsonb_strip_nulls v)) m.

(** [a || b] on two objects: the union of the keys, the right operand's
    value winning on a shared key. *)
Definition jsonb_concat_objects (a b : gmap string json) : gmap string json :=
  b ∪ a.

(** [a || b] on two arrays. *)
Definition jsonb_concat_arrays (a b : list json) : list json := a ++ b.

(** [SELECT jsonb_agg(DISTINCT x) FROM jsonb_array_elements(a) t(x)]:
    NULL when the array has no element (an aggregate over no rows),
    otherwise the array of the distinct elements.  The order in which
    the store emits the distinct elements is its own; the model keeps
    each element at its last occurrence. *)
Definition jsonb_agg_distinct_elements (a : list json) : option (list json) :=
  match remove_dups a with
  | [] => None
  | l => Some l
  end.

(** [j -> key]: the field of an object, NULL otherwise. *)
Definition arrow (j : json) (key : string) : option json :=
  match j with JObj m => m !! key | _ => None end.

(** [j ? s]: [s] is a key of the object, an element of the array, or
    the string itself. *)
Definition exists_key (j : json) (s : string) : bool :=
  match j with
  | JObj m => bool_decide (is_Some (m !! s))
  | JArr l => bool_decide (JStr s ∈ l)
  | JStr s' => bool_decide (s' = s)
  | _ => false
  end.

End Jsonb.
Export Jsonb.

(** ** sql.py: tables, staging, cleaning and the upsert *)

Module Sql.

Definition LOAD_TABLE_NAME_STUB : string := "provider_image_data".
Definition IMAGE_TABLE_NAME : string := "image".

(** Values of [NOW()]. *)
Definition timestamp : Type := Z.

(** A row of the loading table, with the columns [create_loading_table]
    declares, in its order.  Every column is nullable.  [meta_data]
    holds a JSON object and [tags] a JSON array, which is what the
    image store serialises into the TSV file. *)
Record load_row : Type := LoadRow {
  foreign_id : option string;
  landing_url : option string;
  direct_url : option string;
  thumbnail : option string;
  width : option Z;
  height : option Z;
  filesize : option Z;
  license : option string;
  license_version : option string;
  creator : option string;
  creator_url : option string;
  title : option string;
  meta_data : option (gmap string json);
  tags : option (list json);
  watermarked : option bool;
  provider : option string;
  source : option string;
  ingestion_type : option string
}.

(** A row of the image table: the columns it shares with the loading
    table, and the four columns the upsert fills by itself. *)
Record image_row : Type := ImageRow {
  cols : load_row;
  created_on : option timestamp;
  updated_on : option timestamp;
  last_synced : option timestamp;
  removed : option bool
}.

Record database : Type := Database {
  load_table : list load_row;
  image : list image_row
}.

(** What the code uses of the store and cannot be read off sql.py:
    the digest [md5], the text form of a jsonb value that is not a
    string ([->>]), [PostgresHook.bulk_load], which given a table
    name and the lines of a TSV file yields the rows COPY appends or
    raises, and what the store makes of an UPDATE of the sub-provider
    passes into whose text a value with a single quote was formatted
    (the provider, the new source and the foreign identifier, as
    formatted): the quote ends the literal, and the rest is read as
    SQL, which is a syntax error or another statement. *)
Class Store : Type := {
  md5 : string → string;
  jsonb_out : json → string;
  bulk_load : string → list string → outcome (list load_row);
  malformed_update :
    string → string → string → list image_row → outcome (list image_row)
}.

(** The [str] methods and [int] used on the store's error message, and
    [json.loads]; [int] and [json.loads] raise on text they cannot read. *)
Class PyBuiltins : Type := {
  splitlines : string → list string;
  split : string → string → list string;
  int : string → option Z;
  json_loads : string → outcome json
}.

(** The sub-provider tables of [util.loader.provider_details] that the
    functions below read without receiving them as arguments. *)
Class ProviderDetails : Type := {
  FLICKR_PHOTO_URL_BASE : string;
  FLICKR_SUB_PROVIDERS : dict (list string);
  EUROPEANA_SUB_PROVIDERS : dict string
}.

(** *** SQL expressions *)

(** [a = b] is true: both sides are non-null and equal. *)
Definition sql_eq {A} (a b : option A) : Prop :=
  match a, b with
  | Some x, Some y => x = y
  | _, _ => False
  end.

#[global] Instance sql_eq_dec `{EqDecision A} (a b : option A) :
  Decision (sql_eq a b).
Proof. destruct a, b; simpl; apply _. Defined.

Definition COALESCE {A} (a b : option A) : option A :=
  match a with
  | Some _ => a
  | None => b
  end.

Definition COALESCE3 {A} (a b c : option A) : option A :=
  COALESCE a (COALESCE b c).

(** *** Names *)

Definition _get_load_table_name (identifier : string) : string :=
  LOAD_TABLE_NAME_STUB +:+ identifier.

(** *** _clean_intermediate_table_data *)

(** [DELETE FROM t WHERE column IS NULL]. *)
Definition delete_where_null {A} (column : load_row → option A)
    (t : list load_row) : list load_row :=
  filter (fun r => is_Some (column r)) t.

(** The join condition of the last DELETE, besides the ctid test. *)
Definition same_provider_and_foreign_id (p1 p2 : load_row) : Prop :=
  sql_eq (provider p1) (provider p2)
  ∧ sql_eq (foreign_id p1) (foreign_id p2).

#[global] Instance same_provider_and_foreign_id_dec p1 p2 :
  Decision (same_provider_and_foreign_id p1 p2).
Proof. unfold same_provider_and_foreign_id. apply _. Defined.

(** [DELETE FROM t p1 USING t p2 WHERE p1.ctid < p2.ctid AND ...]:
    a row goes when the table, as it is before the statement, has a
    row behind it with the same provider and foreign identifier. *)
Fixpoint delete_rows_with_later_duplicate (t : list load_row)
    : list load_row :=
  match t with
  | [] => []
  | p1 :: later =>
      if decide (Exists (same_provider_and_foreign_id p1) later)
      then delete_rows_with_later_duplicate later
      else p1 :: delete_rows_with_later_duplicate later
  end.

Definition _clean_intermediate_table_data (t : list load_row)
    : list load_row :=
  let t := delete_where_null direct_url t in
  let t := delete_where_null license t in
  let t := delete_where_null landing_url t in
  let t := delete_where_null foreign_id t in
  delete_rows_with_later_duplicate t.

(** The four columns the cleaner wants filled. *)
Definition has_required_columns (r : load_row) : Prop :=
  is_Some (direct_url r) ∧ is_Some (license r)
  ∧ is_Some (landing_url r) ∧ is_Some (foreign_id r).

(** *** _delete_malformed_row_in_file *)

(** [enumerate(lines)], counting from [index]. *)
Fixpoint enumerate_from {A} (index : Z) (lines : list A) : list (Z * A) :=
  match lines with
  | [] => []
  | line :: rest => (index, line) :: enumerate_from (index + 1) rest
  end.

(** The file is the list of its lines, as [readlines] returns them
    and as writing them back one by one restores them. *)
Definition _delete_malformed_row_in_file (lines : list string)
    (line_number : Z) : list string :=
  (filter (fun il => il.1 + 1 ≠ line_number) (enumerate_from 0 lines)).*2.

(** *** _get_malformed_row_in_file *)

Definition startswith (pre s : string) : bool := String.prefix pre s.

Definition _get_malformed_row_in_file `{PyBuiltins} (error_msg : string)
    : outcome Z :=
  let error_list := splitlines error_msg in
  match List.find (startswith "COPY") error_list with
  | None => Raised AssertionError
  | Some copy_error =>
      match split copy_error "line " !! 1%nat with
      | None => Raised IndexError
      | Some after_line =>
          match split after_line "," !! 0%nat with
          | None => Raised IndexError
          | Some digits =>
              match int digits with
              | Some line_number => Done line_number
              | None => Raised ValueError
              end
          end
      end
  end.

(** *** load_local_data_to_intermediate_table *)

(** The [while] loop.  It returns the file as the loop leaves it, the
    number of [bulk_load] calls made, and either the rows of the
    successful load, or no rows when the loop ends with
    [load_successful] still false, or the exception that escapes.
    [fuel] bounds the iterations; [None] is fuel running out. *)
Fixpoint retry_loop `{Store, PyBuiltins} (fuel : nat) (load_table : string)
    (tsv_file : list string) (max_rows_to_skip : Z) (calls : nat)
    : option (list string * nat * outcome (option (list load_row))) :=
  if decide (0 ≤ max_rows_to_skip) then
    match fuel with
    | O => None
    | S fuel =>
        match bulk_load load_table tsv_file with
        | Done rows => Some (tsv_file, S calls, Done (Some rows))
        | Raised (InvalidTextRepresentation e) =>
            match _get_malformed_row_in_file e with
            | Done line_number =>
                retry_loop fuel load_table
                  (_delete_malformed_row_in_file tsv_file line_number)
                  (max_rows_to_skip - 1) (S calls)
            | Raised x => Some (tsv_file, S calls, Raised x)
            end
        | Raised x => Some (tsv_file, S calls, Raised x)
        end
    end
  else Some (tsv_file, calls, Done None).

(** What a run of the loader leaves behind: the file, the number of
    [bulk_load] calls it made, the database, and the exception that
    escaped, if any.  A COPY that fails leaves no row behind. *)
Record load_run : Type := LoadRun {
  tsv_after : list string;
  bulk_load_calls : nat;
  db_after : database;
  load_error : option exn
}.

Definition load_local_data_to_intermediate_table `{Store, PyBuiltins}
    (db : database) (tsv_file : list string) (identifier : string)
    (max_rows_to_skip : Z) : option load_run :=
  let load_table_name := _get_load_table_name identifier in
  match retry_loop (Z.to_nat (max_rows_to_skip + 1)) load_table_name
          tsv_file max_rows_to_skip 0 with
  | None => None
  | Some (tsv_file, calls, Raised e) =>
      Some (LoadRun tsv_file calls db (Some e))
  | Some (tsv_file, calls, Done None) =>
      Some (LoadRun tsv_file calls db (Some (InvalidTextRepresentation
        "Exceeded the maximum number of allowed defective rows")))
  | Some (tsv_file, calls, Done (Some rows)) =>
      Some (LoadRun tsv_file calls
        {| load_table :=
             _clean_intermediate_table_data (load_table db ++ rows);
           image := image db |}
        None)
  end.

(** *** load_s3_data_to_intermediate_table *)

(** [aws_s3.table_import_from_s3], given the table name, the bucket and
    the key: the rows it appends, or the error of the store. *)
Class S3Import : Type := {
  table_import_from_s3 : string → string → string → outcome (list load_row)
}.

Definition load_s3_data_to_intermediate_table `{S3Import} (db : database)
    (bucket s3_key identifier : string) : outcome database :=
  let load_table_name := _get_load_table_name identifier in
  rows ← table_import_from_s3 load_table_name bucket s3_key;
  Done {| load_table := _clean_intermediate_table_data (load_table db ++ rows);
          image := image db |}.

(** Every load attempt meets a malformed row whose line the error names. *)
Definition every_load_fails `{Store, PyBuiltins} (load_table_name : string)
    : Prop :=
  ∀ tsv_file, ∃ e line_number,
    bulk_load load_table_name tsv_file = Raised (InvalidTextRepresentation e)
    ∧ _get_malformed_row_in_file e = Done line_number.

(** *** upsert_records_to_image_table *)

Definition _newest_non_null {A} (column : load_row → option A)
    (old excluded : load_row) : option A :=
  COALESCE (column excluded) (column old).

Definition _merge_jsonb_objects
    (column : load_row → option (gmap string json))
    (old excluded : load_row) : option (gmap string json) :=
  COALESCE3
    (a ← column old; b ← column excluded;
     Some (jsonb_concat_objects (strip_nulls_fields a)
                                (strip_nulls_fields b)))
    (column excluded)
    (column old).

Definition _merge_jsonb_arrays (column : load_row → option (list json))
    (old excluded : load_row) : option (list json) :=
  COALESCE3
    (a ← column old; b ← column excluded;
     jsonb_agg_distinct_elements (jsonb_concat_arrays a b))
    (column excluded)
    (column old).

(** The row [INSERT ... SELECT] proposes for a row of the loading
    table ([column_inserts]); it is also what EXCLUDED denotes. *)
Definition insert_values (NOW : timestamp) (r : load_row) : image_row :=
  {| cols := r;
     created_on := Some NOW;
     updated_on := Some NOW;
     last_synced := Some NOW;
     removed := Some false |}.

(** [DO UPDATE SET ...] on the existing row [old]. *)
Definition do_update_set (NOW : timestamp) (old : image_row)
    (excluded : load_row) : image_row :=
  {| created_on := created_on old;
     updated_on := Some NOW;
     last_synced := Some NOW;
     removed := Some false;
     cols :=
       {| foreign_id := foreign_id (cols old);
          provider := provider (cols old);
          ingestion_type := _newest_non_null ingestion_type (cols old) excluded;
          source := _newest_non_null source (cols old) excluded;
          landing_url := _newest_non_null landing_url (cols old) excluded;
          direct_url := _newest_non_null direct_url (cols old) excluded;
          thumbnail := _newest_non_null thumbnail (cols old) excluded;
          width := _newest_non_null width (cols old) excluded;
          height := _newest_non_null height (cols old) excluded;
          filesize := _newest_non_null filesize (cols old) excluded;
          license := _newest_non_null license (cols old) excluded;
          license_version :=
            _newest_non_null license_version (cols old) excluded;
          creator := _newest_non_null creator (cols old) excluded;
          creator_url := _newest_non_null creator_url (cols old) excluded;
          title := _newest_non_null title (cols old) excluded;
          watermarked := _newest_non_null watermarked (cols old) excluded;
          meta_data := _merge_jsonb_objects meta_data (cols old) excluded;
          tags := _merge_jsonb_arrays tags (cols old) excluded |} |}.

(** The policy for a scalar column: the incoming value when it is not
    null, the existing value otherwise. *)
Definition incoming_else_existing {A} (incoming existing merged : option A)
    : Prop :=
  (is_Some incoming → merged = incoming)
  ∧ (incoming = None → merged = existing).

(** The elements of a [tags] value; NULL has none. *)
Definition elements (t : option (list json)) : list json := default [] t.

(** The value of the arbiter index [(provider, md5(foreign_identifier))]
    on a row; rows with a NULL in it conflict with nothing. *)
Definition arbiter_key `{Store} (r : load_row) : option (string * string) :=
  match provider r, foreign_id r with
  | Some p, Some f => Some (p, md5 f)
  | _, _ => None
  end.

Definition conflicts `{Store} (old : image_row) (excluded : load_row) : Prop :=
  sql_eq (arbiter_key (cols old)) (arbiter_key excluded).

#[global] Instance conflicts_dec `{Store} old excluded :
  Decision (conflicts old excluded).
Proof. unfold conflicts. apply _. Defined.

(** [INSERT ... ON CONFLICT (...) DO UPDATE] for one proposed row: the
    row in conflict is updated, and without one the proposed row is
    added.  The updated row keeps its place in the list and the new one
    goes to its end, so that a position names the same row before and
    after; where the store keeps the rows is not modelled. *)
Fixpoint insert_on_conflict `{Store} (NOW : timestamp) (excluded : load_row)
    (image : list image_row) : list image_row :=
  match image with
  | [] => [insert_values NOW excluded]
  | old :: rest =>
      if decide (conflicts old excluded)
      then do_update_set NOW old excluded :: rest
      else old :: insert_on_conflict NOW excluded rest
  end.

(** The whole statement over the rows of the loading table.  The store
    refuses to touch one row twice in a statement: [affected] holds the
    index values of the rows inserted or updated so far.  The arbiter
    index is the one constraint of the image table the statement names;
    no other is assumed. *)
Fixpoint upsert_rows `{Store} (NOW : timestamp)
    (affected : list (string * string)) (image : list image_row)
    (load : list load_row) : outcome (list image_row) :=
  match load with
  | [] => Done image
  | r :: load =>
      match arbiter_key r with
      | Some k =>
          if decide (k ∈ affected) then Raised CardinalityViolation
          else upsert_rows NOW (k :: affected)
                 (insert_on_conflict NOW r image) load
      | None =>
          upsert_rows NOW affected (insert_on_conflict NOW r image) load
      end
  end.

Definition upsert_records_to_image_table `{Store} (NOW : timestamp)
    (db : database) : outcome database :=
  image' ← upsert_rows NOW [] (image db) (load_table db);
  Done {| load_table := load_table db; image := image' |}.

(** *** Comparing rows across two runs of the upsert *)

(** The columns that are neither timestamps nor JSON. *)
Definition scalars (c : load_row) :=
  (foreign_id c, landing_url c, direct_url c, thumbnail c, width c, height c,
   filesize c, license c, license_version c, creator c, creator_url c,
   title c, watermarked c, provider c, source c, ingestion_type c).

(** Two states of a row that differ at most in [updated_on] and
    [last_synced], in null-valued fields of the metadata, and in the
    order and repetition of the tags. *)
Definition same_but_timestamps (r1 r2 : image_row) : Prop :=
  created_on r1 = created_on r2
  ∧ removed r1 = removed r2
  ∧ scalars (cols r1) = scalars (cols r2)
  ∧ strip_nulls_fields <$> meta_data (cols r1)
    = strip_nulls_fields <$> meta_data (cols r2)
  ∧ ∀ x, x ∈ elements (tags (cols r1)) ↔ x ∈ elements (tags (cols r2)).

(** The row already holds what the incoming row brings: merging the
    incoming row into it changes nothing but the timestamps. *)
Definition absorbs (r : image_row) (excluded : load_row) : Prop :=
  ∀ NOW, same_but_timestamps r (do_update_set NOW r excluded).

(** The first row of the table with a given value in the arbiter index. *)
Definition find_key `{Store} (k : string * string) (image : list image_row)
    : option (nat * image_row) :=
  list_find (fun o => arbiter_key (cols o) = Some k) image.

(** *** Sub-provider passes *)

(** [UPDATE image SET source = ...] writes one column. *)
Definition set_source (s : option string) (r : image_row) : image_row :=
  {| created_on := created_on r;
     updated_on := updated_on r;
     last_synced := last_synced r;
     removed := removed r;
     cols :=
       {| foreign_id := foreign_id (cols r);
          landing_url := landing_url (cols r);
          direct_url := direct_url (cols r);
          thumbnail := thumbnail (cols r);
          width := width (cols r);
          height := height (cols r);
          filesize := filesize (cols r);
          license := license (cols r);
          license_version := license_version (cols r);
          creator := creator (cols r);
          creator_url := creator_url (cols r);
          title := title (cols r);
          meta_data := meta_data (cols r);
          tags := tags (cols r);
          watermarked := watermarked (cols r);
          provider := provider (cols r);
          source := s;
          ingestion_type := ingestion_type (cols r) |} |}.

(** The values of the sub-provider UPDATEs are formatted into the text
    of the statement between single quotes, as they are: a value reads
    as itself when it holds no single quote. *)
Definition quote_free (s : string) : Prop :=
  "'"%char ∉ String.list_ascii_of_string s.

#[global] Instance quote_free_dec s : Decision (quote_free s).
Proof. unfold quote_free. apply _. Defined.

(** The WHERE clause shared by the three UPDATE statements, when the
    values formatted into it read as themselves. *)
Definition update_matches `{Store} (default_provider : string)
    (row_foreign_id : option string) (r : image_row) : Prop :=
  sql_eq (provider (cols r)) (Some default_provider)
  ∧ sql_eq (md5 <$> foreign_id (cols r))
           (Some (md5 (format_str row_foreign_id))).

#[global] Instance update_matches_dec `{Store} d f r :
  Decision (update_matches d f r).
Proof. unfold update_matches. apply _. Defined.

(** [UPDATE image SET source = 'new_source' WHERE provider =
    'default_provider' AND MD5(foreign_identifier) = MD5('foreign_id')]
    when its three values read as themselves. *)
Definition update_where `{Store} (default_provider : string)
    (new_source : string) (row_foreign_id : option string)
    (image : list image_row) : list image_row :=
  (fun r => if decide (update_matches default_provider row_foreign_id r)
            then set_source (Some new_source) r else r) <$> image.

(** The UPDATE as the passes run it: the statement above when none of
    the three formatted values holds a single quote, and otherwise
    whatever the store makes of the text. *)
Definition update_source `{Store} (default_provider : string)
    (new_source : string) (row_foreign_id : option string)
    (image : list image_row) : outcome (list image_row) :=
  if decide (quote_free default_provider ∧ quote_free new_source
             ∧ quote_free (format_str row_foreign_id))
  then Done (update_where default_provider new_source row_foreign_id image)
  else malformed_update default_provider new_source
         (format_str row_foreign_id) image.

(** What a pass leaves behind: every UPDATE is committed as it is run,
    so the table keeps the updates made before an exception. *)
Record pass_run : Type := PassRun {
  image_after : list image_row;
  raised : option exn
}.

(** [for row in selected_records: ...] with a body that may raise. *)
Fixpoint for_each_record {R} (body : list image_row → R → outcome (list image_row))
    (selected_records : list R) (image : list image_row) : pass_run :=
  match selected_records with
  | [] => {| image_after := image; raised := None |}
  | row :: rest =>
      match body image row with
      | Done image' => for_each_record body rest image'
      | Raised e => {| image_after := image; raised := Some e |}
      end
  end.

(** **** Flickr *)

(** The temporary table as the INSERTs fill it, row by row, when the
    values read as themselves and fit the columns ([fits_columns]). *)
Definition _create_temp_flickr_sub_prov_table `{ProviderDetails}
    : list (string * string) :=
  '(sub_prov, user_id_set) ← FLICKR_SUB_PROVIDERS;
  user_id ← user_id_set;
  [(FLICKR_PHOTO_URL_BASE +:+ user_id, sub_prov)].

(** The join of the image table with the temporary table.  The query has
    no ORDER BY: the order of the records is the store's.  Here they come
    image row by image row, and the properties of the passes are stated
    for the records in any order. *)
Definition select_flickr (default_provider : string)
    (temp_table : list (string * string)) (image : list image_row)
    : list (option string * string) :=
  r ← image;
  t ← temp_table;
  if decide (sql_eq (creator_url (cols r)) (Some t.1)
             ∧ sql_eq (provider (cols r)) (Some default_provider))
  then [(foreign_id (cols r), t.2)] else [].

(** The body of the loop: [row[0]] is the foreign identifier and
    [row[1]] the sub-provider. *)
Definition flickr_record `{Store} (default_provider : string)
    (image : list image_row) (row : option string * string)
    : outcome (list image_row) :=
  update_source default_provider row.2 row.1 image.

Definition update_flickr_sub_providers `{Store, ProviderDetails}
    (image : list image_row) (default_provider : string) : pass_run :=
  let temp_table := _create_temp_flickr_sub_prov_table in
  let selected_records := select_flickr default_provider temp_table image in
  for_each_record (flickr_record default_provider) selected_records image.

(** **** Europeana *)

(** The temporary table, under the same conditions. *)
Definition _create_temp_europeana_sub_prov_table `{ProviderDetails}
    : list (string * string) :=
  (fun '(sub_prov, data_provider) => (data_provider, sub_prov))
    <$> EUROPEANA_SUB_PROVIDERS.

(** [meta_data ->> key]: the field as text, NULL for a missing field
    and for a JSON null. *)
Definition arrow_text `{Store} (m : option (gmap string json)) (key : string)
    : option string :=
  match m ≫= (fun m => m !! key) with
  | None | Some JNull => None
  | Some (JStr s) => Some s
  | Some v => Some (jsonb_out v)
  end.

(** The records are (foreign_id, data_providers, sub_provider); as for
    Flickr, their order is the store's. *)
Definition select_europeana `{Store} (default_provider : string)
    (temp_table : list (string * string)) (image : list image_row)
    : list (option string * option string * string) :=
  r ← filter (fun r => sql_eq (provider (cols r)) (Some default_provider)) image;
  t ← temp_table;
  match meta_data (cols r) ≫= (fun m => m !! "dataProvider") with
  | Some v =>
      if exists_key v t.1
      then [(foreign_id (cols r), arrow_text (meta_data (cols r)) "dataProvider", t.2)]
      else []
  | None => []
  end.

Definition is_substring (x s : string) : bool :=
  bool_decide (is_Some (String.index 0 x s)).

(** [x in c] for a string [x] and a value [json.loads] returned. *)
Definition py_in (x : string) (c : json) : outcome bool :=
  match c with
  | JArr l => Done (bool_decide (JStr x ∈ l))
  | JObj m => Done (bool_decide (is_Some (m !! x)))
  | JStr s => Done (is_substring x s)
  | _ => Raised TypeError
  end.

(** [{s for s in sub_providers if sub_providers[s] in data_providers}],
    before duplicates are dropped. *)
Fixpoint eligible_among (sub_providers : dict string) (data_providers : json)
    : outcome (list string) :=
  match sub_providers with
  | [] => Done []
  | (s, data_provider) :: rest =>
      b ← py_in data_provider data_providers;
      e ← eligible_among rest data_providers;
      Done (if b : bool then s :: e else e)
  end.

Definition eligible_sub_providers (sub_providers : dict string)
    (data_providers : json) : outcome (list string) :=
  e ← eligible_among sub_providers data_providers;
  Done (remove_dups e).

Definition europeana_record `{Store, PyBuiltins} (default_provider : string)
    (sub_providers : dict string) (image : list image_row)
    (row : option string * option string * string)
    : outcome (list image_row) :=
  let '(row_foreign_id, row1, sub_provider) := row in
  data_providers ←
    match row1 with Some s => json_loads s | None => Raised TypeError end;
  eligible ← eligible_sub_providers sub_providers data_providers;
  if decide (1 < length eligible)%nat then
    Raised (Exception
      ("More than one sub-provider identified for the image with foreign ID "
       +:+ format_str row_foreign_id))
  else if decide (length eligible ≠ 1%nat) then Raised AssertionError
  else if decide (eligible ≠ [sub_provider]) then Raised AssertionError
  else update_source default_provider sub_provider row_foreign_id image.

Definition update_europeana_sub_providers `{Store, PyBuiltins, ProviderDetails}
    (image : list image_row) (default_provider : string)
    (sub_providers : dict string) : pass_run :=
  let temp_table := _create_temp_europeana_sub_prov_table in
  let selected_records := select_europeana default_provider temp_table image in
  for_each_record (europeana_record default_provider sub_providers)
    selected_records image.

(** **** Smithsonian *)

(** The records are (foreign_id, unit_code); their order is the
    store's. *)
Definition select_smithsonian `{Store} (default_provider : string)
    (image : list image_row) : list (option string * option string) :=
  (fun r => (foreign_id (cols r), arrow_text (meta_data (cols r)) "unit_code"))
    <$> filter (fun r => sql_eq (provider (cols r)) (Some default_provider)
                         ∧ sql_eq (source (cols r)) (Some default_provider))
          image.

(** [unit_code in codes] for a set of strings; a NULL unit code is
    [None], which is in no such set. *)
Definition unit_code_in (unit_code : option string) (codes : list string)
    : bool :=
  match unit_code with
  | Some u => bool_decide (u ∈ codes)
  | None => false
  end.

(** [next((s for s in sub_providers if unit_code in sub_providers[s]), None)]. *)
Fixpoint find_source (sub_providers : dict (list string))
    (unit_code : option string) : option string :=
  match sub_providers with
  | [] => None
  | (s, unit_codes) :: rest =>
      if unit_code_in unit_code unit_codes then Some s
      else find_source rest unit_code
  end.

Definition smithsonian_record `{Store} (default_provider : string)
    (sub_providers : dict (list string)) (image : list image_row)
    (row : option string * option string) : outcome (list image_row) :=
  let '(row_foreign_id, unit_code) := row in
  match find_source sub_providers unit_code with
  | None =>
      Raised (Exception ("An unknown unit code value "
                         +:+ format_str unit_code +:+ " encountered "))
  | Some source =>
      update_source default_provider source row_foreign_id image
  end.

Definition update_smithsonian_sub_providers `{Store}
    (image : list image_row) (default_provider : string)
    (sub_providers : dict (list string)) : pass_run :=
  let selected_records := select_smithsonian default_provider image in
  for_each_record (smithsonian_record default_provider sub_providers)
    selected_records image.

(** **** The passes, row by row *)

(** One UPDATE seen from one row; [u] is the foreign identifier and the
    new source. *)
Definition update_row `{Store} (default_provider : string)
    (u : option string * string) (x : image_row) : image_row :=
  if decide (update_matches default_provider u.1 x)
  then set_source (Some u.2) x else x.

(** A sequence of UPDATEs seen from one row, and on the table. *)
Definition update_rows `{Store} (default_provider : string)
    (us : list (option string * string)) (x : image_row) : image_row :=
  foldl (fun x u => update_row default_provider u x) x us.

Definition apply_updates `{Store} (default_provider : string)
    (us : list (option string * string)) (image : list image_row)
    : list image_row :=
  foldl (fun image u => update_where default_provider u.2 u.1 image) image us.

(** The rows the Smithsonian pass selects. *)
Definition still_default (default_provider : string) (r : image_row) : Prop :=
  sql_eq (provider (cols r)) (Some default_provider)
  ∧ sql_eq (source (cols r)) (Some default_provider).

(** A row before and after a pass over the rows of a provider: at most
    the source differs, and not even that when the row is of another
    provider or has no foreign identifier. *)
Definition differ_in_source_only (default_provider : string)
    (x y : image_row) : Prop :=
  set_source None y = set_source None x
  ∧ (¬ sql_eq (provider (cols x)) (Some default_provider)
     ∨ foreign_id (cols x) = None → y = x).

(** The arbiter index of the image table admits no two rows with the
    same value. *)
Definition unique_index `{Store} (image : list image_row) : Prop :=
  NoDup (omap (fun r => arbiter_key (cols r)) image).

(** No foreign identifier of a row of the provider holds a single
    quote. *)
Definition quote_free_ids (default_provider : string)
    (image : list image_row) : Prop :=
  ∀ r f, r ∈ image → sql_eq (provider (cols r)) (Some default_provider) →
         foreign_id (cols r) = Some f → quote_free f.

(** The INSERTs that fill a temporary table format its two values
    between single quotes, as they are, into columns of bounded width
    (the first of the width given, the second of 80 characters): the
    table holds the values given when none has a single quote and each
    fits its column. *)
Definition fits_columns (width : nat) (temp_table : list (string * string))
    : Prop :=
  ∀ t, t ∈ temp_table →
    quote_free t.1 ∧ quote_free t.2
    ∧ (String.length t.1 ≤ width)%nat ∧ (String.length t.2 ≤ 80)%nat.


(** No two different foreign identifiers of the table have the same
    digest. *)
Definition collision_free `{Store} (t : list load_row) : Prop :=
  ∀ r1 r2 f1 f2, r1 ∈ t → r2 ∈ t →
    foreign_id r1 = Some f1 → foreign_id r2 = Some f2 →
    md5 f1 = md5 f2 → f1 = f2.

End Sql.

(** ** raw_pixel.py: the record normalizer *)

Module RawPixel.

Definition PROVIDER : string := "rawpixel".

(** What the normalizer calls and these sources do not define:
    [urlparse(url).query], [parse_qs], the [str] methods [replace],
    [strip] and [split], [str(x)] on a payload value, and
    [ImageStore.add_item].  [urlparse_query] is the query of the URLs
    that [urlparse] reads; the ValueError it raises on a URL with an
    unmatched bracket in its host is not modelled, and a property that
    names the exception raised on an image URL is about the URLs
    [urlparse] reads. *)
Record add_item_args : Type := AddItemArgs {
  foreign_landing_url : json;
  image_url : json;
  license_ : string;
  license_version : string;
  foreign_identifier : string;
  width : option string;
  height : option string;
  title : option json;
  raw_tags : list string;
  creator : string;
  thumbnail_url : json
}.

Class Library : Type := {
  urlparse_query : string → string;
  parse_qs : string → gmap string (list string);
  replace : string → string → string → string;
  strip : string → string;
  split : string → string → list string;
  str : json → string;
  add_item : add_item_args → outcome json
}.

(** A payload is the dict decoded from one JSON object; [None] is
    [JNull]. *)
Definition get (image : gmap string json) (key : string) : json :=
  default JNull (image !! key).

Definition get_default (image : gmap string json) (key : string)
    (d : json) : json :=
  default d (image !! key).

(** Truth value of a decoded JSON value. *)
Definition truthy (v : json) : bool :=
  match v with
  | JNull => false
  | JBool b => b
  | JNum n => bool_decide (n ≠ 0)
  | JStr s => bool_decide (s ≠ "")
  | JArr l => bool_decide (l ≠ [])
  | JObj m => bool_decide (m ≠ ∅)
  end.

Definition _get_foreign_id_url (image : gmap string json) : json * json :=
  if truthy (get image "freecc0") then
    let foreign_id := get_default image "id" (JStr "") in
    let foreign_url := get image "url" in
    (foreign_id, foreign_url)
  else (JNull, JNull).

(** [l[0]]. *)
Definition first {A} (l : list A) : outcome A :=
  match l with
  | x :: _ => Done x
  | [] => Raised IndexError
  end.

(** The four results are img_url, width, height, thumbnail; without an
    image URL all four are [None]. *)
Definition _get_image_properties `{Library} (image : gmap string json)
    (foreign_url : json) : outcome (json * option string * option string * json) :=
  let img_url := get image "image_opengraph" in
  if truthy img_url then
    match img_url with
    | JStr url =>
        let query_params := urlparse_query url in
        width ← first (default [] (parse_qs query_params !! "w"));
        height ← first (default [] (parse_qs query_params !! "h"));
        let thumbnail := get_default image "image_400" (JStr "") in
        Done (img_url, Some width, Some height, thumbnail)
    | _ => Raised AttributeError
    end
  else Done (JNull, None, None, JNull).

Definition _get_title_owner `{Library} (image : gmap string json)
    : outcome (json * string) :=
  let title := get_default image "image_title" (JStr "") in
  match get_default image "artist_names" (JStr "") with
  | JStr owner => Done (title, strip (replace owner "(Source)" ""))
  | _ => Raised AttributeError
  end.

Definition _get_tags `{Library} (image : gmap string json)
    : outcome (list string) :=
  let keywords := get image "keywords_raw" in
  if truthy keywords then
    match keywords with
    | JStr keywords =>
        let keyword_list := split keywords "," in
        Done (strip <$>
                filter (fun word =>
                          strip word ∉ ["cc0"; "creative commons";
                                        "creative commons 0"])
                       keyword_list)
    | _ => Raised AttributeError
    end
  else Done [].

(** [return None] is [Done JNull]; otherwise the function returns what
    [add_item] returns. *)
Definition _process_image_data `{Library} (image : gmap string json)
    : outcome json :=
  let license := "cc0" in
  let version := "1.0" in
  let '(foreign_id, foreign_url) := _get_foreign_id_url image in
  if negb (truthy foreign_url) then Done JNull
  else
    '(img_url, width, height, thumbnail) ←
      _get_image_properties image foreign_url;
    if negb (truthy img_url) then Done JNull
    else
      '(title, owner) ← _get_title_owner image;
      tags ← _get_tags image;
      add_item
        {| foreign_landing_url := foreign_url;
           image_url := img_url;
           license_ := license;
           license_version := version;
           foreign_identifier := str foreign_id;
           width := width ≫= (fun w => if decide (w = "") then None else Some w);
           height := height ≫= (fun h => if decide (h = "") then None else Some h);
           title := if truthy title then Some title else None;
           raw_tags := tags;
           creator := owner;
           thumbnail_url := thumbnail |}.

End RawPixel.

(** ** provider_api_scripts/raw_pixel.py, the run over the pages

    The same normalizer with the image store as a state, and around it
    the requests to the API and the loop over its pages. *)
Module RawPixelRun.
Import RawPixel.

(** What [delayed_requester.get] returns: [None], or a response with
    its status code and what [response.json()] gives. *)
Record response : Type := Response {
  status_code : Z;
  response_json : outcome json
}.

(** [delayed_requester.get(url, params=query_params)], the image store
    with its [add_item] and [commit], and [<] on two values that are
    both strings or both lists. *)
Class World : Type := {
  requester_get : string → list (string * Z) → outcome (option response);
  store : Type;
  add_item : store → add_item_args → outcome (json * store);
  commit : store → outcome store;
  str_lt : string → string → bool;
  list_lt : list json → list json → outcome bool
}.

(** [requests.codes.ok]. *)
Definition codes_ok : Z := 200.

(** [response.status_code] on [None] raises AttributeError inside the
    [try], as does a body that is not JSON: both end in [return None]. *)
Definition _request_content `{World} (url : string)
    (query_params : list (string * Z)) : outcome json :=
  response ← requester_get url query_params;
  match response with
  | Some response =>
      if decide (status_code response = codes_ok) then
        match response_json response with
        | Done j => Done j
        | Raised _ => Done JNull
        end
      else Done JNull
  | None => Done JNull
  end.

Definition _get_image_list `{World} (page : Z) : outcome (json * json) :=
  let endpoint := "https://api.rawpixel.com/api/v1/search" in
  let query_params := [("freecc0", 1); ("html", 0); ("page", page)] in
  request ← _request_content endpoint query_params;
  if truthy request then
    match request with
    | JObj request =>
        if truthy (get request "results")
        then Done (get request "total", get request "results")
        else Done (JNull, JNull)
    | _ => Raised AttributeError
    end
  else Done (JNull, JNull).

Definition _process_image_data `{Library, World} (s : store)
    (image : gmap string json) : outcome (json * store) :=
  let license := "cc0" in
  let version := "1.0" in
  let '(foreign_id, foreign_url) := _get_foreign_id_url image in
  if negb (truthy foreign_url) then Done (JNull, s)
  else
    '(img_url, width, height, thumbnail) ←
      _get_image_properties image foreign_url;
    if negb (truthy img_url) then Done (JNull, s)
    else
      '(title, owner) ← _get_title_owner image;
      tags ← _get_tags image;
      add_item s
        {| foreign_landing_url := foreign_url;
           image_url := img_url;
           license_ := license;
           license_version := version;
           foreign_identifier := str foreign_id;
           width := width ≫= (fun w => if decide (w = "") then None else Some w);
           height := height ≫= (fun h => if decide (h = "") then None else Some h);
           title := if truthy title then Some title else None;
           raw_tags := tags;
           creator := owner;
           thumbnail_url := thumbnail |}.

(** [a < b]: integers and booleans compare as integers, two strings and
    two lists compare among themselves, anything else is a TypeError. *)
Definition as_int (j : json) : option Z :=
  match j with
  | JNum n => Some n
  | JBool b => Some (if b then 1 else 0)
  | _ => None
  end.

Definition py_lt `{World} (a b : json) : outcome bool :=
  match as_int a, as_int b with
  | Some x, Some y => Done (bool_decide (x < y))
  | _, _ =>
      match a, b with
      | JStr x, JStr y => Done (str_lt x y)
      | JArr x, JArr y => list_lt x y
      | _, _ => Raised TypeError
      end
  end.

(** What [for img in result] goes through: the elements of a list, the
    characters of a string, the keys of a dict; other values are not
    iterable.  The keys come in the order of the map, which is of no
    consequence: the body raises on the first. *)
Definition iterate (result : json) : outcome (list json) :=
  match result with
  | JArr l => Done l
  | JStr s => Done ((fun c => JStr (String c "")) <$> String.list_ascii_of_string s)
  | JObj m => Done (JStr <$> (map_to_list m).*1)
  | _ => Raised TypeError
  end.

(** The body of the [for] loop; [img.get] is there for a dict only. *)
Definition process_img `{Library, World} (img_ctr : json) (s : store)
    (img : json) : outcome (json * store) :=
  match img with
  | JObj image =>
      '(total_images, s) ← _process_image_data s image;
      Done (if truthy total_images then total_images else img_ctr, s)
  | _ => Raised AttributeError
  end.

Fixpoint for_img_in `{Library, World} (result : list json) (img_ctr : json)
    (s : store) : outcome (json * store) :=
  match result with
  | [] => Done (img_ctr, s)
  | img :: rest =>
      '(img_ctr, s) ← process_img img_ctr s img;
      for_img_in rest img_ctr s
  end.

(** The [while] loop of _process_pages; [fuel] bounds the iterations and
    [None] is fuel running out. *)
Fixpoint pages_loop `{Library, World} (fuel : nat) (s : store)
    (img_ctr total result : json) (is_valid : bool) (page : Z)
    : option (outcome (json * store)) :=
  match py_lt img_ctr total with
  | Raised e => Some (Raised e)
  | Done below =>
      if below && is_valid then
        match fuel with
        | O => None
        | S fuel =>
            match iterate result ≫= (fun imgs => for_img_in imgs img_ctr s) with
            | Raised e => Some (Raised e)
            | Done (img_ctr, s) =>
                let page := page + 1 in
                match _get_image_list page with
                | Raised e => Some (Raised e)
                | Done (total, result) =>
                    let is_valid :=
                      if negb (truthy result) then false else is_valid in
                    let '(total, is_valid) :=
                      if negb (truthy total) then (JNum 0, false)
                      else (total, is_valid) in
                    pages_loop fuel s img_ctr total result is_valid page
                end
            end
        end
      else Some (Done (img_ctr, s))
  end.

Definition _process_pages `{Library, World} (fuel : nat) (s : store)
    (total result : json) (page : Z) : option (outcome (json * store)) :=
  let img_ctr := JNum 0 in
  let '(total, is_valid) :=
    if negb (truthy total) then (JNum 0, false) else (total, true) in
  pages_loop fuel s img_ctr total result is_valid page.

(** The run: the store as [commit] leaves it, or the exception that
    escapes. *)
Definition main `{Library, World} (fuel : nat) (s : store)
    : option (outcome store) :=
  let page := 1 in
  match _get_image_list page with
  | Raised e => Some (Raised e)
  | Done (total, result) =>
      match _process_pages fuel s total result page with
      | Some (Done (img_ctr, s)) => Some (commit s)
      | Some (Raised e) => Some (Raised e)
      | None => None
      end
  end.

End RawPixelRun.

(** ** Stores and builtins for the examples

    Concrete instances of the interfaces above, used where a property is
    evaluated on an input: a digest, [split] and [int] that behave as
    the real ones on the strings of the examples, and stores whose bulk
    loader rejects chosen lines. *)

Module Examples.
Import Sql.

Fixpoint split_on (sep s : string) (skip : nat) (acc : string) : list string :=
  match s with
  | EmptyString => [acc]
  | String c s' =>
      match skip with
      | S n => split_on sep s' n acc
      | O =>
          if String.prefix sep s
          then acc :: split_on sep s' (String.length sep - 1) ""
          else split_on sep s' 0 (acc +:+ String c "")
      end
  end.

Definition digit (c : ascii) : option Z :=
  let n := Z.of_nat (nat_of_ascii c) in
  if decide (48 ≤ n ≤ 57) then Some (n - 48) else None.

Fixpoint digits (s : string) (acc : Z) : option Z :=
  match s with
  | EmptyString => Some acc
  | String c s' => d ← digit c; digits s' (10 * acc + d)
  end.

(** The text of a JSON array of strings, and its reading back; enough
    of [jsonb_out] and [json.loads] for lists of names without quotes
    or commas in them. *)
Definition quote : ascii := "034"%char.

Definition text_of_array (j : json) : string :=
  match j with
  | JArr l =>
      "[" +:+ String.concat ", "
                ((fun e => match e with
                           | JStr s => String quote s +:+ String quote ""
                           | _ => "null"
                           end) <$> l) +:+ "]"
  | _ => "null"
  end.

Definition unquote (item : string) : option json :=
  match item with
  | String q rest =>
      match String.rev rest with
      | String q' name =>
          if decide (q = quote ∧ q' = quote) then Some (JStr (String.rev name))
          else None
      | EmptyString => None
      end
  | EmptyString => None
  end.

Definition array_of_text (s : string) : outcome json :=
  match s with
  | String "["%char rest =>
      match String.rev rest with
      | String "]"%char inner =>
          if decide (inner = "") then Done (JArr [])
          else match mapM unquote (split_on ", " (String.rev inner) 0 "") with
               | Some l => Done (JArr l)
               | None => Raised JSONDecodeError
               end
      | _ => Raised JSONDecodeError
      end
  | _ => Raised JSONDecodeError
  end.

#[local] Instance builtins : PyBuiltins := {|
  splitlines := fun s => split_on (String "010"%char "") s 0 "";
  split := fun s sep => split_on sep s 0 "";
  int := fun s => if decide (s = "") then None else digits s 0;
  json_loads := array_of_text
|}.

(** A row of the loading table read from a line that holds nothing but
    a foreign identifier. *)
Definition row_of_line (line : string) : load_row :=
  {| foreign_id := Some line; landing_url := Some "https://example.org/page";
     direct_url := Some "https://example.org/image.jpg"; thumbnail := None;
     width := None; height := None; filesize := None;
     license := Some "cc0"; license_version := Some "1.0";
     creator := None; creator_url := None; title := None;
     meta_data := None; tags := None; watermarked := None;
     provider := Some "rawpixel"; source := Some "rawpixel";
     ingestion_type := None |}.

(** Two rows for one image, told apart by their titles. *)
Definition titled_row (t : string) : load_row :=
  {| foreign_id := Some "42"; landing_url := Some "https://example.org/page";
     direct_url := Some "https://example.org/image.jpg"; thumbnail := None;
     width := None; height := None; filesize := None;
     license := Some "cc0"; license_version := Some "1.0";
     creator := None; creator_url := None; title := Some t;
     meta_data := None; tags := None; watermarked := None;
     provider := Some "rawpixel"; source := Some "rawpixel";
     ingestion_type := None |}.

(** A row with the given identifier, width, metadata and tags. *)
Definition image_data (f : string) (w : option Z)
    (m : option (gmap string json)) (t : option (list json)) : load_row :=
  {| foreign_id := Some f; landing_url := Some "https://example.org/page";
     direct_url := Some "https://example.org/image.jpg"; thumbnail := None;
     width := w; height := None; filesize := None;
     license := Some "cc0"; license_version := Some "1.0";
     creator := None; creator_url := None; title := None;
     meta_data := m; tags := t; watermarked := None;
     provider := Some "rawpixel"; source := Some "rawpixel";
     ingestion_type := None |}.

(** A store that loads every file, one row per line. *)
#[local] Instance store : Store := {|
  md5 := fun s => s;
  jsonb_out := text_of_array;
  bulk_load := fun _ tsv_file => Done (row_of_line <$> tsv_file);
  malformed_update := fun _ _ _ _ => Raised (SyntaxError "syntax error")
|}.


(** A store that finds the line [57] malformed, where it is line 57. *)
#[local] Instance store_57 : Store := {|
  md5 := fun s => s;
  jsonb_out := text_of_array;
  bulk_load := fun table tsv_file =>
    if decide (tsv_file !! 56%nat = Some "57")
    then Raised (InvalidTextRepresentation
                   ("COPY " +:+ table +:+ ", line 57, column meta_data"))
    else Done (row_of_line <$> tsv_file);
  malformed_update := fun _ _ _ _ => Raised (SyntaxError "syntax error")
|}.

(** The file whose lines are the numbers from [1] to [n]. *)
Definition numbered_lines (n : nat) : list string :=
  (fun i => pretty i) <$> seq 1 n.

(** Sub-provider tables: two Flickr accounts of one sub-provider, and two
    Europeana data providers, [A] and [B]. *)
#[local] Instance provider_details : ProviderDetails := {|
  FLICKR_PHOTO_URL_BASE := "https://www.flickr.com/photos/";
  FLICKR_SUB_PROVIDERS := [("nasa", ["35067687@N04"; "24662369@N07"])];
  EUROPEANA_SUB_PROVIDERS := [("sub_a", "A"); ("sub_b", "B")]
|}.

(** A catalog row of a provider with a source, a creator URL and
    metadata. *)
Definition catalog_row (f p src : string) (cu : option string)
    (m : option (gmap string json)) : image_row :=
  {| cols :=
       {| foreign_id := Some f;
          landing_url := Some "https://example.org/page";
          direct_url := Some "https://example.org/image.jpg";
          thumbnail := None; width := None; height := None; filesize := None;
          license := Some "cc0"; license_version := Some "1.0";
          creator := None; creator_url := cu; title := None;
          meta_data := m; tags := None; watermarked := None;
          provider := Some p; source := Some src; ingestion_type := None |};
     created_on := Some 1; updated_on := Some 1; last_synced := Some 1;
     removed := Some false |}.

(** [urlparse(url).query] and [parse_qs] for URLs of the plain form
    [scheme://host/path?name=value&name=value]. *)
Definition query_of (url : string) : string :=
  match split_on "?" url 0 "" with
  | _ :: q :: _ => q
  | _ => ""
  end.

Definition parse_pairs (q : string) : gmap string (list string) :=
  foldr (fun pair (m : gmap string (list string)) =>
           match split_on "=" pair 0 "" with
           | [name; value] =>
               if decide (value = "") then m
               else <[name := value :: default [] (m !! name)]> m
           | _ => m
           end)
        ∅ (split_on "&" q 0 "").

Fixpoint lstrip (s : string) : string :=
  match s with
  | String c s' => if decide (c = " "%char) then lstrip s' else s
  | EmptyString => s
  end.

#[local] Instance library : RawPixel.Library := {|
  RawPixel.urlparse_query := query_of;
  RawPixel.parse_qs := parse_pairs;
  RawPixel.replace := fun s old new => String.concat new (split_on old s 0 "");
  RawPixel.strip := fun s => String.rev (lstrip (String.rev (lstrip s)));
  RawPixel.split := fun s sep => split_on sep s 0 "";
  RawPixel.str := fun j =>
    match j with JStr s => s | JNum n => pretty n | _ => "None" end;
  RawPixel.add_item := fun _ => Done (JNum 1)
|}.

(** A payload with a landing page and an image URL that carries a
    height and no width. *)
Definition payload_without_w : gmap string json :=
  {[ "freecc0" := JBool true;
     "id" := JNum 1234;
     "url" := JStr "https://www.rawpixel.com/image/1234";
     "image_opengraph" := JStr "https://img.rawpixel.com/1234.jpg?h=630";
     "image_title" := JStr "A title";
     "artist_names" := JStr "An artist (Source)";
     "keywords_raw" := JStr "cat, cc0, pet" ]}.

(** The payload with a width and a height in its image URL, and the same
    with a JSON null for the artist. *)
Definition payload_with_w_h : gmap string json :=
  <[ "image_opengraph" :=
       JStr "https://img.rawpixel.com/1234.jpg?w=1200&h=630" ]>
    payload_without_w.

Definition payload_with_null_artist : gmap string json :=
  <[ "artist_names" := JNull ]> payload_with_w_h.

(** An import from S3 that reads one row, named after the key. *)
#[local] Instance s3_import : S3Import := {|
  table_import_from_s3 := fun _ _ s3_key => Done [row_of_line s3_key]
|}.

(** A loading table with one row for the image 42, and an image table
    that has the image already, under another title. *)
Definition db_42 : database :=
  {| load_table := [titled_row "new title"];
     image := [insert_values 1 (titled_row "old title")] |}.

(** A store whose digest is the first character: it does not tell 42
    from 43, and does tell 42 from 7. *)
#[local] Instance first_char_store : Store := {|
  md5 := fun s => String.substring 0 1 s;
  jsonb_out := text_of_array;
  bulk_load := fun _ tsv_file => Done (row_of_line <$> tsv_file);
  malformed_update := fun _ _ _ _ => Raised (SyntaxError "syntax error")
|}.

(** A store whose error message names no line of the file. *)
#[local] Instance garbled_store : Store := {|
  md5 := fun s => s;
  jsonb_out := text_of_array;
  bulk_load := fun _ _ =>
    Raised (InvalidTextRepresentation "invalid input syntax for type json");
  malformed_update := fun _ _ _ _ => Raised (SyntaxError "syntax error")
|}.

(** An API with one page of images, and an image store that counts its
    items.  No run below compares two lists. *)
Definition page_of (total : Z) (results : list json) : RawPixelRun.response :=
  {| RawPixelRun.status_code := 200;
     RawPixelRun.response_json :=
       Done (JObj {[ "total" := JNum total; "results" := JArr results ]}) |}.

Definition one_page (results : list json)
    (url : string) (query_params : list (string * Z))
    : outcome (option RawPixelRun.response) :=
  match query_params with
  | [_; _; (_, page)] =>
      if decide (page = 1)
      then Done (Some (page_of (Z.of_nat (length results)) results))
      else Done None
  | _ => Done None
  end.

#[local] Instance world : RawPixelRun.World := {|
  RawPixelRun.requester_get := one_page [JObj payload_with_w_h];
  RawPixelRun.store := Z;
  RawPixelRun.add_item := fun s _ => Done (JNum (s + 1), s + 1);
  RawPixelRun.commit := fun s => Done s;
  RawPixelRun.str_lt := String.ltb;
  RawPixelRun.list_lt := fun _ _ => Raised TypeError
|}.

(** The same with a second image, whose URL has no width. *)
#[local] Instance world_without_w : RawPixelRun.World := {|
  RawPixelRun.requester_get :=
    one_page [JObj payload_with_w_h; JObj payload_without_w];
  RawPixelRun.store := Z;
  RawPixelRun.add_item := fun s _ => Done (JNum (s + 1), s + 1);
  RawPixelRun.commit := fun s => Done s;
  RawPixelRun.str_lt := String.ltb;
  RawPixelRun.list_lt := fun _ _ => Raised TypeError
|}.

(** An API that does not answer. *)
#[local] Instance world_down : RawPixelRun.World := {|
  RawPixelRun.requester_get := fun _ _ => Done None;
  RawPixelRun.store := Z;
  RawPixelRun.add_item := fun s _ => Done (JNum (s + 1), s + 1);
  RawPixelRun.commit := fun s => Done s;
  RawPixelRun.str_lt := String.ltb;
  RawPixelRun.list_lt := fun _ _ => Raised TypeError
|}.

End Examples.

(** Tactics for the examples: the members of a list written out, one by
    one. *)
Ltac collision_free_rows :=
  let Hr1 := fresh in let Hr2 := fresh in
  let Hf1 := fresh in let Hf2 := fresh in let Hmd5 := fresh in
  intros ? ? ? ? Hr1 Hr2 Hf1 Hf2 Hmd5;
  vm_compute in Hr1, Hr2;
  repeat (apply elem_of_cons in Hr1 as [->|Hr1]);
    try (by apply elem_of_nil in Hr1);
  repeat (apply elem_of_cons in Hr2 as [->|Hr2]);
    try (by apply elem_of_nil in Hr2);
  vm_compute in Hf1, Hf2; injection Hf1 as <-; injection Hf2 as <-;
  try reflexivity; vm_compute in Hmd5; discriminate.

Ltac quote_free_members H :=
  repeat (apply elem_of_cons in H as [->|H];
          [by apply (bool_decide_unpack _)|]);
  by apply elem_of_nil in H.

Ltac fits_columns_members :=
  let t := fresh in let Ht := fresh in
  intros t Ht; vm_compute in Ht;
  repeat (apply elem_of_cons in Ht as [->|Ht];
          [repeat split; by apply (bool_decide_unpack _)|]);
  by apply elem_of_nil in Ht.

Ltac quote_free_rows Hr Hf :=
  repeat (apply elem_of_cons in Hr as [->|Hr];
          [vm_compute in Hf; injection Hf as <-;
           by apply (bool_decide_unpack _)|]);
  by apply elem_of_nil in Hr.

(** * Properties *)


Import Sql.

(** ** JSON values *)

Section json_facts.

Lemma json_size_lookup (m : gmap string json) (k : string) (v : json) :
  m !! k = Some v → (json_size v < json_size (JObj m))%nat.
Proof.
  simpl. revert k v.
  induction m as [|i x m Hi Hfirst IH] using map_first_key_ind; intros k v.
  - by rewrite lookup_empty.
  - intros Hl. rewrite map_fold_insert_first_key by done.
    destruct (decide (i = k)) as [->|Hne].
    + rewrite lookup_insert_eq in Hl. injection Hl as ->. lia.
    + rewrite lookup_insert_ne in Hl by done. specialize (IH _ _ Hl). lia.
Qed.

Lemma json_size_elem (l : list json) (v : json) :
  v ∈ l → (json_size v < json_size (JArr l))%nat.
Proof.
  simpl. induction 1 as [v l|v w l _ IH]; simpl; lia.
Qed.

(** Induction over a JSON value and the values nested in it. *)
Lemma json_nested_ind (P : json → Prop) :
  P JNull →
  (∀ b, P (JBool b)) →
  (∀ n, P (JNum n)) →
  (∀ s, P (JStr s)) →
  (∀ l, Forall P l → P (JArr l)) →
  (∀ m, map_Forall (fun _ v => P v) m → P (JObj m)) →
  ∀ j, P j.
Proof.
  intros HNull HBool HNum HStr HArr HObj j.
  remember (json_size j) as n eqn:Hn. revert j Hn.
  induction (lt_wf n) as [n _ IH]. intros j ->.
  destruct j as [| | | |l|m]; auto.
  - apply HArr, Forall_forall. intros v Hv.
    eapply IH; [|reflexivity]. by apply json_size_elem.
  - apply HObj. intros k v Hk.
    eapply IH; [|reflexivity]. by eapply json_size_lookup.
Qed.

Lemma strip_nulls_fields_lookup (m : gmap string json) (k : string) :
  strip_nulls_fields m !! k
  = m !! k ≫= (fun v => if is_null v then None else Some (jsonb_strip_nulls v)).
Proof. unfold strip_nulls_fields. by rewrite lookup_omap. Qed.

Lemma jsonb_strip_nulls_obj (m : gmap string json) :
  jsonb_strip_nulls (JObj m) = JObj (strip_nulls_fields m).
Proof. reflexivity. Qed.

Lemma is_null_strip_nulls (j : json) :
  is_null (jsonb_strip_nulls j) = is_null j.
Proof. by destruct j. Qed.

Lemma jsonb_strip_nulls_idemp (j : json) :
  jsonb_strip_nulls (jsonb_strip_nulls j) = jsonb_strip_nulls j.
Proof.
  induction j as [| | | |l IH|m IH] using json_nested_ind; try done.
  - simpl. f_equal. rewrite <- list_fmap_compose.
    apply list_fmap_ext. intros i x Hx. simpl.
    eapply Forall_lookup_1 in IH; eauto.
  - rewrite !jsonb_strip_nulls_obj. f_equal. apply map_eq. intros k.
    rewrite !strip_nulls_fields_lookup.
    destruct (m !! k) as [v|] eqn:Hk; simpl; [|done].
    destruct (is_null v) eqn:Hv; simpl; [done|].
    rewrite is_null_strip_nulls, Hv. f_equal. by eapply IH.
Qed.

Lemma strip_nulls_fields_idemp (m : gmap string json) :
  strip_nulls_fields (strip_nulls_fields m) = strip_nulls_fields m.
Proof.
  pose proof (jsonb_strip_nulls_idemp (JObj m)) as H.
  rewrite !jsonb_strip_nulls_obj in H. congruence.
Qed.

(** After stripping, no field of the object is null. *)
Lemma strip_nulls_fields_not_null (m : gmap string json) (k : string) :
  strip_nulls_fields m !! k ≠ Some JNull.
Proof.
  rewrite strip_nulls_fields_lookup.
  destruct (m !! k) as [v|]; simpl; [|done].
  destruct (is_null v) eqn:Hv; [done|].
  intros [= Heq]. by rewrite <- is_null_strip_nulls, Heq in Hv.
Qed.

Lemma strip_nulls_fields_concat (a b : gmap string json) :
  strip_nulls_fields
    (jsonb_concat_objects (strip_nulls_fields a) (strip_nulls_fields b))
  = jsonb_concat_objects (strip_nulls_fields a) (strip_nulls_fields b).
Proof.
  unfold jsonb_concat_objects. apply map_eq. intros k.
  rewrite strip_nulls_fields_lookup, !lookup_union.
  pose proof (strip_nulls_fields_not_null a k) as Ha.
  pose proof (strip_nulls_fields_not_null b k) as Hb.
  pose proof (strip_nulls_fields_idemp a) as Ia.
  pose proof (strip_nulls_fields_idemp b) as Ib.
  apply (f_equal (fun m => m !! k)) in Ia, Ib.
  rewrite strip_nulls_fields_lookup in Ia, Ib.
  destruct (strip_nulls_fields b !! k) as [vb|] eqn:Eb;
    destruct (strip_nulls_fields a !! k) as [va|] eqn:Ea; simpl in *;
    try done.
  all: rewrite ?union_Some_l, ?(left_id_L None _), ?(right_id_L None _);
    simpl; try done.
Qed.

End json_facts.

(** ** The TSV file and the retry loop *)

Section loader_facts.
Context `{Store, PyBuiltins}.

Lemma delete_from_index (lines : list string) (i k : Z) :
  (filter (fun il : Z * string => il.1 + 1 ≠ k) (enumerate_from i lines)).*2
  = if decide (i < k ≤ i + Z.of_nat (length lines))
    then take (Z.to_nat (k - i - 1)) lines ++ drop (Z.to_nat (k - i)) lines
    else lines.
Proof.
  revert i. induction lines as [|line rest IH]; intros i.
  - simpl. case_decide; [lia|done].
  - cbn [enumerate_from]. rewrite filter_cons. cbn [fst].
    specialize (IH (i + 1)).
    destruct (decide (i + 1 ≠ k)) as [Hne|Heq].
    + rewrite fmap_cons, IH. cbn [snd length].
      repeat case_decide; try lia; [|done].
      replace (Z.to_nat (k - i - 1)) with (S (Z.to_nat (k - (i + 1) - 1))) by lia.
      replace (Z.to_nat (k - i)) with (S (Z.to_nat (k - (i + 1)))) by lia.
      done.
    + assert (k = i + 1) as -> by lia. rewrite IH. cbn [length].
      repeat case_decide; try lia.
      replace (i + 1 - i - 1) with 0 by lia.
      replace (i + 1 - i) with 1 by lia. done.
Qed.

Lemma delete_malformed_row_in_range (lines : list string) (k : Z) :
  1 ≤ k ≤ Z.of_nat (length lines) →
  _delete_malformed_row_in_file lines k
  = take (Z.to_nat (k - 1)) lines ++ drop (Z.to_nat k) lines.
Proof.
  intros Hk. unfold _delete_malformed_row_in_file.
  rewrite delete_from_index. case_decide; [|lia].
  by rewrite Z.sub_0_r.
Qed.

Lemma delete_malformed_row_out_of_range (lines : list string) (k : Z) :
  ¬ (1 ≤ k ≤ Z.of_nat (length lines)) →
  _delete_malformed_row_in_file lines k = lines.
Proof.
  intros Hk. unfold _delete_malformed_row_in_file.
  rewrite delete_from_index. case_decide; [lia|done].
Qed.

Lemma delete_malformed_row_length (lines : list string) (k : Z) :
  (length lines ≤ S (length (_delete_malformed_row_in_file lines k)))%nat
  ∧ (length (_delete_malformed_row_in_file lines k) ≤ length lines)%nat.
Proof.
  destruct (decide (1 ≤ k ≤ Z.of_nat (length lines))) as [Hk|Hk].
  - rewrite delete_malformed_row_in_range by done.
    rewrite length_app, length_take, length_drop. lia.
  - rewrite delete_malformed_row_out_of_range by done. lia.
Qed.

Lemma retry_loop_spec (fuel : nat) (name : string) (tsv : list string)
    (m : Z) (calls : nat) :
  (Z.to_nat (m + 1) ≤ fuel)%nat →
  ∃ tsv' calls' r,
    retry_loop fuel name tsv m calls = Some (tsv', calls', r)
    ∧ (calls ≤ calls' ≤ calls + Z.to_nat (m + 1))%nat
    ∧ (length tsv' ≤ length tsv)%nat
    ∧ (length tsv ≤ length tsv' + (calls' - calls))%nat
    ∧ (∀ rows, r = Done (Some rows) →
         (length tsv < length tsv' + (calls' - calls))%nat)
    ∧ (r = Done None → calls' = (calls + Z.to_nat (m + 1))%nat)
    ∧ (every_load_fails name → r = Done None).
Proof.
  revert tsv m calls. induction fuel as [|fuel IH]; intros tsv m calls Hfuel.
  - simpl. case_decide; [lia|].
    eexists _, _, _. split; [done|].
    repeat split; try lia; try done.
  - simpl. case_decide as Hm.
    2:{ eexists _, _, _. split; [done|].
        repeat split; try lia; try done. }
    destruct (bulk_load name tsv) as [rows|e] eqn:Hload.
    { eexists _, _, _. split; [done|].
      repeat split; try lia; try done.
      intros Hall. destruct (Hall tsv) as (e & k & He & _). congruence. }
    assert (∀ x, ∃ tsv' calls' r,
      Some (tsv, S calls, @Raised (option (list load_row)) x)
        = Some (tsv', calls', r)
      ∧ (calls ≤ calls' ≤ calls + Z.to_nat (m + 1))%nat
      ∧ (length tsv' ≤ length tsv)%nat
      ∧ (length tsv ≤ length tsv' + (calls' - calls))%nat
      ∧ (∀ rows, r = Done (Some rows) →
           (length tsv < length tsv' + (calls' - calls))%nat)
      ∧ (r = Done None → calls' = (calls + Z.to_nat (m + 1))%nat)
      ∧ (¬ (∃ msg k, e = InvalidTextRepresentation msg
                     ∧ _get_malformed_row_in_file msg = Done k) →
         every_load_fails name → r = Done None)) as Hraise.
    { intros x. eexists _, _, _. split; [done|].
      repeat split; try lia; try done.
      intros Hno Hall. destruct (Hall tsv) as (msg & k & He & Hk).
      rewrite Hload in He. injection He as ->. destruct Hno; eauto. }
    destruct e as [msg| | | | | | | | |];
      try (edestruct Hraise as (t & c & r & Heq & ? & ? & ? & ? & ? & Hno);
           exists t, c, r; repeat split; try done; try lia;
           apply Hno; by intros (? & ? & ? & ?)).
    destruct (_get_malformed_row_in_file msg) as [k|x] eqn:Hk.
    + destruct (IH (_delete_malformed_row_in_file tsv k) (m - 1) (S calls))
        as (t & c & r & Heq & Hc & Hlen & Hrem & Hok & Hcap & Hall); [lia|].
      pose proof (delete_malformed_row_length tsv k) as [Hd1 Hd2].
      exists t, c, r. split; [done|].
      replace (Z.to_nat (m - 1 + 1)) with (Z.to_nat (m + 1) - 1)%nat in * by lia.
      repeat split; try lia; try done.
      * intros rows Hr. specialize (Hok rows Hr). lia.
      * intros Hr. specialize (Hcap Hr). lia.
    + edestruct Hraise as (t & c & r & Heq & ? & ? & ? & ? & ? & Hno).
      exists t, c, r; repeat split; try done; try lia.
      apply Hno. intros (? & ? & [= <-] & ?). congruence.
Qed.

Lemma load_local_retry_once (db : database) (lines : list string) (k : Z)
    (identifier e : string) (rows : list load_row) (max_rows_to_skip : Z) :
  1 ≤ max_rows_to_skip →
  bulk_load (_get_load_table_name identifier) lines
    = Raised (InvalidTextRepresentation e) →
  _get_malformed_row_in_file e = Done k →
  bulk_load (_get_load_table_name identifier)
    (_delete_malformed_row_in_file lines k) = Done rows →
  load_local_data_to_intermediate_table db lines identifier max_rows_to_skip
  = Some {| tsv_after := _delete_malformed_row_in_file lines k;
            bulk_load_calls := 2;
            db_after :=
              {| load_table :=
                   _clean_intermediate_table_data (load_table db ++ rows);
                 image := image db |};
            load_error := None |}.
Proof.
  intros Hm He Hk Hrows. unfold load_local_data_to_intermediate_table.
  replace (Z.to_nat (max_rows_to_skip + 1))
    with (S (S (Z.to_nat (max_rows_to_skip - 1)))) by lia.
  cbn [retry_loop]. rewrite He, Hk.
  repeat case_decide; try lia. by rewrite Hrows.
Qed.

(** C7: for a file of n lines and 1 <= k <= n, _delete_malformed_row_in_file
    leaves exactly the lines before line k followed by the lines after it,
    one line fewer, the others unchanged and in order; hence when the bulk
    loader rejects line k of the file and accepts the file without it, the
    loader succeeds after one skip-and-retry cycle (two load attempts) on
    the file without line k. *)
Theorem delete_malformed_row_removes_exactly_line (lines : list string) (k : Z) :
  1 ≤ k ≤ Z.of_nat (length lines) →
  _delete_malformed_row_in_file lines k
    = take (Z.to_nat (k - 1)) lines ++ drop (Z.to_nat k) lines
  ∧ length (_delete_malformed_row_in_file lines k) = (length lines - 1)%nat
  ∧ ∀ db identifier e rows max_rows_to_skip,
      1 ≤ max_rows_to_skip →
      bulk_load (_get_load_table_name identifier) lines
        = Raised (InvalidTextRepresentation e) →
      _get_malformed_row_in_file e = Done k →
      bulk_load (_get_load_table_name identifier)
        (_delete_malformed_row_in_file lines k) = Done rows →
      load_local_data_to_intermediate_table db lines identifier
        max_rows_to_skip
      = Some {| tsv_after := _delete_malformed_row_in_file lines k;
                bulk_load_calls := 2;
                db_after :=
                  {| load_table :=
                       _clean_intermediate_table_data (load_table db ++ rows);
                     image := image db |};
                load_error := None |}.
Proof.
  intros Hk. split; [by apply delete_malformed_row_in_range|]. split.
  - rewrite delete_malformed_row_in_range by done.
    rewrite length_app, length_take, length_drop. lia.
  - intros. by eapply load_local_retry_once.
Qed.

End loader_facts.

(** The 100-line file whose line 57 the store rejects: one line goes,
    and the second load attempt takes the 99 others. *)
Lemma delete_malformed_row_line_57_of_100 :
  1 ≤ 57 ≤ Z.of_nat (length (Examples.numbered_lines 100))
  ∧ length (_delete_malformed_row_in_file (Examples.numbered_lines 100) 57)
    = 99%nat
  ∧ load_local_data_to_intermediate_table
      (H := Examples.store_57) (H0 := Examples.builtins)
      (Database [] []) (Examples.numbered_lines 100) "" 10
    = Some {| tsv_after :=
                _delete_malformed_row_in_file (Examples.numbered_lines 100) 57;
              bulk_load_calls := 2;
              db_after :=
                {| load_table :=
                     _clean_intermediate_table_data
                       (Examples.row_of_line <$>
                          _delete_malformed_row_in_file
                            (Examples.numbered_lines 100) 57);
                   image := [] |};
              load_error := None |}.
Proof.
  assert (1 ≤ 57 ≤ Z.of_nat (length (Examples.numbered_lines 100))) as Hk
    by (by vm_compute).
  split; [exact Hk|].
  destruct (delete_malformed_row_removes_exactly_line
              (H := Examples.store_57) (H0 := Examples.builtins)
              (Examples.numbered_lines 100) 57 Hk) as (_ & Hlen & Hload).
  split; [exact Hlen|].
  refine (Hload (Database [] []) ""
            "COPY provider_image_data, line 57, column meta_data"
            (Examples.row_of_line <$>
               _delete_malformed_row_in_file (Examples.numbered_lines 100) 57)
            10 _ _ _ _).
  - lia.
  - vm_compute. reflexivity.
  - vm_compute. reflexivity.
  - vm_compute. reflexivity.
Defined.

Section loader_bounds.
Context `{Store, PyBuiltins}.


End loader_bounds.



(** ** The staging cleaner *)

Section cleaner_facts.

Lemma same_provider_and_foreign_id_sym (p1 p2 : load_row) :
  same_provider_and_foreign_id p1 p2 → same_provider_and_foreign_id p2 p1.
Proof.
  unfold same_provider_and_foreign_id, sql_eq.
  destruct (provider p1), (provider p2), (foreign_id p1), (foreign_id p2);
    intuition congruence.
Qed.

Lemma same_provider_and_foreign_id_trans (p1 p2 p3 : load_row) :
  same_provider_and_foreign_id p1 p2 → same_provider_and_foreign_id p2 p3 →
  same_provider_and_foreign_id p1 p3.
Proof.
  unfold same_provider_and_foreign_id, sql_eq.
  destruct (provider p1), (provider p2), (provider p3),
    (foreign_id p1), (foreign_id p2), (foreign_id p3);
    intuition congruence.
Qed.

Lemma same_provider_and_foreign_id_refl (p : load_row) :
  is_Some (provider p) → is_Some (foreign_id p) →
  same_provider_and_foreign_id p p.
Proof.
  unfold same_provider_and_foreign_id, sql_eq. by intros [? ->] [? ->].
Qed.

Lemma clean_is_filter (t : list load_row) :
  _clean_intermediate_table_data t
  = delete_rows_with_later_duplicate (filter has_required_columns t).
Proof.
  unfold _clean_intermediate_table_data, delete_where_null. f_equal.
  rewrite !list_filter_filter. apply list_filter_iff.
  intros r. unfold has_required_columns. tauto.
Qed.

Lemma delete_rows_with_later_duplicate_sublist (t : list load_row) :
  sublist (delete_rows_with_later_duplicate t) t.
Proof.
  induction t as [|p1 later IH]; simpl; [done|].
  case_decide; by constructor.
Qed.

(** Of the rows that agree with [r] on provider and foreign identifier,
    the last DELETE leaves the last one and only it. *)
Lemma delete_rows_with_later_duplicate_group (t : list load_row) (r : load_row) :
  filter (same_provider_and_foreign_id r) (delete_rows_with_later_duplicate t)
  = option_list (last (filter (same_provider_and_foreign_id r) t)).
Proof.
  induction t as [|p1 later IH]; [done|].
  cbn [delete_rows_with_later_duplicate]. rewrite (filter_cons _ p1 later).
  destruct (decide (same_provider_and_foreign_id r p1)) as [Hr|Hr].
  - destruct (decide (Exists (same_provider_and_foreign_id p1) later))
      as [Hex|Hex].
    + rewrite IH. apply Exists_exists in Hex as (x & Hx & Hsame).
      assert (x ∈ filter (same_provider_and_foreign_id r) later) as Hin.
      { apply list_elem_of_filter. split; [|done].
        by eapply same_provider_and_foreign_id_trans. }
      destruct (filter (same_provider_and_foreign_id r) later); [|done].
      by apply not_elem_of_nil in Hin.
    + rewrite filter_cons, decide_True by done. rewrite IH.
      destruct (filter (same_provider_and_foreign_id r) later) as [|x f] eqn:Hf;
        [done|].
      destruct Hex. apply Exists_exists. exists x.
      assert (x ∈ filter (same_provider_and_foreign_id r) later) as Hin
        by (rewrite Hf; left).
      apply list_elem_of_filter in Hin as [Hrx Hx]. split; [done|].
      eapply same_provider_and_foreign_id_trans; [|done].
      by apply same_provider_and_foreign_id_sym.
  - case_decide; [done|]. by rewrite filter_cons, decide_False.
Qed.

(** C5, as the code has it: after _clean_intermediate_table_data no row
    has a null direct_url, license, landing_url or foreign_identifier, the
    remaining rows are rows of the table in their order, and of every
    group of usable rows that share a (non-null) provider and foreign
    identifier exactly one row remains, namely the physically last row
    of the group. *)
Theorem clean_keeps_last_row_of_group (t : list load_row) :
  Forall has_required_columns (_clean_intermediate_table_data t)
  ∧ sublist (_clean_intermediate_table_data t) t
  ∧ ∀ r, r ∈ t → has_required_columns r → is_Some (provider r) →
      ∃ kept,
        filter (same_provider_and_foreign_id r)
          (_clean_intermediate_table_data t) = [kept]
        ∧ last (filter (same_provider_and_foreign_id r)
                  (filter has_required_columns t)) = Some kept.
Proof.
  rewrite clean_is_filter.
  pose proof (delete_rows_with_later_duplicate_sublist
                (filter has_required_columns t)) as Hsub.
  split; [|split].
  - apply Forall_forall. intros r Hr.
    apply (sublist_subseteq _ _ Hsub) in Hr.
    by apply list_elem_of_filter in Hr as [? _].
  - etrans; [done|]. apply sublist_filter.
  - intros r Hr Hreq Hprov.
    rewrite delete_rows_with_later_duplicate_group.
    assert (r ∈ filter (same_provider_and_foreign_id r)
                  (filter has_required_columns t)) as Hin.
    { rewrite !list_elem_of_filter. split; [|done].
      apply same_provider_and_foreign_id_refl; [done|]. apply Hreq. }
    destruct (last _) as [kept|] eqn:Hlast; [by exists kept|].
    apply last_None in Hlast. rewrite Hlast in Hin.
    by apply not_elem_of_nil in Hin.
Qed.

End cleaner_facts.

(** The theorem on two rows for one image. *)
Lemma clean_keeps_last_row_of_two :
  Examples.titled_row "first"
    ∈ [Examples.titled_row "first"; Examples.titled_row "second"]
  ∧ has_required_columns (Examples.titled_row "first")
  ∧ is_Some (provider (Examples.titled_row "first"))
  ∧ ∃ kept,
      filter (same_provider_and_foreign_id (Examples.titled_row "first"))
        (_clean_intermediate_table_data
           [Examples.titled_row "first"; Examples.titled_row "second"])
      = [kept]
      ∧ last (filter (same_provider_and_foreign_id (Examples.titled_row "first"))
                (filter has_required_columns
                   [Examples.titled_row "first"; Examples.titled_row "second"]))
        = Some kept.
Proof.
  assert (Examples.titled_row "first"
            ∈ [Examples.titled_row "first"; Examples.titled_row "second"])
    as Hin by left.
  assert (has_required_columns (Examples.titled_row "first")) as Hreq
    by (repeat split; by eexists).
  assert (is_Some (provider (Examples.titled_row "first"))) as Hprov
    by (by eexists).
  repeat (split; [done|]).
  exact (proj2 (proj2 (clean_keeps_last_row_of_group _)) _ Hin Hreq Hprov).
Defined.

(** C5 as stated fails: of two rows with the same provider and foreign
    identifier the cleaner keeps the later one, not the earlier. *)
Lemma clean_drops_the_earlier_row :
  same_provider_and_foreign_id
    (Examples.titled_row "first") (Examples.titled_row "second")
  ∧ _clean_intermediate_table_data
      [Examples.titled_row "first"; Examples.titled_row "second"]
    = [Examples.titled_row "second"]
  ∧ Examples.titled_row "first"
      ∉ _clean_intermediate_table_data
          [Examples.titled_row "first"; Examples.titled_row "second"].
Proof.
  split; [done|]. split; [by vm_compute|].
  intros Hin. vm_compute in Hin.
  apply list_elem_of_singleton in Hin. discriminate.
Qed.

(** ** The merge of one incoming row into the row in conflict *)

Section merge_facts.
Context `{Store}.

Lemma incoming_else_existing_COALESCE {A} (incoming existing : option A) :
  incoming_else_existing incoming existing (COALESCE incoming existing).
Proof. destruct incoming; by split. Qed.

Lemma insert_on_conflict_found (NOW : timestamp) (excluded : load_row)
    (image : list image_row) (i : nat) (old : image_row) :
  list_find (fun o => conflicts o excluded) image = Some (i, old) →
  insert_on_conflict NOW excluded image
  = <[i := do_update_set NOW old excluded]> image.
Proof.
  revert i. induction image as [|o rest IH]; intros i; [done|].
  cbn [insert_on_conflict list_find]. case_decide as Hc.
  - by intros [= <- <-].
  - destruct (list_find _ rest) as [[j o']|] eqn:Hfind; [|done].
    intros [= <- <-]. simpl. f_equal. by apply IH.
Qed.

Lemma insert_on_conflict_not_found (NOW : timestamp) (excluded : load_row)
    (image : list image_row) :
  list_find (fun o => conflicts o excluded) image = None →
  insert_on_conflict NOW excluded image = image ++ [insert_values NOW excluded].
Proof.
  induction image as [|o rest IH]; [done|].
  cbn [insert_on_conflict list_find]. case_decide as Hc; [done|].
  destruct (list_find _ rest) as [[j o']|] eqn:Hfind; [done|].
  intros _. simpl. f_equal. by apply IH.
Qed.

(** C2: when the incoming row [excluded] meets the catalog row [old] in
    conflict with it (same provider and foreign identifier), the upsert
    replaces [old] in place by a row in which every scalar column holds
    the incoming value when that is not null and the existing value
    otherwise. *)
Theorem upsert_scalar_fields_newest_non_null (NOW : timestamp)
    (excluded : load_row) (image : list image_row) (i : nat)
    (old : image_row) :
  list_find (fun o => conflicts o excluded) image = Some (i, old) →
  ∃ merged,
    insert_on_conflict NOW excluded image = <[i := merged]> image
    ∧ insert_on_conflict NOW excluded image !! i = Some merged
    ∧ incoming_else_existing (landing_url excluded) (landing_url (cols old))
        (landing_url (cols merged))
    ∧ incoming_else_existing (direct_url excluded) (direct_url (cols old))
        (direct_url (cols merged))
    ∧ incoming_else_existing (thumbnail excluded) (thumbnail (cols old))
        (thumbnail (cols merged))
    ∧ incoming_else_existing (width excluded) (width (cols old))
        (width (cols merged))
    ∧ incoming_else_existing (height excluded) (height (cols old))
        (height (cols merged))
    ∧ incoming_else_existing (filesize excluded) (filesize (cols old))
        (filesize (cols merged))
    ∧ incoming_else_existing (license excluded) (license (cols old))
        (license (cols merged))
    ∧ incoming_else_existing (license_version excluded)
        (license_version (cols old)) (license_version (cols merged))
    ∧ incoming_else_existing (creator excluded) (creator (cols old))
        (creator (cols merged))
    ∧ incoming_else_existing (creator_url excluded) (creator_url (cols old))
        (creator_url (cols merged))
    ∧ incoming_else_existing (title excluded) (title (cols old))
        (title (cols merged))
    ∧ incoming_else_existing (watermarked excluded) (watermarked (cols old))
        (watermarked (cols merged))
    ∧ incoming_else_existing (source excluded) (source (cols old))
        (source (cols merged))
    ∧ incoming_else_existing (ingestion_type excluded)
        (ingestion_type (cols old)) (ingestion_type (cols merged)).
Proof.
  intros Hfind. exists (do_update_set NOW old excluded).
  rewrite (insert_on_conflict_found _ _ _ _ _ Hfind).
  split; [done|]. split.
  - apply list_lookup_insert_eq.
    apply list_find_Some in Hfind as (Hi & _). by eapply lookup_lt_Some.
  - cbn [do_update_set cols landing_url direct_url thumbnail width height
         filesize license license_version creator creator_url title
         watermarked source ingestion_type].
    unfold _newest_non_null.
    repeat split; apply incoming_else_existing_COALESCE.
Qed.

End merge_facts.

Section merge_column_facts.

(** What the merged metadata holds under a key when both sides are
    objects: the incoming value unless it is missing or null, then the
    existing value unless it is missing or null, each with its own null
    fields stripped. *)
Lemma merge_jsonb_objects_lookup (old excluded : load_row)
    (mo mi : gmap string json) (k : string) :
  meta_data old = Some mo → meta_data excluded = Some mi →
  ∃ merged,
    _merge_jsonb_objects meta_data old excluded = Some merged
    ∧ merged = jsonb_concat_objects (strip_nulls_fields mo) (strip_nulls_fields mi)
    ∧ merged !! k
      = match strip_nulls_fields mi !! k with
        | Some v => Some v
        | None => strip_nulls_fields mo !! k
        end.
Proof.
  intros Ho Hi. unfold _merge_jsonb_objects. rewrite Ho, Hi. simpl.
  eexists. split; [done|]. split; [done|].
  unfold jsonb_concat_objects. rewrite lookup_union.
  by destruct (strip_nulls_fields mi !! k), (strip_nulls_fields mo !! k).
Qed.

(** C3, as the code has it: when one side has no metadata (SQL NULL) the
    merged metadata is the other side's, unchanged; when both have, the
    merged metadata holds under each top-level key the incoming value if
    that is present and not null, else the existing value if that is
    present and not null, else nothing, and each value it holds has had
    its own null-valued fields removed; no top-level key is null. *)
Theorem merge_jsonb_objects_fields (old excluded : load_row) :
  (meta_data old = None →
     _merge_jsonb_objects meta_data old excluded = meta_data excluded)
  ∧ (meta_data excluded = None →
       _merge_jsonb_objects meta_data old excluded = meta_data old)
  ∧ ∀ mo mi, meta_data old = Some mo → meta_data excluded = Some mi →
      ∃ merged,
        _merge_jsonb_objects meta_data old excluded = Some merged
        ∧ (∀ k v, mi !! k = Some v → v ≠ JNull →
             merged !! k = Some (jsonb_strip_nulls v))
        ∧ (∀ k v, mo !! k = Some v → v ≠ JNull →
             mi !! k = None ∨ mi !! k = Some JNull →
             merged !! k = Some (jsonb_strip_nulls v))
        ∧ (∀ k, mo !! k = None ∨ mo !! k = Some JNull →
             mi !! k = None ∨ mi !! k = Some JNull →
             merged !! k = None)
        ∧ (∀ k, merged !! k ≠ Some JNull).
Proof.
  split; [|split].
  - intros Ho. unfold _merge_jsonb_objects. rewrite Ho. simpl.
    by destruct (meta_data excluded).
  - intros Hi. unfold _merge_jsonb_objects. rewrite Hi.
    by destruct (meta_data old).
  - intros mo mi Ho Hi.
    destruct (merge_jsonb_objects_lookup old excluded mo mi "" Ho Hi)
      as (merged & Hm & Hdef & _).
    exists merged. split; [done|].
    assert (∀ k, merged !! k
                 = match strip_nulls_fields mi !! k with
                   | Some v => Some v
                   | None => strip_nulls_fields mo !! k
                   end) as Hk.
    { intros k.
      destruct (merge_jsonb_objects_lookup old excluded mo mi k Ho Hi)
        as (merged' & Hm' & _ & Hk). congruence. }
    repeat split.
    + intros k v Hv Hnn. rewrite Hk, strip_nulls_fields_lookup, Hv. simpl.
      by destruct v.
    + intros k v Hv Hnn Hmi.
      rewrite Hk, !strip_nulls_fields_lookup, Hv.
      destruct Hmi as [-> | ->]; simpl; by destruct v.
    + intros k Hmo Hmi. rewrite Hk, !strip_nulls_fields_lookup.
      by destruct Hmo as [-> | ->], Hmi as [-> | ->].
    + intros k. rewrite Hk.
      pose proof (strip_nulls_fields_not_null mi k).
      pose proof (strip_nulls_fields_not_null mo k).
      by destruct (strip_nulls_fields mi !! k).
Qed.

Lemma elem_of_jsonb_agg_distinct_elements (a : list json) (x : json) :
  x ∈ elements (jsonb_agg_distinct_elements a) ↔ x ∈ a.
Proof.
  unfold jsonb_agg_distinct_elements.
  rewrite <- (elem_of_remove_dups a x).
  by destruct (remove_dups a).
Qed.

Lemma NoDup_jsonb_agg_distinct_elements (a : list json) :
  NoDup (elements (jsonb_agg_distinct_elements a)).
Proof.
  unfold jsonb_agg_distinct_elements.
  pose proof (NoDup_remove_dups a).
  destruct (remove_dups a); [constructor|done].
Qed.

Lemma merge_jsonb_arrays_elements (old excluded : load_row) (x : json) :
  x ∈ elements (_merge_jsonb_arrays tags old excluded)
  ↔ x ∈ elements (tags old) ∨ x ∈ elements (tags excluded).
Proof.
  unfold _merge_jsonb_arrays, COALESCE3.
  destruct (tags old) as [a|], (tags excluded) as [b|]; simpl.
  - unfold jsonb_agg_distinct_elements, jsonb_concat_arrays.
    destruct (remove_dups (a ++ b)) as [|y l] eqn:Hd; simpl.
    + assert (a ++ b = []) as [-> ->]%app_eq_nil.
      { destruct (a ++ b) as [|z ab] eqn:Hab; [done|].
        assert (z ∈ remove_dups (z :: ab)) as Hin
          by (apply elem_of_remove_dups; left).
        rewrite Hd in Hin. by apply not_elem_of_nil in Hin. }
      rewrite elem_of_nil. tauto.
    + rewrite <- Hd, elem_of_remove_dups. apply elem_of_app.
  - rewrite elem_of_nil. tauto.
  - rewrite elem_of_nil. tauto.
  - rewrite elem_of_nil. tauto.
Qed.

Lemma remove_dups_length_equiv (l1 l2 : list json) :
  (∀ x, x ∈ l1 ↔ x ∈ l2) →
  length (remove_dups l1) = length (remove_dups l2).
Proof.
  intros Heq. apply Permutation_length, NoDup_Permutation.
  - apply NoDup_remove_dups.
  - apply NoDup_remove_dups.
  - intros x. by rewrite !elem_of_remove_dups.
Qed.

(** C4, as the code has it: the merged tags, as a set of elements, are
    the union of the existing and the incoming tags (NULL having no
    element): an element is among them exactly when it is among either,
    and the number of distinct elements is that of the union.  Duplicates
    are collapsed only when both sides have tags: then no element occurs
    twice.  When a side is NULL the merged tags are the other side as it
    is, repeated elements included. *)
Theorem merge_jsonb_arrays_union (old excluded : load_row) :
  (∀ x, x ∈ elements (_merge_jsonb_arrays tags old excluded)
        ↔ x ∈ elements (tags old) ∨ x ∈ elements (tags excluded))
  ∧ length (remove_dups (elements (_merge_jsonb_arrays tags old excluded)))
    = length (remove_dups (elements (tags old) ++ elements (tags excluded)))
  ∧ (is_Some (tags old) → is_Some (tags excluded) →
     NoDup (elements (_merge_jsonb_arrays tags old excluded)))
  ∧ (tags old = None →
     _merge_jsonb_arrays tags old excluded = tags excluded)
  ∧ (tags excluded = None →
     _merge_jsonb_arrays tags old excluded = tags old).
Proof.
  split; [apply merge_jsonb_arrays_elements|]. split; [|split; [|split]].
  - apply remove_dups_length_equiv. intros x.
    by rewrite merge_jsonb_arrays_elements, elem_of_app.
  - intros [a Ha] [b Hb]. unfold _merge_jsonb_arrays, COALESCE3.
    rewrite Ha, Hb. simpl.
    pose proof (NoDup_jsonb_agg_distinct_elements (jsonb_concat_arrays a b))
      as Hnd.
    destruct (jsonb_agg_distinct_elements (jsonb_concat_arrays a b)) as [l|]
      eqn:Hagg; [done|].
    unfold jsonb_agg_distinct_elements, jsonb_concat_arrays in Hagg.
    destruct (remove_dups (a ++ b)) as [|y l] eqn:Hd; [|done].
    assert (a ++ b = []) as [-> ->]%app_eq_nil; [|constructor].
    destruct (a ++ b) as [|z ab] eqn:Hab; [done|].
    assert (z ∈ remove_dups (z :: ab)) as Hin
      by (apply elem_of_remove_dups; left).
    rewrite Hd in Hin. by apply not_elem_of_nil in Hin.
  - intros Ho. unfold _merge_jsonb_arrays, COALESCE3. rewrite Ho. simpl.
    by destruct (tags excluded).
  - intros He. unfold _merge_jsonb_arrays, COALESCE3. rewrite He. simpl.
    by destruct (tags old).
Qed.

End merge_column_facts.

(** Tags cat and dog merged with tags dog and bird: no element occurs
    twice; and merged with no tags at all: cat and dog as they are. *)
Lemma merge_jsonb_arrays_cat_dog_bird :
  let old := Examples.image_data "42" None None
               (Some [JStr "cat"; JStr "dog"]) in
  let excluded := Examples.image_data "42" None None
                    (Some [JStr "dog"; JStr "bird"]) in
  let none := Examples.image_data "42" None None None in
  NoDup (elements (_merge_jsonb_arrays tags old excluded))
  ∧ _merge_jsonb_arrays tags old none = tags old.
Proof.
  intros old excluded none.
  destruct (merge_jsonb_arrays_union old excluded) as (_ & _ & Hnd & _).
  destruct (merge_jsonb_arrays_union old none) as (_ & _ & _ & _ & Hnone).
  split.
  - apply Hnd; by eexists.
  - apply Hnone. reflexivity.
Defined.

(** C4 as stated fails: an incoming row whose tags hold cat twice, merged
    into a catalog row without tags, leaves the tags with cat twice,
    two elements where the union has one. *)
Lemma merge_jsonb_arrays_keeps_duplicates :
  let old := Examples.image_data "42" None None None in
  let excluded := Examples.image_data "42" None None
                    (Some [JStr "cat"; JStr "cat"]) in
  tags (cols (do_update_set 7 (insert_values 1 old) excluded))
  = Some [JStr "cat"; JStr "cat"]
  ∧ _merge_jsonb_arrays tags old excluded = Some [JStr "cat"; JStr "cat"]
  ∧ ¬ NoDup (elements (_merge_jsonb_arrays tags old excluded))
  ∧ length (elements (_merge_jsonb_arrays tags old excluded)) = 2%nat
  ∧ length (remove_dups (elements (tags old) ++ elements (tags excluded)))
    = 1%nat.
Proof.
  intros old excluded. split; [vm_compute; reflexivity|].
  split; [vm_compute; reflexivity|]. split; [|split; vm_compute; reflexivity].
  assert (_merge_jsonb_arrays tags old excluded
          = Some [JStr "cat"; JStr "cat"]) as -> by (vm_compute; reflexivity).
  cbn. intros Hnd. apply NoDup_cons in Hnd as [Hnotin _]. apply Hnotin. left.
Qed.

(** The catalog row for image 42 of width 800 by artist A, merged with an
    incoming row without a width and with a licence note: the width
    stays. *)
Lemma upsert_keeps_width_800 :
  let old := insert_values 1
               (Examples.image_data "42" (Some 800)
                  (Some {[ "artist" := JStr "A" ]}) None) in
  let excluded := Examples.image_data "42" None
                    (Some {[ "license_notes" := JStr "cc0" ]}) None in
  list_find (fun o => conflicts (H := Examples.store) o excluded)
    [old] = Some (0%nat, old)
  ∧ ∃ merged,
      insert_on_conflict (H := Examples.store) 2 excluded [old]
        = [merged]
      ∧ width (cols merged) = Some 800.
Proof.
  intros old excluded.
  assert (list_find (fun o => conflicts (H := Examples.store)
                                o excluded) [old] = Some (0%nat, old))
    as Hfind by (by vm_compute).
  split; [exact Hfind|].
  destruct (upsert_scalar_fields_newest_non_null
              (H := Examples.store) 2 excluded [old] 0 old Hfind)
    as (merged & Heq & _ & _ & _ & _ & Hwidth & _).
  exists merged. split; [exact Heq|].
  exact (proj2 Hwidth eq_refl).
Defined.

(** The metadata of the same two rows: both keys are in the result. *)
Lemma merge_jsonb_objects_artist_and_license_notes :
  let old := Examples.image_data "42" (Some 800)
               (Some {[ "artist" := JStr "A" ]}) None in
  let excluded := Examples.image_data "42" None
                    (Some {[ "license_notes" := JStr "cc0" ]}) None in
  ∃ merged,
    _merge_jsonb_objects meta_data old excluded = Some merged
    ∧ merged !! "artist" = Some (JStr "A")
    ∧ merged !! "license_notes" = Some (JStr "cc0").
Proof.
  intros old excluded.
  destruct (merge_jsonb_objects_fields old excluded) as (_ & _ & Hboth).
  destruct (Hboth {[ "artist" := JStr "A" ]}
              {[ "license_notes" := JStr "cc0" ]} eq_refl eq_refl)
    as (merged & Hm & Hin & Hold & _).
  exists merged. split; [exact Hm|]. split.
  - apply (Hold "artist" (JStr "A")); [by vm_compute|done|by left].
  - apply (Hin "license_notes" (JStr "cc0")); [by vm_compute|done].
Defined.

(** C3 as stated fails.  A key present only in the existing metadata
    does not always keep its existing value: a null field nested in it is
    removed.  A key the incoming metadata holds with the value null does
    not take the incoming value, nor does it disappear: the existing
    value stays.  And with no existing metadata, a null-valued incoming
    key is in the merged metadata. *)
Lemma merge_jsonb_objects_not_as_stated :
  (let old := Examples.image_data "42" None
                (Some {[ "artist" := JObj {[ "born" := JNull ]} ]}) None in
   let excluded := Examples.image_data "42" None
                     (Some {[ "license_notes" := JStr "cc0" ]}) None in
   _merge_jsonb_objects meta_data old excluded
   = Some {[ "artist" := JObj ∅; "license_notes" := JStr "cc0" ]}
   ∧ JObj ∅ ≠ JObj {[ "born" := JNull ]})
  ∧ (let old := Examples.image_data "42" None
                  (Some {[ "artist" := JStr "A" ]}) None in
     let excluded := Examples.image_data "42" None
                       (Some {[ "artist" := JNull ]}) None in
     _merge_jsonb_objects meta_data old excluded
     = Some {[ "artist" := JStr "A" ]})
  ∧ (let old := Examples.image_data "42" None None None in
     let excluded := Examples.image_data "42" None
                       (Some {[ "artist" := JNull ]}) None in
     _merge_jsonb_objects meta_data old excluded
     = Some {[ "artist" := JNull ]}).
Proof.
  split; [split|split].
  - vm_compute. reflexivity.
  - intros Heq. apply (f_equal (fun j => arrow j "born")) in Heq.
    vm_compute in Heq. discriminate.
  - vm_compute. reflexivity.
  - vm_compute. reflexivity.
Qed.

(** ** Running the upsert twice *)

Section upsert_twice.
Context `{Store}.

Lemma same_but_timestamps_refl (r : image_row) : same_but_timestamps r r.
Proof. by repeat split. Qed.

Lemma same_but_timestamps_sym (r1 r2 : image_row) :
  same_but_timestamps r1 r2 → same_but_timestamps r2 r1.
Proof.
  intros (? & ? & ? & ? & Ht). repeat split; try done; try by apply Ht.
Qed.

Lemma same_but_timestamps_trans (r1 r2 r3 : image_row) :
  same_but_timestamps r1 r2 → same_but_timestamps r2 r3 →
  same_but_timestamps r1 r3.
Proof.
  intros (? & ? & ? & ? & Ht) (? & ? & ? & ? & Ht').
  repeat split; try congruence.
  - intros Hx. by apply Ht', Ht.
  - intros Hx. by apply Ht, Ht'.
Qed.

Lemma arbiter_key_do_update_set (NOW : timestamp) (old : image_row)
    (excluded : load_row) :
  arbiter_key (cols (do_update_set NOW old excluded))
  = arbiter_key (cols old).
Proof. reflexivity. Qed.

Lemma COALESCE_idemp {A} (a b : option A) :
  COALESCE a (COALESCE a b) = COALESCE a b.
Proof. by destruct a. Qed.

Lemma COALESCE_same {A} (a : option A) : COALESCE a a = a.
Proof. by destruct a. Qed.

(** Merging the same metadata a second time changes nothing once null
    fields are left out. *)
Lemma merge_jsonb_objects_twice (mo mi : option (gmap string json)) :
  let m1 := COALESCE3
              (a ← mo; b ← mi;
               Some (jsonb_concat_objects (strip_nulls_fields a)
                                          (strip_nulls_fields b))) mi mo in
  strip_nulls_fields <$>
    COALESCE3
      (a ← m1; b ← mi;
       Some (jsonb_concat_objects (strip_nulls_fields a)
                                  (strip_nulls_fields b))) mi m1
  = strip_nulls_fields <$> m1.
Proof.
  destruct mo as [mo|], mi as [mi|]; simpl; try done.
  - rewrite !strip_nulls_fields_concat. f_equal.
    unfold jsonb_concat_objects. apply map_eq. intros k.
    rewrite !lookup_union.
    by destruct (strip_nulls_fields mi !! k), (strip_nulls_fields mo !! k).
  - f_equal. rewrite <- (strip_nulls_fields_idemp mi) at 3.
    rewrite strip_nulls_fields_concat. unfold jsonb_concat_objects.
    by rewrite map_union_idemp, strip_nulls_fields_idemp.
Qed.

Lemma merge_jsonb_objects_insert_then_merge (mi : option (gmap string json)) :
  strip_nulls_fields <$>
    COALESCE3
      (a ← mi; b ← mi;
       Some (jsonb_concat_objects (strip_nulls_fields a)
                                  (strip_nulls_fields b))) mi mi
  = strip_nulls_fields <$> mi.
Proof.
  destruct mi as [mi|]; simpl; [|done].
  f_equal. rewrite <- (strip_nulls_fields_idemp mi) at 3.
  rewrite strip_nulls_fields_concat. unfold jsonb_concat_objects.
  by rewrite map_union_idemp, strip_nulls_fields_idemp.
Qed.

Lemma absorbs_insert_values (NOW : timestamp) (excluded : load_row) :
  absorbs (insert_values NOW excluded) excluded.
Proof.
  intros NOW'. unfold same_but_timestamps. split; [done|]. split; [done|].
  split; [|split].
  - unfold scalars. cbn. unfold _newest_non_null.
    by rewrite !COALESCE_same.
  - symmetry. apply merge_jsonb_objects_insert_then_merge.
  - intros x. cbn [do_update_set cols tags insert_values].
    rewrite merge_jsonb_arrays_elements. tauto.
Qed.

Lemma absorbs_do_update_set (NOW : timestamp) (old : image_row)
    (excluded : load_row) :
  absorbs (do_update_set NOW old excluded) excluded.
Proof.
  intros NOW'. unfold same_but_timestamps. split; [done|]. split; [done|].
  split; [|split].
  - unfold scalars, do_update_set, _newest_non_null. simpl.
    by rewrite !COALESCE_idemp.
  - symmetry. apply merge_jsonb_objects_twice.
  - intros x. cbn [do_update_set cols tags].
    rewrite (merge_jsonb_arrays_elements
               (cols (do_update_set NOW old excluded)) excluded x).
    cbn [do_update_set cols tags].
    rewrite merge_jsonb_arrays_elements. tauto.
Qed.

Lemma conflicts_key (o : image_row) (excluded : load_row) (k : string * string) :
  arbiter_key excluded = Some k →
  conflicts o excluded ↔ arbiter_key (cols o) = Some k.
Proof.
  intros Hk. unfold conflicts, sql_eq. rewrite Hk.
  destruct (arbiter_key (cols o)); [|done]. split; congruence.
Qed.

Lemma conflicts_no_key (o : image_row) (excluded : load_row) :
  arbiter_key excluded = None → ¬ conflicts o excluded.
Proof.
  intros Hk. unfold conflicts, sql_eq. rewrite Hk.
  destruct (arbiter_key (cols o)); tauto.
Qed.

Lemma find_key_cons (k : string * string) (o : image_row)
    (rest : list image_row) :
  find_key k (o :: rest)
  = if decide (arbiter_key (cols o) = Some k) then Some (0%nat, o)
    else prod_map S id <$> find_key k rest.
Proof. reflexivity. Qed.

(** The row an incoming row lands on, or in, absorbs it. *)
Lemma find_key_insert_on_conflict (NOW : timestamp) (excluded : load_row)
    (image : list image_row) (k : string * string) :
  arbiter_key excluded = Some k →
  ∃ i o, find_key k (insert_on_conflict NOW excluded image) = Some (i, o)
         ∧ absorbs o excluded.
Proof.
  intros Hk. induction image as [|old rest IH].
  - exists 0%nat, (insert_values NOW excluded). split.
    + cbn [insert_on_conflict]. rewrite find_key_cons.
      by rewrite decide_True.
    + apply absorbs_insert_values.
  - cbn [insert_on_conflict]. case_decide as Hc.
    + exists 0%nat, (do_update_set NOW old excluded). split.
      * rewrite find_key_cons, arbiter_key_do_update_set.
        rewrite decide_True; [done|].
        by apply (proj1 (conflicts_key old excluded k Hk)).
      * apply absorbs_do_update_set.
    + destruct IH as (i & o & Hfind & Habs).
      exists (S i), o. split; [|done].
      rewrite find_key_cons, decide_False, Hfind; [done|].
      intros Hko. by apply Hc, (conflicts_key old excluded k Hk).
Qed.

(** Rows under another key are where they were and as they were. *)
Lemma find_key_insert_on_conflict_other (NOW : timestamp)
    (excluded : load_row) (image : list image_row) (k : string * string) :
  arbiter_key excluded ≠ Some k →
  find_key k (insert_on_conflict NOW excluded image) = find_key k image.
Proof.
  intros Hk. induction image as [|old rest IH].
  - cbn [insert_on_conflict]. rewrite find_key_cons.
    by rewrite decide_False.
  - cbn [insert_on_conflict]. case_decide as Hc.
    + rewrite !find_key_cons, arbiter_key_do_update_set.
      assert (arbiter_key (cols old) ≠ Some k) as Hold.
      { intros Hko. unfold conflicts, sql_eq in Hc. rewrite Hko in Hc.
        destruct (arbiter_key excluded); [|done]. congruence. }
      by rewrite !decide_False.
    + rewrite !find_key_cons, IH. done.
Qed.

Lemma insert_on_conflict_at_key (NOW : timestamp) (excluded : load_row)
    (image : list image_row) (k : string * string) (i : nat)
    (old : image_row) :
  arbiter_key excluded = Some k →
  find_key k image = Some (i, old) →
  insert_on_conflict NOW excluded image
  = <[i := do_update_set NOW old excluded]> image.
Proof.
  intros Hk Hfind. apply insert_on_conflict_found.
  rewrite <- Hfind. unfold find_key. apply list_find_ext.
  intros o. by apply conflicts_key.
Qed.

Lemma insert_on_conflict_no_key (NOW : timestamp) (excluded : load_row)
    (image : list image_row) :
  arbiter_key excluded = None →
  insert_on_conflict NOW excluded image
  = image ++ [insert_values NOW excluded].
Proof.
  intros Hk. apply insert_on_conflict_not_found.
  apply list_find_None, Forall_forall. intros o _.
  by apply conflicts_no_key.
Qed.

(** A statement that succeeds met no index value twice. *)
Lemma upsert_rows_Done_keys (NOW : timestamp) (affected : list (string * string))
    (image : list image_row) (load : list load_row)
    (image1 : list image_row) :
  upsert_rows NOW affected image load = Done image1 →
  NoDup (omap arbiter_key load)
  ∧ ∀ k, k ∈ omap arbiter_key load → k ∉ affected.
Proof.
  revert affected image. induction load as [|r load IH]; intros affected image.
  - intros _. split; [constructor|]. intros k Hk. by apply elem_of_nil in Hk.
  - cbn [upsert_rows omap list_omap].
    destruct (arbiter_key r) as [k|] eqn:Hk.
    + case_decide as Haff; [done|]. intros Hrun.
      destruct (IH _ _ Hrun) as [Hnd Hnot]. split.
      * constructor; [|done]. intros Hin. apply (Hnot k Hin). left.
      * intros k' [->|Hin]%elem_of_cons; [done|].
        intros Hk'. apply (Hnot k' Hin). by right.
    + intros Hrun. by apply (IH _ _ Hrun).
Qed.

(** The statement leaves alone the rows under a key no incoming row has. *)
Lemma upsert_rows_find_key_other (NOW : timestamp)
    (affected : list (string * string)) (image : list image_row)
    (load : list load_row) (image1 : list image_row) (k : string * string) :
  upsert_rows NOW affected image load = Done image1 →
  k ∉ omap arbiter_key load →
  find_key k image1 = find_key k image.
Proof.
  revert affected image. induction load as [|r load IH]; intros affected image.
  - by intros [= <-] _.
  - cbn [upsert_rows omap list_omap]. intros Hrun Hk.
    assert (arbiter_key r ≠ Some k ∧ k ∉ omap arbiter_key load) as [Hr Hload].
    { destruct (arbiter_key r) as [k'|]; [|done].
      apply not_elem_of_cons in Hk as [? ?]. split; congruence. }
    rewrite <- (find_key_insert_on_conflict_other NOW r image k Hr).
    destruct (arbiter_key r) as [k'|].
    + case_decide; [done|]. by eapply IH.
    + by eapply IH.
Qed.

(** After the statement every incoming row with an index value has a
    row under it that absorbs it. *)
Lemma upsert_rows_absorbed (NOW : timestamp) (affected : list (string * string))
    (image : list image_row) (load : list load_row)
    (image1 : list image_row) :
  upsert_rows NOW affected image load = Done image1 →
  ∀ r k, r ∈ load → arbiter_key r = Some k →
    ∃ i o, find_key k image1 = Some (i, o) ∧ absorbs o r.
Proof.
  revert affected image. induction load as [|r0 load IH]; intros affected image.
  - intros _ r k Hr. by apply elem_of_nil in Hr.
  - cbn [upsert_rows]. intros Hrun r k [->|Hr]%elem_of_cons Hk.
    + rewrite Hk in Hrun. case_decide as Haff; [done|].
      destruct (find_key_insert_on_conflict NOW r0 image k Hk)
        as (i & o & Hfind & Habs).
      exists i, o. split; [|done]. rewrite <- Hfind.
      eapply upsert_rows_find_key_other; [done|].
      intros Hin. destruct (upsert_rows_Done_keys _ _ _ _ _ Hrun) as [_ Hnot].
      apply (Hnot k Hin). left.
    + destruct (arbiter_key r0) as [k0|].
      * case_decide; [done|]. by eapply IH.
      * by eapply IH.
Qed.

(** Running the statement on a table whose rows have absorbed the
    incoming rows. *)
Lemma upsert_rows_absorbing (NOW : timestamp) (load : list load_row) :
  ∀ (affected : list (string * string)) (image : list image_row),
  NoDup (omap arbiter_key load) →
  (∀ k, k ∈ omap arbiter_key load → k ∉ affected) →
  (∀ r k, r ∈ load → arbiter_key r = Some k →
     ∃ i o, find_key k image = Some (i, o) ∧ absorbs o r) →
  ∃ kept news,
    upsert_rows NOW affected image load = Done (kept ++ news)
    ∧ Forall2 same_but_timestamps image kept
    ∧ Forall2 (fun r n => same_but_timestamps (insert_values NOW r) n)
        (filter (fun r => arbiter_key r = None) load) news.
Proof.
  induction load as [|r0 load IH]; intros affected image Hnd Haff Habs.
  - exists image, []. split; [by rewrite app_nil_r|]. split; [|constructor].
    apply Forall2_same_length_lookup. split; [done|].
    intros i x y Hx Hy. assert (x = y) as -> by congruence.
    apply same_but_timestamps_refl.
  - cbn [upsert_rows]. cbn [omap list_omap] in Hnd, Haff.
    destruct (arbiter_key r0) as [k|] eqn:Hk.
    + apply NoDup_cons in Hnd as [Hk_load Hnd].
      rewrite decide_False by (apply Haff; left).
      destruct (Habs r0 k) as (i & o & Hfind & Ho); [left|done|].
      rewrite (insert_on_conflict_at_key NOW r0 image k i o Hk Hfind).
      destruct (IH (k :: affected) (<[i := do_update_set NOW o r0]> image))
        as (kept & news & Hrun & Hkept & Hnews); [done| |..].
      { intros k' Hk' [->|Hin]%elem_of_cons; [done|].
        apply (Haff k'); [by right|done]. }
      { intros r k' Hr Hk'.
        rewrite <- (insert_on_conflict_at_key NOW r0 image k i o Hk Hfind).
        rewrite find_key_insert_on_conflict_other.
        - apply Habs; [by right|done].
        - rewrite Hk. intros [= ->]. apply Hk_load.
          apply list_elem_of_omap. eauto. }
      exists kept, news. split; [done|]. split.
      * eapply Forall2_trans; [| |exact Hkept].
        { intros x y z. apply same_but_timestamps_trans. }
        apply Forall2_same_length_lookup. split; [by rewrite length_insert|].
        intros j x y Hx Hy. destruct (decide (i = j)) as [->|Hij].
        -- apply list_find_Some in Hfind as (Hio & _).
           rewrite list_lookup_insert_eq in Hy by (by eapply lookup_lt_Some).
           assert (x = o) as -> by congruence. injection Hy as <-. apply Ho.
        -- rewrite list_lookup_insert_ne in Hy by done.
           assert (x = y) as -> by congruence. apply same_but_timestamps_refl.
      * by rewrite filter_cons, decide_False by (by rewrite Hk).
    + rewrite (insert_on_conflict_no_key NOW r0 image Hk).
      destruct (IH affected (image ++ [insert_values NOW r0]))
        as (kept & news & Hrun & Hkept & Hnews); [done|done| |].
      { intros r k' Hr Hk'.
        rewrite <- (insert_on_conflict_no_key NOW r0 image Hk).
        rewrite find_key_insert_on_conflict_other by (by rewrite Hk).
        apply Habs; [by right|done]. }
      apply Forall2_app_inv_l in Hkept as (kept' & new & Hkept' & Hnew & ->).
      apply Forall2_cons_inv_l in Hnew as (n & rest & Hn & Hrest & ->).
      apply Forall2_nil_inv_l in Hrest as ->.
      exists kept', (n :: news). split; [by rewrite Hrun, <- app_assoc|].
      split; [done|].
      rewrite filter_cons, decide_True by done. by constructor.
Qed.

(** C1, as the code has it: when upsert_records_to_image_table has run,
    running it again on the same loading table succeeds, leaves the
    loading table as it is and every row of the image table in its place
    with all its columns unchanged but updated_on and last_synced, up to
    two things: meta_data may lose null-valued fields (the two values are
    equal once those are stripped) and tags may lose repeated elements
    (the two values hold the same elements).  Rows of the loading table
    without provider or foreign identifier conflict with nothing and are
    inserted again, behind the others. *)
Theorem upsert_twice_same_but_timestamps (NOW1 NOW2 : timestamp)
    (db db1 : database) :
  upsert_records_to_image_table NOW1 db = Done db1 →
  ∃ kept news,
    upsert_records_to_image_table NOW2 db1
      = Done {| load_table := load_table db; image := kept ++ news |}
    ∧ Forall2 same_but_timestamps (image db1) kept
    ∧ Forall2 (fun r n => same_but_timestamps (insert_values NOW2 r) n)
        (filter (fun r => arbiter_key r = None) (load_table db)) news.
Proof.
  unfold upsert_records_to_image_table.
  destruct (upsert_rows NOW1 [] (image db) (load_table db)) as [image1|e]
    eqn:Hrun; [|done].
  intros [= <-]. cbn [load_table image].
  destruct (upsert_rows_Done_keys _ _ _ _ _ Hrun) as [Hnd Haff].
  destruct (upsert_rows_absorbing NOW2 (load_table db) [] image1 Hnd Haff)
    as (kept & news & Hrun2 & Hkept & Hnews).
  { intros r k Hr Hk. by eapply upsert_rows_absorbed. }
  exists kept, news. by rewrite Hrun2.
Qed.

End upsert_twice.

(** The theorem on the loading table that holds the row for image 42
    with metadata and tags, upserted into an empty image table. *)
Lemma upsert_twice_image_42 :
  let r := Examples.image_data "42" (Some 800)
             (Some {[ "artist" := JStr "A" ]}) (Some [JStr "cat"]) in
  let db := {| load_table := [r]; image := [] |} in
  let db1 := {| load_table := [r]; image := [insert_values 1 r] |} in
  upsert_records_to_image_table (H := Examples.store) 1 db = Done db1
  ∧ ∃ kept news,
      upsert_records_to_image_table (H := Examples.store) 2 db1
        = Done {| load_table := [r]; image := kept ++ news |}
      ∧ Forall2 same_but_timestamps (image db1) kept
      ∧ Forall2 (fun r n => same_but_timestamps (insert_values 2 r) n)
          (filter (fun r => arbiter_key (H := Examples.store) r = None)
             [r]) news.
Proof.
  intros r db db1.
  assert (upsert_records_to_image_table (H := Examples.store) 1 db
          = Done db1) as Hrun by (vm_compute; reflexivity).
  split; [exact Hrun|].
  exact (upsert_twice_same_but_timestamps
           (H := Examples.store) 1 2 db db1 Hrun).
Defined.

(** C1 as stated fails: a row that comes with a null-valued metadata key
    and a repeated tag is inserted as it is by the first run, and the
    second run of the same batch removes the key and the repetition. *)
Lemma upsert_twice_changes_meta_data_and_tags :
  let r := Examples.image_data "42" None
             (Some {[ "artist" := JNull ]}) (Some [JStr "cat"; JStr "cat"]) in
  let db := {| load_table := [r]; image := [] |} in
  ∃ row1 row2,
    upsert_records_to_image_table (H := Examples.store) 1 db
      = Done {| load_table := [r]; image := [row1] |}
    ∧ upsert_records_to_image_table (H := Examples.store) 2
        {| load_table := [r]; image := [row1] |}
      = Done {| load_table := [r]; image := [row2] |}
    ∧ meta_data (cols row1) = Some {[ "artist" := JNull ]}
    ∧ meta_data (cols row2) = Some ∅
    ∧ meta_data (cols row1) ≠ meta_data (cols row2)
    ∧ tags (cols row1) = Some [JStr "cat"; JStr "cat"]
    ∧ tags (cols row2) = Some [JStr "cat"]
    ∧ tags (cols row1) ≠ tags (cols row2).
Proof.
  intros r db. eexists _, _.
  split; [vm_compute; reflexivity|].
  split; [vm_compute; reflexivity|].
  split; [reflexivity|]. split; [vm_compute; reflexivity|].
  split.
  { intros Heq. apply (f_equal (fun m => m ≫= (fun m => m !! "artist"))) in Heq.
    vm_compute in Heq. discriminate. }
  split; [reflexivity|]. split; [vm_compute; reflexivity|].
  intros Heq. vm_compute in Heq. discriminate.
Qed.

(** ** The RawPixel normalizer *)

Section raw_pixel_facts.
Context `{RawPixel.Library}.

(** C10 fails on the code: a payload that has the free-licence flag, a
    landing page, and an image URL whose query string lacks the parameter
    [w] (or has [w] and lacks [h]) makes _process_image_data raise
    IndexError: the default [[]] of [.get] has no first element. *)
Theorem process_image_data_raises_IndexError (image : gmap string json)
    (img_url : string) :
  RawPixel.truthy (RawPixel.get image "freecc0") = true →
  RawPixel.truthy (RawPixel.get image "url") = true →
  image !! "image_opengraph" = Some (JStr img_url) →
  img_url ≠ "" →
  RawPixel.parse_qs (RawPixel.urlparse_query img_url) !! "w" = None
  ∨ RawPixel.parse_qs (RawPixel.urlparse_query img_url) !! "h" = None →
  RawPixel._process_image_data image = Raised IndexError.
Proof.
  intros Hfree Hurl Himg Hne Hmissing.
  unfold RawPixel._process_image_data, RawPixel._get_foreign_id_url.
  rewrite Hfree, Hurl. cbn [negb].
  assert (RawPixel._get_image_properties image (RawPixel.get image "url")
          = Raised IndexError) as ->; [|done].
  unfold RawPixel._get_image_properties, RawPixel.get.
  rewrite Himg. unfold default, id. cbn [RawPixel.truthy].
  rewrite bool_decide_eq_true_2 by done.
  destruct Hmissing as [Hw|Hh].
  - by rewrite Hw.
  - rewrite Hh.
    by destruct (RawPixel.parse_qs (RawPixel.urlparse_query img_url) !! "w")
      as [[|w ws]|].
Qed.

End raw_pixel_facts.

(** The payload whose image URL ends in [?h=630]. *)
Lemma process_image_data_without_w_raises :
  RawPixel._process_image_data (H := Examples.library)
    Examples.payload_without_w = Raised IndexError.
Proof.
  apply (process_image_data_raises_IndexError (H := Examples.library)
           Examples.payload_without_w
           "https://img.rawpixel.com/1234.jpg?h=630").
  - vm_compute. reflexivity.
  - vm_compute. reflexivity.
  - vm_compute. reflexivity.
  - discriminate.
  - left. vm_compute. reflexivity.
Defined.

(** ** The sub-provider passes *)

Section sub_provider_errors.
Context `{Store, PyBuiltins, ProviderDetails}.

(** A record whose body raises whatever the table stops the loop, unless
    an earlier record has stopped it already. *)
Lemma for_each_record_raises {R} (body : list image_row → R → outcome (list image_row))
    (selected_records : list R) (image : list image_row) (row : R) :
  row ∈ selected_records →
  (∀ image', ∃ e, body image' row = Raised e) →
  is_Some (raised (for_each_record body selected_records image)).
Proof.
  intros Hrow Hraise. revert image.
  induction selected_records as [|row0 rest IH]; intros image.
  - by apply elem_of_nil in Hrow.
  - cbn [for_each_record].
    destruct (body image row0) as [image'|e] eqn:Hbody; [|by eexists].
    apply elem_of_cons in Hrow as [->|Hrow]; [|by apply IH].
    destruct (Hraise image) as [e He]. congruence.
Qed.

Lemma eligible_among_array (sub_providers : dict string) (l : list json) :
  eligible_among sub_providers (JArr l)
  = Done (filter (fun sd : string * string => JStr sd.2 ∈ l) sub_providers).*1.
Proof.
  induction sub_providers as [|[s d] rest IH]; [done|].
  cbn [eligible_among py_in]. rewrite IH. cbn.
  by case_bool_decide; case_decide.
Qed.

Lemma length_two_distinct {A} (l : list A) (x y : A) :
  x ∈ l → y ∈ l → x ≠ y → (1 < length l)%nat.
Proof.
  destruct l as [|a [|b l]]; simpl; intros Hx Hy Hne; [| |lia].
  - by apply elem_of_nil in Hx.
  - apply list_elem_of_singleton in Hx, Hy. congruence.
Qed.

Lemma europeana_record_ambiguous (default_provider : string)
    (sub_providers : dict string) (image : list image_row)
    (row_foreign_id : option string) (text sub_provider : string)
    (l : list json) (s1 d1 s2 d2 : string) :
  json_loads text = Done (JArr l) →
  (s1, d1) ∈ sub_providers → (s2, d2) ∈ sub_providers → s1 ≠ s2 →
  JStr d1 ∈ l → JStr d2 ∈ l →
  europeana_record default_provider sub_providers image
    (row_foreign_id, Some text, sub_provider)
  = Raised (Exception
      ("More than one sub-provider identified for the image with foreign ID "
       +:+ format_str row_foreign_id)).
Proof.
  intros Hloads Hs1 Hs2 Hne Hd1 Hd2. unfold europeana_record.
  rewrite Hloads. cbn. unfold eligible_sub_providers.
  rewrite eligible_among_array. cbn.
  rewrite decide_True; [done|].
  apply (length_two_distinct _ s1 s2); [| |done].
  - apply elem_of_remove_dups, list_elem_of_fmap. exists (s1, d1).
    split; [done|]. by apply list_elem_of_filter.
  - apply elem_of_remove_dups, list_elem_of_fmap. exists (s2, d2).
    split; [done|]. by apply list_elem_of_filter.
Qed.

(** C9: a row of the default provider whose [dataProvider] list names
    the data providers of two different sub-providers makes the Europeana
    pass raise; a row of the default provider and the default source
    whose unit code is in no sub-provider's set of codes makes the
    Smithsonian pass raise.  Neither pass catches the exception. *)
Theorem ambiguous_or_unknown_sub_provider_raises (image : list image_row)
    (default_provider : string) (r : image_row) :
  r ∈ image →
  provider (cols r) = Some default_provider →
  (∀ (m : gmap string json) (l : list json) (s1 d1 s2 d2 : string),
     meta_data (cols r) = Some m → m !! "dataProvider" = Some (JArr l) →
     json_loads (jsonb_out (JArr l)) = Done (JArr l) →
     (s1, d1) ∈ EUROPEANA_SUB_PROVIDERS →
     (s2, d2) ∈ EUROPEANA_SUB_PROVIDERS →
     s1 ≠ s2 → JStr d1 ∈ l → JStr d2 ∈ l →
     is_Some (raised (update_europeana_sub_providers image default_provider
                        EUROPEANA_SUB_PROVIDERS)))
  ∧ (∀ sub_providers : dict (list string),
       source (cols r) = Some default_provider →
       (∀ s unit_codes u, (s, unit_codes) ∈ sub_providers →
          arrow_text (meta_data (cols r)) "unit_code" = Some u →
          u ∉ unit_codes) →
       is_Some (raised (update_smithsonian_sub_providers image
                          default_provider sub_providers))).
Proof.
  intros Hr Hprov. split.
  - intros m l s1 d1 s2 d2 Hm Hdp Hloads Hs1 Hs2 Hne Hd1 Hd2.
    unfold update_europeana_sub_providers.
    apply (for_each_record_raises _ _ _
             (foreign_id (cols r), Some (jsonb_out (JArr l)), s1)).
    + unfold select_europeana. apply list_elem_of_bind. exists r. split.
      * apply list_elem_of_bind. exists (d1, s1). split.
        -- rewrite Hm. cbn. rewrite Hdp. cbn [exists_key fst snd].
           rewrite bool_decide_eq_true_2 by done.
           unfold arrow_text. cbn. rewrite Hdp.
           apply list_elem_of_singleton. done.
        -- unfold _create_temp_europeana_sub_prov_table.
           apply list_elem_of_fmap. by exists (s1, d1).
      * apply list_elem_of_filter. split; [|done]. by rewrite Hprov.
    + intros image'. eexists.
      exact (europeana_record_ambiguous _ _ _ _ _ _ l s1 d1 s2 d2
               Hloads Hs1 Hs2 Hne Hd1 Hd2).
  - intros sub_providers Hsrc Hunknown.
    unfold update_smithsonian_sub_providers.
    apply (for_each_record_raises _ _ _
             (foreign_id (cols r),
              arrow_text (meta_data (cols r)) "unit_code")).
    + unfold select_smithsonian. apply list_elem_of_fmap. exists r.
      split; [done|]. apply list_elem_of_filter. split; [|done].
      by rewrite Hprov, Hsrc.
    + intros image'. eexists. unfold smithsonian_record.
      assert (find_source sub_providers
                (arrow_text (meta_data (cols r)) "unit_code") = None) as ->;
        [|done].
      induction sub_providers as [|[s codes] rest IH]; [done|].
      cbn [find_source].
      destruct (unit_code_in _ codes) eqn:Hin.
      * unfold unit_code_in in Hin.
        destruct (arrow_text (meta_data (cols r)) "unit_code") as [u|];
          [|done].
        apply bool_decide_eq_true in Hin.
        destruct (Hunknown s codes u); [left|done|done].
      * apply IH. intros s' codes' u Hs' Hu.
        apply (Hunknown s' codes' u); [by right|done].
Qed.

End sub_provider_errors.

(** The row whose [dataProvider] names both A and B, and whose unit code
    is unknown. *)
Lemma ambiguous_or_unknown_row_raises :
  let r := Examples.catalog_row "1" "europeana" "europeana" None
             (Some {[ "dataProvider" := JArr [JStr "A"; JStr "B"];
                      "unit_code" := JStr "XYZ" ]}) in
  r ∈ [r]
  ∧ provider (cols r) = Some "europeana"
  ∧ is_Some (raised (update_europeana_sub_providers
                       (H := Examples.store)
                       (H0 := Examples.builtins)
                       (H1 := Examples.provider_details)
                       [r] "europeana" [("sub_a", "A"); ("sub_b", "B")]))
  ∧ is_Some (raised (update_smithsonian_sub_providers
                       (H := Examples.store)
                       [r] "europeana" [("smithsonian_nmnh", ["NMNH"])])).
Proof.
  intros r.
  assert (r ∈ [r]) as Hr by left.
  assert (provider (cols r) = Some "europeana") as Hprov by reflexivity.
  destruct (ambiguous_or_unknown_sub_provider_raises
              (H := Examples.store) (H0 := Examples.builtins)
              (H1 := Examples.provider_details)
              [r] "europeana" r Hr Hprov) as [Heur Hsmith].
  split; [exact Hr|]. split; [exact Hprov|]. split.
  - refine (Heur _ [JStr "A"; JStr "B"] "sub_a" "A" "sub_b" "B"
              eq_refl _ _ _ _ _ _ _).
    + vm_compute. reflexivity.
    + vm_compute. reflexivity.
    + left.
    + right. left.
    + discriminate.
    + left.
    + right. left.
  - apply (Hsmith [("smithsonian_nmnh", ["NMNH"])]); [reflexivity|].
    intros s unit_codes u Hs Hu.
    apply list_elem_of_singleton in Hs. injection Hs as -> ->.
    vm_compute in Hu. injection Hu as <-.
    intros Hin. apply list_elem_of_singleton in Hin. discriminate.
Defined.

(** ** Running a sub-provider pass twice *)

Section sub_provider_twice.
Context `{Store, PyBuiltins, ProviderDetails}.

Lemma update_where_update_row (d s : string) (f : option string)
    (image : list image_row) :
  update_where d s f image = update_row d (f, s) <$> image.
Proof. reflexivity. Qed.

Lemma apply_updates_cons (d : string) (u : option string * string)
    (us : list (option string * string)) (image : list image_row) :
  apply_updates d (u :: us) image
  = apply_updates d us (update_where d u.2 u.1 image).
Proof. reflexivity. Qed.

Lemma update_rows_cons (d : string) (u : option string * string)
    (us : list (option string * string)) (x : image_row) :
  update_rows d (u :: us) x = update_rows d us (update_row d u x).
Proof. reflexivity. Qed.

Lemma apply_updates_update_rows (d : string)
    (us : list (option string * string)) (image : list image_row) :
  apply_updates d us image = update_rows d us <$> image.
Proof.
  revert image. induction us as [|u us IH]; intros image.
  - symmetry. apply list_fmap_id.
  - rewrite apply_updates_cons, IH, update_where_update_row.
    rewrite <- list_fmap_compose.
    apply list_fmap_ext. intros i x _. by destruct u.
Qed.

Lemma set_source_set_source (s s' : option string) (x : image_row) :
  set_source s (set_source s' x) = set_source s x.
Proof. reflexivity. Qed.

Lemma set_source_id (x : image_row) : set_source (source (cols x)) x = x.
Proof. by destruct x as [[] ? ? ? ?]. Qed.

Lemma set_source_update_row (d : string) (u : option string * string)
    (s : option string) (x : image_row) :
  set_source s (update_row d u x) = set_source s x.
Proof. unfold update_row. by case_decide. Qed.

Lemma set_source_update_rows (d : string) (us : list (option string * string))
    (s : option string) (x : image_row) :
  set_source s (update_rows d us x) = set_source s x.
Proof.
  revert x. induction us as [|u us IH]; intros x; [done|].
  by rewrite update_rows_cons, IH, set_source_update_row.
Qed.

(** Whether an UPDATE reaches a row does not depend on the row's source. *)
Lemma update_matches_set_source (d : string) (f s : option string)
    (x : image_row) :
  update_matches d f (set_source s x) ↔ update_matches d f x.
Proof. reflexivity. Qed.

Lemma update_matches_update_rows (d : string) (f : option string)
    (us : list (option string * string)) (x : image_row) :
  update_matches d f (update_rows d us x) ↔ update_matches d f x.
Proof.
  rewrite <- (update_matches_set_source d f None (update_rows d us x)).
  by rewrite set_source_update_rows.
Qed.

Lemma update_rows_snoc (d : string) (us : list (option string * string))
    (u : option string * string) (x : image_row) :
  update_rows d (us ++ [u]) x = update_row d u (update_rows d us x).
Proof. unfold update_rows. by rewrite foldl_app. Qed.

(** On one row a sequence of UPDATEs applied twice gives what it gives
    applied once. *)
Lemma update_rows_idemp (d : string) (us : list (option string * string))
    (x : image_row) :
  update_rows d us (update_rows d us x) = update_rows d us x.
Proof.
  induction us as [|u us IH] using rev_ind; [done|].
  rewrite !update_rows_snoc.
  assert (update_row d u (update_rows d us x)
          = if decide (update_matches d u.1 (update_rows d us x))
            then set_source (Some u.2) (update_rows d us x)
            else update_rows d us x) as Hrow by reflexivity.
  destruct (decide (update_matches d u.1 (update_rows d us x))) as [Hm|Hm];
    rewrite Hrow.
  - unfold update_row. rewrite decide_True.
    + by rewrite set_source_update_rows.
    + by apply update_matches_update_rows, update_matches_set_source.
  - rewrite IH. unfold update_row. by rewrite decide_False.
Qed.

Lemma apply_updates_idemp (d : string) (us : list (option string * string))
    (image : list image_row) :
  apply_updates d us (apply_updates d us image) = apply_updates d us image.
Proof.
  rewrite !apply_updates_update_rows, <- list_fmap_compose.
  apply list_fmap_ext. intros i x _. apply update_rows_idemp.
Qed.

(** A loop all of whose records pass is the sequence of its UPDATEs. *)
Lemma for_each_record_all_done {R}
    (body : list image_row → R → outcome (list image_row))
    (u : R → option string * string) (d : string)
    (recs : list R) (image : list image_row) :
  (∀ rec, rec ∈ recs →
     ∀ im, body im rec = Done (update_where d (u rec).2 (u rec).1 im)) →
  for_each_record body recs image
  = {| image_after := apply_updates d (u <$> recs) image; raised := None |}.
Proof.
  revert image. induction recs as [|rec recs IH]; intros image Hdone; [done|].
  cbn [for_each_record]. rewrite (Hdone rec) by left.
  rewrite IH; [done|]. intros rec' Hrec'. apply Hdone. by right.
Qed.







Lemma unique_index_eq (image : list image_row) (x y : image_row)
    (k : string * string) :
  unique_index image → x ∈ image → y ∈ image →
  arbiter_key (cols x) = Some k → arbiter_key (cols y) = Some k → x = y.
Proof.
  unfold unique_index. induction image as [|a image IH]; intros Hnd Hx Hy Kx Ky.
  - by apply elem_of_nil in Hx.
  - cbn [omap list_omap] in Hnd.
    assert (∀ z, z ∈ image → arbiter_key (cols z) = Some k →
                 k ∈ omap (fun r => arbiter_key (cols r)) image) as Hin.
    { intros z Hz Kz. apply list_elem_of_omap. eauto. }
    apply elem_of_cons in Hx as [->|Hx], Hy as [->|Hy]; [done| | |].
    + rewrite Kx in Hnd. apply NoDup_cons in Hnd as [Hk _].
      destruct Hk. by eapply Hin.
    + rewrite Ky in Hnd. apply NoDup_cons in Hnd as [Hk _].
      destruct Hk. by eapply Hin.
    + apply IH; try done.
      destruct (arbiter_key (cols a)); [by apply NoDup_cons in Hnd as [_ ?]|done].
Qed.


Lemma update_rows_no_match (d : string) (us : list (option string * string))
    (x : image_row) :
  (∀ u, u ∈ us → ¬ update_matches d u.1 x) → update_rows d us x = x.
Proof.
  induction us as [|u us IH] using rev_ind; intros Hno; [done|].
  rewrite update_rows_snoc, IH.
  - unfold update_row. rewrite decide_False; [done|].
    apply Hno, elem_of_app. right. left.
  - intros u' Hu'. apply Hno, elem_of_app. by left.
Qed.


(** *** Rows and the records selected for them *)



Lemma elem_of_select_flickr (d : string) (temp_table : list (string * string))
    (image : list image_row) (u : option string * string) :
  u ∈ select_flickr d temp_table image
  ↔ ∃ z t, z ∈ image ∧ t ∈ temp_table
           ∧ sql_eq (creator_url (cols z)) (Some t.1)
           ∧ sql_eq (provider (cols z)) (Some d)
           ∧ u = (foreign_id (cols z), t.2).
Proof.
  unfold select_flickr. rewrite list_elem_of_bind. split.
  - intros (z & Hu & Hz). apply list_elem_of_bind in Hu as (t & Hu & Ht).
    case_decide as Hc; [|by apply elem_of_nil in Hu].
    apply list_elem_of_singleton in Hu. destruct Hc. by exists z, t.
  - intros (z & t & Hz & Ht & Hcu & Hp & ->). exists z. split; [|done].
    apply list_elem_of_bind. exists t. split; [|done].
    rewrite decide_True by done. by apply list_elem_of_singleton.
Qed.

Lemma elem_of_select_europeana (d : string)
    (temp_table : list (string * string)) (image : list image_row)
    (rec : option string * option string * string) :
  rec ∈ select_europeana d temp_table image
  ↔ ∃ z t v, z ∈ image ∧ sql_eq (provider (cols z)) (Some d)
             ∧ t ∈ temp_table
             ∧ meta_data (cols z) ≫= (fun m => m !! "dataProvider") = Some v
             ∧ exists_key v t.1 = true
             ∧ rec = (foreign_id (cols z),
                      arrow_text (meta_data (cols z)) "dataProvider", t.2).
Proof.
  unfold select_europeana. rewrite list_elem_of_bind. split.
  - intros (z & Hrec & Hz). apply list_elem_of_filter in Hz as [Hp Hz].
    apply list_elem_of_bind in Hrec as (t & Hrec & Ht).
    destruct (meta_data (cols z) ≫= _) as [v|] eqn:Hv;
      [|by apply elem_of_nil in Hrec].
    destruct (exists_key v t.1) eqn:Hex; [|by apply elem_of_nil in Hrec].
    apply list_elem_of_singleton in Hrec. by exists z, t, v.
  - intros (z & t & v & Hz & Hp & Ht & Hv & Hex & ->). exists z. split.
    + apply list_elem_of_bind. exists t. split; [|done].
      rewrite Hv, Hex. by apply list_elem_of_singleton.
    + by apply list_elem_of_filter.
Qed.

Lemma elem_of_select_smithsonian (d : string) (image : list image_row)
    (rec : option string * option string) :
  rec ∈ select_smithsonian d image
  ↔ ∃ r, r ∈ image ∧ still_default d r
         ∧ rec = (foreign_id (cols r),
                  arrow_text (meta_data (cols r)) "unit_code").
Proof.
  unfold select_smithsonian. rewrite list_elem_of_fmap. split.
  - intros (r & -> & Hr). apply list_elem_of_filter in Hr as [Hsel Hr].
    by exists r.
  - intros (r & Hr & Hsel & ->). exists r. split; [done|].
    by apply list_elem_of_filter.
Qed.

(** *** Values without a quote *)

Lemma fits_columns_quote_free (width : nat)
    (temp_table : list (string * string)) :
  fits_columns width temp_table → ∀ t, t ∈ temp_table → quote_free t.2.
Proof. intros Hfit t Ht. apply (Hfit t Ht). Qed.

(** With no quote in its three values the UPDATE is the statement it
    looks like. *)
Lemma update_source_Done (d s : string) (f : option string)
    (im : list image_row) :
  quote_free d → quote_free s → quote_free (format_str f) →
  update_source d s f im = Done (update_where d s f im).
Proof. intros Hd Hs Hf. unfold update_source. by rewrite decide_True. Qed.

Lemma format_foreign_id_quote_free (d : string) (image : list image_row)
    (z : image_row) :
  quote_free_ids d image → z ∈ image →
  sql_eq (provider (cols z)) (Some d) →
  quote_free (format_str (foreign_id (cols z))).
Proof.
  intros Hq Hz Hp. destruct (foreign_id (cols z)) as [f|] eqn:Hf.
  - by eapply Hq.
  - by apply (bool_decide_unpack _).
Qed.

Lemma flickr_records_done (image : list image_row) (d : string)
    (temp_table : list (string * string)) :
  quote_free d → quote_free_ids d image →
  (∀ t, t ∈ temp_table → quote_free t.2) →
  ∀ rec, rec ∈ select_flickr d temp_table image →
    ∀ im, flickr_record d im rec = Done (update_where d rec.2 rec.1 im).
Proof.
  intros Hd Hq Ht rec Hrec im.
  apply elem_of_select_flickr in Hrec as (z & t & Hz & Htt & Hcu & Hp & ->).
  apply update_source_Done; cbn [fst snd]; [done|by apply Ht|].
  by eapply format_foreign_id_quote_free.
Qed.

Lemma europeana_record_cases (d : string) (sub_providers : dict string)
    (rec : option string * option string * string) :
  quote_free d → quote_free rec.2 → quote_free (format_str rec.1.1) →
  (∃ e, ∀ im, europeana_record d sub_providers im rec = Raised e)
  ∨ (∀ im, europeana_record d sub_providers im rec
           = Done (update_where d rec.2 rec.1.1 im)).
Proof.
  intros Hd Hs Hf.
  destruct rec as [[f [text|]] s]; unfold europeana_record;
    [|left; by eexists].
  destruct (json_loads text) as [dp|e]; [|left; by eexists].
  cbn [mbind outcome_bind].
  destruct (eligible_sub_providers sub_providers dp) as [el|e];
    [|left; by eexists].
  cbn [mbind outcome_bind].
  destruct (decide (1 < length el)%nat); [left; by eexists|].
  destruct (decide (length el ≠ 1%nat)); [left; by eexists|].
  destruct (decide (el ≠ [s])); [left; by eexists|].
  right. intros im. by apply update_source_Done.
Qed.

Lemma europeana_records_cases (image : list image_row) (d : string)
    (sub_providers : dict string) (temp_table : list (string * string)) :
  quote_free d → quote_free_ids d image →
  (∀ t, t ∈ temp_table → quote_free t.2) →
  ∀ rec, rec ∈ select_europeana d temp_table image →
    (∃ e, ∀ im, europeana_record d sub_providers im rec = Raised e)
    ∨ (∀ im, europeana_record d sub_providers im rec
             = Done (update_where d rec.2 rec.1.1 im)).
Proof.
  intros Hd Hq Ht rec Hrec.
  apply elem_of_select_europeana in Hrec
    as (z & t & v & Hz & Hp & Htt & Hv & Hex & ->).
  apply europeana_record_cases; cbn [fst snd]; [done|by apply Ht|].
  by eapply format_foreign_id_quote_free.
Qed.


Lemma find_source_elem (sub_providers : dict (list string))
    (unit_code : option string) (s : string) :
  find_source sub_providers unit_code = Some s →
  ∃ unit_codes, (s, unit_codes) ∈ sub_providers.
Proof.
  induction sub_providers as [|[s' codes] rest IH]; [done|].
  cbn [find_source]. destruct (unit_code_in unit_code codes).
  - intros [= ->]. exists codes. left.
  - intros Hf. destruct (IH Hf) as [c Hc]. exists c. by right.
Qed.

Lemma smithsonian_record_cases (d : string)
    (sub_providers : dict (list string))
    (rec : option string * option string) :
  quote_free d →
  (∀ s unit_codes, (s, unit_codes) ∈ sub_providers → quote_free s) →
  quote_free (format_str rec.1) →
  (∃ e, ∀ im, smithsonian_record d sub_providers im rec = Raised e)
  ∨ (∀ im, smithsonian_record d sub_providers im rec
           = Done (update_where d
                     (default "" (find_source sub_providers rec.2)) rec.1 im)).
Proof.
  intros Hd Hs Hf. destruct rec as [f uc]. unfold smithsonian_record.
  cbn [fst snd] in *.
  destruct (find_source sub_providers uc) as [s|] eqn:Hfind;
    [|left; by eexists].
  right. intros im. cbn [default]. unfold id.
  apply update_source_Done; try done.
  destruct (find_source_elem _ _ _ Hfind) as [codes Hin]. by eapply Hs.
Qed.

Lemma smithsonian_records_cases (image : list image_row) (d : string)
    (sub_providers : dict (list string)) :
  quote_free d → quote_free_ids d image →
  (∀ s unit_codes, (s, unit_codes) ∈ sub_providers → quote_free s) →
  ∀ rec, rec ∈ select_smithsonian d image →
    (∃ e, ∀ im, smithsonian_record d sub_providers im rec = Raised e)
    ∨ (∀ im, smithsonian_record d sub_providers im rec
             = Done (update_where d
                       (default "" (find_source sub_providers rec.2))
                       rec.1 im)).
Proof.
  intros Hd Hq Hs rec Hrec.
  apply elem_of_select_smithsonian in Hrec as (z & Hz & [Hp _] & ->).
  apply smithsonian_record_cases; cbn [fst snd]; [done|done|].
  by eapply format_foreign_id_quote_free.
Qed.

(** *** The records in another order *)






(** *** The Flickr pass *)

(** With no quote in the values, the Flickr pass never raises, and is
    the sequence of UPDATEs of the records it selects. *)
Lemma update_flickr_sub_providers_updates (image : list image_row)
    (d : string) :
  quote_free d → quote_free_ids d image →
  fits_columns 2000 _create_temp_flickr_sub_prov_table →
  update_flickr_sub_providers image d
  = {| image_after :=
         apply_updates d
           (select_flickr d _create_temp_flickr_sub_prov_table image) image;
       raised := None |}.
Proof.
  intros Hd Hq Hfit.
  pose proof (fits_columns_quote_free _ _ Hfit) as Ht.
  unfold update_flickr_sub_providers.
  rewrite (for_each_record_all_done _ id d); [by rewrite list_fmap_id|].
  intros rec Hrec im.
  by apply (flickr_records_done image d _create_temp_flickr_sub_prov_table).
Qed.



(** *** The Europeana pass *)



(** *** The Smithsonian pass *)







End sub_provider_twice.



(** * Further properties *)

(** ** The cleaner and the upsert, together *)

Section clean_and_upsert.
Context `{Store}.

Lemma delete_rows_with_later_duplicate_idemp (t : list load_row) :
  delete_rows_with_later_duplicate (delete_rows_with_later_duplicate t)
  = delete_rows_with_later_duplicate t.
Proof.
  induction t as [|p1 later IH]; [done|].
  cbn [delete_rows_with_later_duplicate]. case_decide as Hex; [done|].
  cbn [delete_rows_with_later_duplicate]. rewrite IH, decide_False; [done|].
  intros Hex'. apply Hex. apply Exists_exists in Hex' as (x & Hx & Hsame).
  apply Exists_exists. exists x. split; [|done].
  by apply (sublist_subseteq _ _ (delete_rows_with_later_duplicate_sublist later)).
Qed.

Lemma filter_Forall {A} (P : A → Prop) `{∀ x, Decision (P x)} (l : list A) :
  Forall P l → filter P l = l.
Proof.
  induction 1 as [|x l Hx _ IH]; [done|].
  by rewrite filter_cons_True, IH.
Qed.

(** X1: Cleaning a clean table changes nothing. *)
Theorem clean_intermediate_table_data_idempotent (t : list load_row) :
  _clean_intermediate_table_data (_clean_intermediate_table_data t)
  = _clean_intermediate_table_data t.
Proof.
  rewrite !clean_is_filter.
  assert (filter has_required_columns
            (delete_rows_with_later_duplicate (filter has_required_columns t))
          = delete_rows_with_later_duplicate (filter has_required_columns t))
    as ->.
  { apply filter_Forall. apply Forall_forall. intros r Hr.
    apply (sublist_subseteq _ _
             (delete_rows_with_later_duplicate_sublist _)) in Hr.
    by apply list_elem_of_filter in Hr as [? _]. }
  apply delete_rows_with_later_duplicate_idemp.
Qed.

(** X2: Rows without a provider are compared equal to nothing: the cleaner
    keeps every usable one of them, however many carry the same foreign
    identifier. *)
Theorem clean_keeps_rows_without_provider (t : list load_row) :
  filter (fun r => provider r = None) (_clean_intermediate_table_data t)
  = filter (fun r => provider r = None) (filter has_required_columns t).
Proof.
  rewrite clean_is_filter. generalize (filter has_required_columns t).
  intros u. induction u as [|p1 later IH]; [done|].
  cbn [delete_rows_with_later_duplicate]. rewrite (filter_cons _ p1 later).
  case_decide as Hex.
  - rewrite IH. case_decide as Hp; [|done].
    apply Exists_exists in Hex as (x & _ & Hsame & _).
    unfold sql_eq in Hsame. by rewrite Hp in Hsame.
  - by rewrite filter_cons, IH.
Qed.

Lemma arbiter_key_same_provider_and_foreign_id (p1 p2 : load_row)
    (k : string * string) :
  (∀ f1 f2, foreign_id p1 = Some f1 → foreign_id p2 = Some f2 →
            md5 f1 = md5 f2 → f1 = f2) →
  arbiter_key p1 = Some k → arbiter_key p2 = Some k →
  same_provider_and_foreign_id p1 p2.
Proof.
  intros Hinj. unfold arbiter_key, same_provider_and_foreign_id, sql_eq.
  destruct (provider p1), (foreign_id p1), (provider p2), (foreign_id p2);
    try done.
  intros [= <-] [= -> Hmd5]. split; [done|]. by apply Hinj.
Qed.

Lemma collision_free_cons (p : load_row) (t : list load_row) :
  collision_free (p :: t) → collision_free t.
Proof.
  intros Hfree r1 r2 f1 f2 Hr1 Hr2. apply Hfree; by right.
Qed.

(** The rows the last DELETE keeps have different index values, when no
    two of their foreign identifiers have the same digest. *)
Lemma delete_rows_with_later_duplicate_NoDup (t : list load_row) :
  collision_free (delete_rows_with_later_duplicate t) →
  NoDup (omap arbiter_key (delete_rows_with_later_duplicate t)).
Proof.
  induction t as [|p1 later IH]; [constructor|].
  cbn [delete_rows_with_later_duplicate]. case_decide as Hex; [done|].
  intros Hfree. pose proof (IH (collision_free_cons _ _ Hfree)) as Hnd.
  cbn [omap list_omap]. destruct (arbiter_key p1) as [k|] eqn:Hk; [|done].
  constructor; [|done]. intros Hin.
  apply list_elem_of_omap in Hin as (x & Hx & Hkx).
  apply Hex, Exists_exists. exists x. split.
  - by apply (sublist_subseteq _ _
                (delete_rows_with_later_duplicate_sublist later)).
  - eapply arbiter_key_same_provider_and_foreign_id; [|done|done].
    intros f1 f2 Hf1 Hf2. apply (Hfree p1 x); [left|by right|done|done].
Qed.

Lemma upsert_rows_Done_or_CardinalityViolation (NOW : timestamp)
    (load : list load_row) :
  ∀ (affected : list (string * string)) (image : list image_row),
  (NoDup (omap arbiter_key load)
   ∧ (∀ k, k ∈ omap arbiter_key load → k ∉ affected)
   ∧ ∃ image', upsert_rows NOW affected image load = Done image')
  ∨ (¬ (NoDup (omap arbiter_key load)
        ∧ ∀ k, k ∈ omap arbiter_key load → k ∉ affected)
     ∧ upsert_rows NOW affected image load = Raised CardinalityViolation).
Proof.
  induction load as [|r load IH]; intros affected image.
  - left. split; [constructor|]. split; [|by eexists].
    intros k Hk. by apply elem_of_nil in Hk.
  - cbn [upsert_rows omap list_omap].
    destruct (arbiter_key r) as [k|] eqn:Hk; [|apply IH].
    case_decide as Haff.
    + right. split; [|done]. intros [_ Hnot]. apply (Hnot k); [left|done].
    + destruct (IH (k :: affected) (insert_on_conflict NOW r image))
        as [(Hnd & Hnot & Hrun)|[Hbad Hrun]].
      * left. split; [|split; [|done]].
        -- constructor; [|done]. intros Hin. apply (Hnot k Hin). left.
        -- intros k' [->|Hin]%elem_of_cons; [done|].
           intros Hk'. apply (Hnot k' Hin). by right.
      * right. split; [|done]. intros [Hnd Hnot]. apply Hbad.
        apply NoDup_cons in Hnd as [Hk_load Hnd]. split; [done|].
        intros k' Hin [->|Hk']%elem_of_cons; [done|].
        apply (Hnot k'); [by right|done].
Qed.

(** X3: The upsert succeeds exactly when no two rows of the loading table
    have the same value in the arbiter index; otherwise the store raises
    CardinalityViolation and the image table stays as it is. *)
Theorem upsert_succeeds_iff_keys_distinct (NOW : timestamp) (db : database) :
  (NoDup (omap arbiter_key (load_table db)) →
     ∃ db', upsert_records_to_image_table NOW db = Done db')
  ∧ (¬ NoDup (omap arbiter_key (load_table db)) →
       upsert_records_to_image_table NOW db = Raised CardinalityViolation).
Proof.
  unfold upsert_records_to_image_table.
  destruct (upsert_rows_Done_or_CardinalityViolation NOW (load_table db)
              [] (image db)) as [(Hnd & _ & image' & ->)|[Hbad ->]].
  - split; [by eexists|done].
  - split; [|done]. intros Hnd. destruct Hbad. split; [done|].
    intros k _ Hk. by apply elem_of_nil in Hk.
Qed.

Lemma upsert_clean_Done (NOW : timestamp) (t : list load_row)
    (image : list image_row) :
  collision_free (_clean_intermediate_table_data t) →
  ∃ db',
    upsert_records_to_image_table NOW
      {| load_table := _clean_intermediate_table_data t; image := image |}
    = Done db'.
Proof.
  intros Hfree. unfold upsert_records_to_image_table.
  cbn [load_table Sql.image].
  destruct (upsert_rows_Done_or_CardinalityViolation NOW
              (_clean_intermediate_table_data t) [] image)
    as [(_ & _ & image' & ->)|[Hbad _]]; [by eexists|].
  destruct Hbad. split.
  - rewrite clean_is_filter in *.
    by apply delete_rows_with_later_duplicate_NoDup.
  - intros k _ Hk. by apply elem_of_nil in Hk.
Qed.

(** X4: A loading table that went through the cleaner can be upserted,
    as long as no two different foreign identifiers left in it have the
    same md5 digest: no two of the rows left have the same index value,
    and the statement succeeds, whatever the image table holds. *)
Theorem upsert_after_clean_succeeds (NOW : timestamp) (t : list load_row)
    (image : list image_row) :
  collision_free (_clean_intermediate_table_data t) →
  NoDup (omap arbiter_key (_clean_intermediate_table_data t))
  ∧ ∃ db',
      upsert_records_to_image_table NOW
        {| load_table := _clean_intermediate_table_data t; image := image |}
      = Done db'.
Proof.
  intros Hfree. split; [|by apply upsert_clean_Done].
  rewrite clean_is_filter in *.
  by apply delete_rows_with_later_duplicate_NoDup.
Qed.

End clean_and_upsert.

(** ** What the upsert does to the image table *)

Section upsert_effect.
Context `{Store}.

Lemma insert_on_conflict_cases (NOW : timestamp) (r : load_row)
    (image : list image_row) :
  (∃ i old, image !! i = Some old ∧ conflicts old r
            ∧ insert_on_conflict NOW r image
              = <[i := do_update_set NOW old r]> image)
  ∨ ((∀ o, o ∈ image → ¬ conflicts o r)
     ∧ insert_on_conflict NOW r image = image ++ [insert_values NOW r]).
Proof.
  destruct (list_find (fun o => conflicts o r) image) as [[i old]|] eqn:Hfind.
  - left. exists i, old.
    pose proof (insert_on_conflict_found NOW r image i old Hfind) as Heq.
    apply list_find_Some in Hfind as (Hi & Hc & _). done.
  - right. split.
    + apply list_find_None in Hfind. by apply Forall_forall.
    + by apply insert_on_conflict_not_found.
Qed.

Lemma omap_arbiter_key_insert (image : list image_row) (i : nat)
    (old new : image_row) :
  image !! i = Some old →
  arbiter_key (cols new) = arbiter_key (cols old) →
  omap (fun r => arbiter_key (cols r)) (<[i := new]> image)
  = omap (fun r => arbiter_key (cols r)) image.
Proof.
  revert i. induction image as [|o image IH]; intros i Hi Hk; [done|].
  destruct i as [|i]; csimpl in Hi; csimpl.
  - injection Hi as ->. by rewrite Hk.
  - by rewrite (IH i Hi Hk).
Qed.

Lemma insert_on_conflict_unique_index (NOW : timestamp) (r : load_row)
    (image : list image_row) :
  unique_index image → unique_index (insert_on_conflict NOW r image).
Proof.
  unfold unique_index. intros Hnd.
  destruct (insert_on_conflict_cases NOW r image)
    as [(i & old & Hi & _ & ->)|[Hno ->]].
  - by rewrite (omap_arbiter_key_insert image i old).
  - rewrite omap_app. cbn [omap list_omap insert_values cols].
    destruct (arbiter_key r) as [k|] eqn:Hk; [|by rewrite app_nil_r].
    apply NoDup_app. split; [done|]. split; [|apply NoDup_singleton].
    intros k' Hin ->%list_elem_of_singleton.
    apply list_elem_of_omap in Hin as (o & Ho & Hko).
    apply (Hno o Ho). unfold conflicts, sql_eq. by rewrite Hko, Hk.
Qed.

Lemma upsert_rows_unique_index (NOW : timestamp) (load : list load_row) :
  ∀ (affected : list (string * string)) (image image' : list image_row),
  unique_index image →
  upsert_rows NOW affected image load = Done image' →
  unique_index image'.
Proof.
  induction load as [|r load IH]; intros affected image image' Huniq.
  - by intros [= <-].
  - cbn [upsert_rows].
    pose proof (insert_on_conflict_unique_index NOW r image Huniq) as Huniq'.
    destruct (arbiter_key r); [case_decide; [done|]|]; by apply IH.
Qed.

(** X5: The upsert keeps the arbiter index of the image table unique. *)
Theorem upsert_keeps_unique_index (NOW : timestamp) (db db' : database) :
  unique_index (image db) →
  upsert_records_to_image_table NOW db = Done db' →
  unique_index (image db').
Proof.
  unfold upsert_records_to_image_table. intros Huniq.
  destruct (upsert_rows NOW [] (image db) (load_table db)) as [image'|]
    eqn:Hrun; [|done].
  intros [= <-]. by eapply upsert_rows_unique_index.
Qed.

Lemma find_key_insert_on_conflict_exact (NOW : timestamp) (r : load_row)
    (image : list image_row) (k : string * string) :
  arbiter_key r = Some k →
  match find_key k image with
  | Some (i, old) =>
      find_key k (insert_on_conflict NOW r image)
      = Some (i, do_update_set NOW old r)
  | None =>
      find_key k (insert_on_conflict NOW r image)
      = Some (length image, insert_values NOW r)
  end.
Proof.
  intros Hk. induction image as [|o rest IH].
  - cbn [insert_on_conflict]. rewrite find_key_cons.
    by rewrite decide_True.
  - cbn [insert_on_conflict]. rewrite find_key_cons.
    destruct (decide (arbiter_key (cols o) = Some k)) as [Hko|Hko].
    + rewrite decide_True by (by apply (conflicts_key o r k Hk)).
      rewrite find_key_cons, arbiter_key_do_update_set.
      by rewrite decide_True.
    + rewrite decide_False
        by (intros Hc; by apply Hko, (conflicts_key o r k Hk)).
      rewrite find_key_cons, decide_False by done.
      destruct (find_key k rest) as [[i old]|]; cbn; by rewrite IH.
Qed.

Lemma upsert_rows_row_by_key (NOW : timestamp) (load : list load_row) :
  ∀ (affected : list (string * string)) (image image' : list image_row)
    (r : load_row) (k : string * string),
  upsert_rows NOW affected image load = Done image' →
  r ∈ load → arbiter_key r = Some k →
  match find_key k image with
  | Some (i, old) => find_key k image' = Some (i, do_update_set NOW old r)
  | None =>
      ∃ i, find_key k image' = Some (i, insert_values NOW r)
           ∧ (length image ≤ i)%nat
  end.
Proof.
  induction load as [|r0 load IH]; intros affected image image' r k Hrun Hr Hk.
  - by apply elem_of_nil in Hr.
  - pose proof (upsert_rows_Done_keys _ _ _ _ _ Hrun) as [Hnd _].
    cbn [upsert_rows omap list_omap] in Hrun, Hnd.
    destruct (decide (arbiter_key r0 = Some k)) as [Hk0|Hk0].
    + rewrite Hk0 in Hrun, Hnd. case_decide; [done|].
      apply NoDup_cons in Hnd as [Hk_load _].
      assert (r = r0) as ->.
      { apply elem_of_cons in Hr as [->|Hr]; [done|].
        destruct Hk_load. apply list_elem_of_omap. eauto. }
      rewrite (upsert_rows_find_key_other _ _ _ _ _ k Hrun Hk_load).
      pose proof (find_key_insert_on_conflict_exact NOW r0 image k Hk0) as Hex.
      destruct (find_key k image) as [[i old]|]; [done|]. eauto.
    + assert (r ∈ load) as Hr'.
      { apply elem_of_cons in Hr as [->|Hr]; [congruence|done]. }
      assert (∃ affected',
                upsert_rows NOW affected' (insert_on_conflict NOW r0 image) load
                = Done image') as [affected' Hrun'].
      { destruct (arbiter_key r0); [case_decide; [done|]|]; eauto. }
      pose proof (IH _ _ _ r k Hrun' Hr' Hk) as Hrest.
      rewrite (find_key_insert_on_conflict_other NOW r0 image k Hk0) in Hrest.
      destruct (find_key k image) as [[i old]|]; [done|].
      destruct Hrest as (i & Hfind & Hlen). exists i. split; [done|].
      destruct (insert_on_conflict_cases NOW r0 image)
        as [(j & o & _ & _ & Heq)|[_ Heq]]; rewrite Heq in Hlen.
      * by rewrite length_insert in Hlen.
      * rewrite length_app in Hlen. cbn in Hlen. lia.
Qed.

(** X6: What the upsert makes of each row of the loading table that has a
    provider and a foreign identifier, on an image table that respects
    the unique index: afterwards the image table has exactly one row
    under the index value of the loaded row; it is the merge (DO UPDATE
    SET) of the row the table had under that value with the loaded row,
    if it had one, and otherwise the row inserted for the loaded row,
    with the three timestamps at NOW and [removed] false. *)
Theorem upsert_merges_or_inserts_by_key (NOW : timestamp) (db db' : database)
    (r : load_row) (k : string * string) :
  unique_index (image db) →
  upsert_records_to_image_table NOW db = Done db' →
  r ∈ load_table db → arbiter_key r = Some k →
  ∃ new,
    new ∈ image db' ∧ arbiter_key (cols new) = Some k
    ∧ (∀ new', new' ∈ image db' → arbiter_key (cols new') = Some k →
               new' = new)
    ∧ (∀ old, old ∈ image db → arbiter_key (cols old) = Some k →
              new = do_update_set NOW old r)
    ∧ ((∀ old, old ∈ image db → arbiter_key (cols old) ≠ Some k) →
       new = insert_values NOW r).
Proof.
  unfold upsert_records_to_image_table. intros Huniq.
  destruct (upsert_rows NOW [] (image db) (load_table db)) as [image'|]
    eqn:Hrun; [|done].
  intros [= <-] Hr Hk. cbn [image].
  pose proof (upsert_rows_unique_index _ _ _ _ _ Huniq Hrun) as Huniq'.
  pose proof (upsert_rows_row_by_key _ _ _ _ _ r k Hrun Hr Hk) as Hrow.
  assert (∀ l i x, find_key k l = Some (i, x) →
                   x ∈ l ∧ arbiter_key (cols x) = Some k) as Hfound.
  { intros l i x Hfind. apply list_find_Some in Hfind as (Hi & Hx & _).
    split; [by eapply list_elem_of_lookup_2|done]. }
  destruct (find_key k (image db)) as [[i old0]|] eqn:Hfind.
  - destruct (Hfound _ _ _ Hfind) as [Hold0 Kold0].
    destruct (Hfound _ _ _ Hrow) as [Hnew Knew].
    exists (do_update_set NOW old0 r). split; [done|]. split; [done|].
    split; [|split].
    + intros new' Hnew' Knew'. by eapply unique_index_eq.
    + intros old Hold Kold.
      by rewrite (unique_index_eq (image db) old old0 k).
    + intros Hno. by destruct (Hno old0 Hold0).
  - destruct Hrow as (i & Hrow & _).
    destruct (Hfound _ _ _ Hrow) as [Hnew Knew].
    exists (insert_values NOW r). split; [done|]. split; [done|].
    split; [|split; [|done]].
    + intros new' Hnew' Knew'. by eapply unique_index_eq.
    + intros old Hold Kold. apply list_find_None in Hfind.
      by destruct (proj1 (Forall_forall _ _) Hfind old Hold).
Qed.

(** A relation between the states of a row that every merge respects
    holds between the image table before and after the statement, row by
    row; the rows behind are the inserted ones. *)
Lemma upsert_rows_pointwise (R : image_row → image_row → Prop)
    (NOW : timestamp) (load0 : list load_row) :
  (∀ o, R o o) →
  (∀ o1 o2 o3, R o1 o2 → R o2 o3 → R o1 o3) →
  (∀ o r, r ∈ load0 → conflicts o r → R o (do_update_set NOW o r)) →
  ∀ (load : list load_row) (affected : list (string * string))
    (image image' : list image_row),
  load ⊆ load0 →
  upsert_rows NOW affected image load = Done image' →
  ∃ kept news, image' = kept ++ news ∧ Forall2 R image kept.
Proof.
  intros Hrefl Htrans Hstep.
  assert (∀ l : list image_row, Forall2 R l l) as Hrefl_list.
  { intros l. apply Forall2_same_length_lookup. split; [done|].
    intros i x y Hx Hy. assert (x = y) as -> by congruence. apply Hrefl. }
  induction load as [|r load IH]; intros affected image image' Hsub Hrun.
  - injection Hrun as <-. exists image, []. by rewrite app_nil_r.
  - assert (∃ affected',
              upsert_rows NOW affected' (insert_on_conflict NOW r image) load
              = Done image') as [affected' Hrun'].
    { cbn [upsert_rows] in Hrun.
      destruct (arbiter_key r); [case_decide; [done|]|]; eauto. }
    destruct (IH _ _ _ (fun x Hx => Hsub x (list_elem_of_further x r load Hx))
                Hrun') as (kept & news & -> & Hkept).
    destruct (insert_on_conflict_cases NOW r image)
      as [(i & old & Hi & Hc & Heq)|[_ Heq]]; rewrite Heq in Hkept.
    + exists kept, news. split; [done|].
      eapply Forall2_trans; [exact Htrans| |exact Hkept].
      apply Forall2_same_length_lookup. split; [by rewrite length_insert|].
      intros j x y Hx Hy. destruct (decide (i = j)) as [->|Hij].
      * rewrite list_lookup_insert_eq in Hy by (by eapply lookup_lt_Some).
        assert (x = old) as -> by congruence. injection Hy as <-.
        apply Hstep; [|done]. apply Hsub. left.
      * rewrite list_lookup_insert_ne in Hy by done.
        assert (x = y) as -> by congruence. apply Hrefl.
    + apply Forall2_app_inv_l in Hkept as (kept' & new & Hkept' & _ & ->).
      exists kept', (new ++ news). by rewrite app_assoc.
Qed.

(** X7: The upsert removes no row of the image table: the table has at
    least as many rows as before, and for every row it had there is a
    row with the same provider, foreign identifier and [created_on],
    which is the row itself, exactly as it was, when no row of the
    loading table conflicts with it. *)
Theorem upsert_removes_no_row (NOW : timestamp) (db db' : database) :
  upsert_records_to_image_table NOW db = Done db' →
  (length (image db) ≤ length (image db'))%nat
  ∧ ∀ old, old ∈ image db →
      ∃ new, new ∈ image db'
             ∧ provider (cols new) = provider (cols old)
             ∧ foreign_id (cols new) = foreign_id (cols old)
             ∧ created_on new = created_on old
             ∧ ((∀ r, r ∈ load_table db → ¬ conflicts old r) → new = old).
Proof.
  unfold upsert_records_to_image_table.
  destruct (upsert_rows NOW [] (image db) (load_table db)) as [image'|]
    eqn:Hrun; [|done].
  intros [= <-]. cbn [image].
  destruct (upsert_rows_pointwise
              (fun o n => provider (cols n) = provider (cols o)
                          ∧ foreign_id (cols n) = foreign_id (cols o)
                          ∧ created_on n = created_on o
                          ∧ ((∀ r, r ∈ load_table db → ¬ conflicts o r) → n = o))
              NOW (load_table db)) with (load := load_table db)
              (affected := @nil (string * string)) (image := image db)
              (image' := image')
    as (kept & news & -> & Hkept); try done.
  - intros o1 o2 o3 (Hp & Hf & Hc & Hsame) (Hp' & Hf' & Hc' & Hsame').
    repeat split; try congruence.
    intros Hno. rewrite Hsame', (Hsame Hno); [done|].
    by rewrite (Hsame Hno).
  - intros o r Hr Hc. repeat split. intros Hno. by destruct (Hno r Hr).
  - split.
    + rewrite length_app, (Forall2_length _ _ _ Hkept). lia.
    + intros old Hold. apply list_elem_of_lookup in Hold as [i Hi].
      destruct (Forall2_lookup_l _ _ _ _ _ Hkept Hi) as (new & Hnew & HR).
      exists new. split; [|done]. apply elem_of_app. left.
      by eapply list_elem_of_lookup_2.
Qed.

(** A key the existing metadata holds with a value other than null is
    in the merged metadata, with a value other than null. *)
Lemma merge_jsonb_objects_keeps_keys (old excluded : load_row)
    (k : string) (v : json) :
  meta_data old ≫= (fun m => m !! k) = Some v → v ≠ JNull →
  ∃ v', _merge_jsonb_objects meta_data old excluded ≫= (fun m => m !! k)
        = Some v'
        ∧ v' ≠ JNull.
Proof.
  intros Hv Hnn. unfold _merge_jsonb_objects, COALESCE3.
  destruct (meta_data old) as [mo|]; [|done]. cbn in Hv.
  destruct (meta_data excluded) as [mi|]; cbn; [|by exists v].
  unfold jsonb_concat_objects. rewrite lookup_union.
  pose proof (strip_nulls_fields_not_null mi k) as Hmi.
  assert (strip_nulls_fields mo !! k = Some (jsonb_strip_nulls v)) as Hmo.
  { rewrite strip_nulls_fields_lookup, Hv. cbn. by destruct v. }
  rewrite Hmo.
  destruct (strip_nulls_fields mi !! k) as [vi|]; cbn.
  - exists vi. split; [done|]. congruence.
  - exists (jsonb_strip_nulls v). split; [done|]. by destruct v.
Qed.

(** X8: The upsert only adds to what the image table knows of an image: a
    row keeps every tag it had, and every metadata key it had with a
    value other than null is still there with a value other than null. *)
Theorem upsert_never_loses_tags_or_metadata_keys (NOW : timestamp)
    (db db' : database) :
  upsert_records_to_image_table NOW db = Done db' →
  ∀ i old, image db !! i = Some old →
    ∃ new, image db' !! i = Some new
           ∧ (∀ x, x ∈ elements (tags (cols old)) →
                   x ∈ elements (tags (cols new)))
           ∧ (∀ k v, meta_data (cols old) ≫= (fun m => m !! k) = Some v →
                     v ≠ JNull →
                     ∃ v', meta_data (cols new) ≫= (fun m => m !! k) = Some v'
                           ∧ v' ≠ JNull).
Proof.
  unfold upsert_records_to_image_table.
  destruct (upsert_rows NOW [] (image db) (load_table db)) as [image'|]
    eqn:Hrun; [|done].
  intros [= <-] i old Hi. cbn [image].
  destruct (upsert_rows_pointwise
              (fun o n =>
                 (∀ x, x ∈ elements (tags (cols o)) →
                       x ∈ elements (tags (cols n)))
                 ∧ (∀ k v, meta_data (cols o) ≫= (fun m => m !! k) = Some v →
                           v ≠ JNull →
                           ∃ v', meta_data (cols n) ≫= (fun m => m !! k)
                                 = Some v' ∧ v' ≠ JNull))
              NOW (load_table db)) with (load := load_table db)
              (affected := @nil (string * string)) (image := image db)
              (image' := image')
    as (kept & news & -> & Hkept); try done.
  - intros o. split; [done|]. intros k v Hv Hnn. by exists v.
  - intros o1 o2 o3 [Ht Hm] [Ht' Hm']. split.
    + intros x Hx. by apply Ht', Ht.
    + intros k v Hv Hnn. destruct (Hm k v Hv Hnn) as (v' & Hv' & Hnn').
      by apply (Hm' k v').
  - intros o r _ _. split.
    + intros x Hx. cbn [do_update_set cols tags].
      apply merge_jsonb_arrays_elements. by left.
    + intros k v Hv Hnn. cbn [do_update_set cols meta_data].
      by apply (merge_jsonb_objects_keeps_keys _ _ k v).
  - destruct (Forall2_lookup_l _ _ _ _ _ Hkept Hi) as (new & Hnew & HR).
    exists new. split; [|done]. by apply lookup_app_l_Some.
Qed.

End upsert_effect.

(** ** The loaders *)

Section loader_more.
Context `{Store, PyBuiltins, S3Import}.

Lemma delete_malformed_row_sublist (lines : list string) (k : Z) :
  _delete_malformed_row_in_file lines k `sublist_of` lines.
Proof.
  destruct (decide (1 ≤ k ≤ Z.of_nat (length lines))) as [Hk|Hk].
  - rewrite delete_malformed_row_in_range by done.
    rewrite <- (take_drop (Z.to_nat (k - 1)) lines) at 3.
    apply sublist_app; [done|].
    replace (Z.to_nat k) with (Z.to_nat (k - 1) + 1)%nat by lia.
    rewrite <- drop_drop. apply sublist_drop.
  - by rewrite delete_malformed_row_out_of_range.
Qed.

(** X9: A line number that is not one of the file's (zero, negative, or
    past the end) removes nothing: the file is written back as it was.
    Whatever the number, the lines written back are lines of the file,
    in their order. *)
Theorem delete_malformed_row_out_of_range_keeps_file (lines : list string)
    (line_number : Z) :
  _delete_malformed_row_in_file lines line_number `sublist_of` lines
  ∧ (¬ (1 ≤ line_number ≤ Z.of_nat (length lines)) →
     _delete_malformed_row_in_file lines line_number = lines).
Proof.
  split; [apply delete_malformed_row_sublist|].
  apply delete_malformed_row_out_of_range.
Qed.

Lemma retry_loop_sublist (fuel : nat) (name : string) :
  ∀ (tsv : list string) (m : Z) (calls : nat) tsv' calls' r,
  retry_loop fuel name tsv m calls = Some (tsv', calls', r) →
  tsv' `sublist_of` tsv.
Proof.
  induction fuel as [|fuel IH]; intros tsv m calls tsv' calls' r; cbn.
  - case_decide; [done|]. by intros [= <- _ _].
  - case_decide; [|by intros [= <- _ _]].
    destruct (bulk_load name tsv) as [rows|e]; [by intros [= <- _ _]|].
    destruct e; try by intros [= <- _ _].
    destruct (_get_malformed_row_in_file msg); [|by intros [= <- _ _]].
    intros Hrun. etrans; [by eapply IH|]. apply delete_malformed_row_sublist.
Qed.

(** The loop of the loader ends, whatever the store answers. *)
Lemma load_local_returns (db : database) (tsv_file : list string)
    (identifier : string) (max_rows_to_skip : Z) :
  ∃ run,
    load_local_data_to_intermediate_table db tsv_file identifier
      max_rows_to_skip = Some run.
Proof.
  unfold load_local_data_to_intermediate_table.
  destruct (retry_loop_spec (Z.to_nat (max_rows_to_skip + 1))
              (_get_load_table_name identifier) tsv_file max_rows_to_skip 0
              (le_n _))
    as (tsv' & calls' & r & -> & _).
  destruct r as [[rows|]|e]; by eexists.
Qed.

(** X10: Whatever happens, the loader ends and only takes lines out of the
    file: the file it leaves holds lines of the original file in their
    original order. *)
Theorem load_local_leaves_sublist_of_file (db : database)
    (tsv_file : list string) (identifier : string) (max_rows_to_skip : Z) :
  ∃ run,
    load_local_data_to_intermediate_table db tsv_file identifier
      max_rows_to_skip = Some run
    ∧ tsv_after run `sublist_of` tsv_file.
Proof.
  destruct (load_local_returns db tsv_file identifier max_rows_to_skip)
    as [run Hrun].
  exists run. split; [done|]. revert Hrun.
  unfold load_local_data_to_intermediate_table.
  destruct (retry_loop _ _ _ _ _) as [[[tsv' calls] r]|] eqn:Hloop; [|done].
  apply retry_loop_sublist in Hloop.
  destruct r as [[rows|]|e]; by intros [= <-].
Qed.

(** X11: With a negative cap the loader does not even try: it makes no load
    attempt, touches neither the file nor the database, and raises. *)
Theorem load_local_negative_cap (db : database) (tsv_file : list string)
    (identifier : string) (max_rows_to_skip : Z) :
  max_rows_to_skip < 0 →
  load_local_data_to_intermediate_table db tsv_file identifier
    max_rows_to_skip
  = Some {| tsv_after := tsv_file;
            bulk_load_calls := 0;
            db_after := db;
            load_error := Some (InvalidTextRepresentation
              "Exceeded the maximum number of allowed defective rows") |}.
Proof.
  intros Hm. unfold load_local_data_to_intermediate_table.
  replace (Z.to_nat (max_rows_to_skip + 1)) with 0%nat by lia.
  cbn. by rewrite decide_False by lia.
Qed.

Lemma load_local_success_clean (db : database) (tsv_file : list string)
    (identifier : string) (max_rows_to_skip : Z) (run : load_run) :
  load_local_data_to_intermediate_table db tsv_file identifier
    max_rows_to_skip = Some run →
  load_error run = None →
  ∃ rows, db_after run
          = {| load_table :=
                 _clean_intermediate_table_data (load_table db ++ rows);
               image := image db |}.
Proof.
  unfold load_local_data_to_intermediate_table.
  destruct (retry_loop _ _ _ _ _) as [[[tsv' calls] r]|]; [|done].
  destruct r as [[rows|]|e]; intros [= <-]; try done. by exists rows.
Qed.

(** X12: Whichever loader filled the loading table, when it returns
    without an error the table holds only rows with the four required
    columns, the image table is untouched, and the upsert that follows
    succeeds as long as no two different foreign identifiers of the
    loading table have the same md5 digest. *)
Theorem load_then_upsert_succeeds (NOW : timestamp) (db : database)
    (identifier : string) :
  (∀ tsv_file max_rows_to_skip,
     ∃ run,
       load_local_data_to_intermediate_table db tsv_file identifier
         max_rows_to_skip = Some run
       ∧ (load_error run = None →
          Forall has_required_columns (load_table (db_after run))
          ∧ image (db_after run) = image db
          ∧ (collision_free (load_table (db_after run)) →
             ∃ db', upsert_records_to_image_table NOW (db_after run)
                    = Done db')))
  ∧ (∀ bucket s3_key db1,
       load_s3_data_to_intermediate_table db bucket s3_key identifier
         = Done db1 →
       Forall has_required_columns (load_table db1)
       ∧ image db1 = image db
       ∧ (collision_free (load_table db1) →
          ∃ db', upsert_records_to_image_table NOW db1 = Done db')).
Proof.
  assert (∀ t, Forall has_required_columns (_clean_intermediate_table_data t))
    as Hreq.
  { intros t. rewrite clean_is_filter. apply Forall_forall. intros r Hr.
    apply (sublist_subseteq _ _
             (delete_rows_with_later_duplicate_sublist _)) in Hr.
    by apply list_elem_of_filter in Hr as [? _]. }
  split.
  - intros tsv_file m.
    destruct (load_local_returns db tsv_file identifier m) as [run Hrun].
    exists run. split; [done|]. intros Hok.
    destruct (load_local_success_clean _ _ _ _ _ Hrun Hok) as [rows ->].
    cbn [load_table image]. split; [apply Hreq|]. split; [done|].
    apply upsert_clean_Done.
  - intros bucket s3_key db1. unfold load_s3_data_to_intermediate_table.
    destruct (table_import_from_s3 _ _ _) as [rows|e]; [|done].
    intros [= <-]. cbn [load_table image]. split; [apply Hreq|].
    split; [done|]. apply upsert_clean_Done.
Qed.

(** Two identifiers never name the same loading table. *)
Theorem get_load_table_name_injective (identifier1 identifier2 : string) :
  _get_load_table_name identifier1 = _get_load_table_name identifier2 →
  identifier1 = identifier2.
Proof.
  unfold _get_load_table_name, LOAD_TABLE_NAME_STUB. cbn.
  intros Heq. by injection Heq.
Qed.

End loader_more.

(** ** Errors the loader does not retry *)

Section loader_errors.
Context `{Store, PyBuiltins}.

(** X13: The loader retries only after an InvalidTextRepresentation whose
    message names a line.  Any other error of the first load attempt, and
    any error met while reading the line number off the message
    (AssertionError without a COPY line, IndexError, ValueError), escapes
    at once: one load attempt, the file and the database untouched. *)
Theorem load_local_gives_up_without_retry (db : database)
    (tsv_file : list string) (identifier : string) (max_rows_to_skip : Z)
    (e : exn) :
  0 ≤ max_rows_to_skip →
  (bulk_load (_get_load_table_name identifier) tsv_file = Raised e
   ∧ ∀ msg, e ≠ InvalidTextRepresentation msg)
  ∨ (∃ msg,
       bulk_load (_get_load_table_name identifier) tsv_file
       = Raised (InvalidTextRepresentation msg)
       ∧ _get_malformed_row_in_file msg = Raised e) →
  load_local_data_to_intermediate_table db tsv_file identifier
    max_rows_to_skip
  = Some {| tsv_after := tsv_file;
            bulk_load_calls := 1;
            db_after := db;
            load_error := Some e |}.
Proof.
  intros Hm Herr. unfold load_local_data_to_intermediate_table.
  replace (Z.to_nat (max_rows_to_skip + 1))
    with (S (Z.to_nat max_rows_to_skip)) by lia.
  cbn [retry_loop]. rewrite decide_True by done.
  destruct Herr as [[-> Hother]|(msg & -> & ->)]; [|done].
  destruct e; try done. by destruct (Hother msg).
Qed.

End loader_errors.

(** ** What the sub-provider passes change, and what they keep *)

Section sub_provider_effect.
Context `{Store, PyBuiltins, ProviderDetails}.

(** A loop over records whose passing does not depend on the table
    commits the UPDATEs of the records before the first that raises. *)
Lemma for_each_record_prefix {R}
    (body : list image_row → R → outcome (list image_row))
    (u : R → option string * string) (d : string) (recs : list R) :
  (∀ rec, rec ∈ recs →
     (∃ e, ∀ im, body im rec = Raised e)
     ∨ (∀ im, body im rec = Done (update_where d (u rec).2 (u rec).1 im))) →
  ∀ image,
  ∃ pre,
    image_after (for_each_record body recs image)
    = apply_updates d (u <$> pre) image
    ∧ (∀ rec, rec ∈ pre →
         ∀ im, body im rec = Done (update_where d (u rec).2 (u rec).1 im))
    ∧ match raised (for_each_record body recs image) with
      | None => pre = recs
      | Some e => ∃ rec post, recs = pre ++ rec :: post
                              ∧ ∀ im, body im rec = Raised e
      end.
Proof.
  induction recs as [|rec recs IH]; intros Hcases image.
  - exists []. split; [done|]. split; [|done].
    intros rec Hrec. by apply elem_of_nil in Hrec.
  - cbn [for_each_record].
    destruct (Hcases rec) as [[e He]|Hdone]; [left| |].
    + exists []. rewrite He. cbn. split; [done|]. split.
      * intros rec' Hrec'. by apply elem_of_nil in Hrec'.
      * by exists rec, recs.
    + rewrite Hdone.
      destruct (IH (fun rec' Hrec' =>
                      Hcases rec' (list_elem_of_further rec' rec recs Hrec'))
                  (update_where d (u rec).2 (u rec).1 image))
        as (pre & Himage & Hpre & Hraised).
      exists (rec :: pre). split; [by rewrite Himage|]. split.
      * intros rec' [->|Hrec']%elem_of_cons; [done|by apply Hpre].
      * destruct (raised _) as [e|]; [|by rewrite Hraised].
        destruct Hraised as (rec' & post & -> & He). by exists rec', post.
Qed.

Lemma update_rows_differ_in_source_only (d : string)
    (us : list (option string * string)) (x : image_row) :
  differ_in_source_only d x (update_rows d us x).
Proof.
  split; [apply set_source_update_rows|].
  intros Hx. apply update_rows_no_match. intros u _ [Hp Hf].
  destruct Hx as [Hx|Hx]; [done|]. by rewrite Hx in Hf.
Qed.

Lemma apply_updates_differ_in_source_only (d : string)
    (us : list (option string * string)) (image : list image_row) :
  Forall2 (differ_in_source_only d) image (apply_updates d us image).
Proof.
  rewrite apply_updates_update_rows. apply Forall2_fmap_r, Forall_Forall2_diag.
  apply Forall_forall. intros x _. apply update_rows_differ_in_source_only.
Qed.

(** X14: With no single quote in the default provider, in the
    sub-provider names and in the foreign identifiers of the provider's
    rows (and the values of the temporary table fitting its columns), the
    loop of each of the three passes, run over selected records
    in any order and whether it raises or not, removes and adds no row and
    changes at most the source of a row; rows of another provider and
    rows without a foreign identifier are exactly as they were. *)
Theorem sub_provider_passes_change_source_only (image : list image_row)
    (d : string) :
  quote_free d → quote_free_ids d image →
  (fits_columns 2000 _create_temp_flickr_sub_prov_table →
   ∀ recs,
     recs ⊆ select_flickr d _create_temp_flickr_sub_prov_table image →
     Forall2 (differ_in_source_only d) image
       (image_after (for_each_record (flickr_record d) recs image)))
  ∧ (∀ sub_providers : dict string,
       fits_columns 120 _create_temp_europeana_sub_prov_table →
       ∀ recs,
         recs ⊆ select_europeana d _create_temp_europeana_sub_prov_table
                  image →
         Forall2 (differ_in_source_only d) image
           (image_after
              (for_each_record (europeana_record d sub_providers) recs
                 image)))
  ∧ (∀ sub_providers : dict (list string),
       (∀ s unit_codes, (s, unit_codes) ∈ sub_providers → quote_free s) →
       ∀ recs,
         recs ⊆ select_smithsonian d image →
         Forall2 (differ_in_source_only d) image
           (image_after
              (for_each_record (smithsonian_record d sub_providers) recs
                 image))).
Proof.
  intros Hd Hq. split; [|split].
  - intros Hfit recs Hsub.
    pose proof (fits_columns_quote_free _ _ Hfit) as Ht.
    destruct (for_each_record_prefix (flickr_record d) id d recs
                (fun rec Hrec =>
                   or_intror
                     (flickr_records_done image d _ Hd Hq Ht rec
                        (Hsub rec Hrec)))
                image) as (pre & -> & _).
    apply apply_updates_differ_in_source_only.
  - intros sub_providers Hfit recs Hsub.
    pose proof (fits_columns_quote_free _ _ Hfit) as Ht.
    destruct (for_each_record_prefix (europeana_record d sub_providers)
                (fun rec => (rec.1.1, rec.2)) d recs
                (fun rec Hrec =>
                   europeana_records_cases image d sub_providers _
                     Hd Hq Ht rec (Hsub rec Hrec))
                image) as (pre & -> & _).
    apply apply_updates_differ_in_source_only.
  - intros sub_providers Hs recs Hsub.
    destruct (for_each_record_prefix (smithsonian_record d sub_providers)
                (fun rec => (rec.1, default "" (find_source sub_providers rec.2)))
                d recs
                (fun rec Hrec =>
                   smithsonian_records_cases image d sub_providers
                     Hd Hq Hs rec (Hsub rec Hrec))
                image) as (pre & -> & _).
    apply apply_updates_differ_in_source_only.
Qed.


(** *** The source each row ends with *)



End sub_provider_effect.

(** ** The RawPixel normalizer *)

Section raw_pixel_more.
Context `{RawPixel.Library}.

Lemma get_tags_cases (image : gmap string json) :
  RawPixel._get_tags image = Raised AttributeError
  ∨ ∃ tags, RawPixel._get_tags image = Done tags
            ∧ Forall (fun t => t ∉ ["cc0"; "creative commons";
                                    "creative commons 0"]) tags.
Proof.
  unfold RawPixel._get_tags.
  destruct (RawPixel.truthy (RawPixel.get image "keywords_raw"));
    [|right; by exists []].
  destruct (RawPixel.get image "keywords_raw") as [| | |keywords| |];
    try by left.
  right. eexists. split; [done|].
  apply Forall_fmap, Forall_forall. intros w Hw.
  by apply list_elem_of_filter in Hw as [Hw _].
Qed.

Lemma get_image_properties_cases (image : gmap string json)
    (foreign_url : json) :
  RawPixel.truthy (RawPixel.get image "image_opengraph") = true →
  RawPixel._get_image_properties image foreign_url = Raised IndexError
  ∨ RawPixel._get_image_properties image foreign_url = Raised AttributeError
  ∨ ∃ w h,
      RawPixel._get_image_properties image foreign_url
      = Done (RawPixel.get image "image_opengraph", Some w, Some h,
              RawPixel.get_default image "image_400" (JStr "")).
Proof.
  intros Himg. unfold RawPixel._get_image_properties. rewrite Himg.
  destruct (RawPixel.get image "image_opengraph") as [| | |url| |];
    try by (right; left).
  destruct (RawPixel.parse_qs (RawPixel.urlparse_query url) !! "w")
    as [[|w ws]|]; try by left.
  destruct (RawPixel.parse_qs (RawPixel.urlparse_query url) !! "h")
    as [[|h hs]|]; try by left.
  right; right. by exists w, h.
Qed.

(** X18: Without the free-licence flag, without a landing page or without an
    image URL, a payload is skipped: _process_image_data returns None,
    whatever the store and the string functions do. *)
Theorem process_image_data_skips_payload (image : gmap string json) :
  RawPixel.truthy (RawPixel.get image "freecc0") = false
  ∨ RawPixel.truthy (RawPixel.get image "url") = false
  ∨ RawPixel.truthy (RawPixel.get image "image_opengraph") = false →
  RawPixel._process_image_data image = Done JNull.
Proof.
  intros Hskip.
  unfold RawPixel._process_image_data, RawPixel._get_foreign_id_url.
  destruct (RawPixel.truthy (RawPixel.get image "freecc0")) eqn:Hfree;
    [|done].
  destruct (RawPixel.truthy (RawPixel.get image "url")) eqn:Hurl; [|done].
  destruct Hskip as [?|[?|Himg]]; try done.
  unfold RawPixel._get_image_properties. by rewrite Himg.
Qed.

(** X19: A payload that is not skipped either raises, or goes to
    [add_item] once, as a CC0 1.0 item with the payload's landing page and
    image URL, both non-empty, with a width and a height that are never
    the empty string, a title that is never empty, and tags free of the
    licence terms. *)
Theorem process_image_data_stores_cc0_item (image : gmap string json) :
  RawPixel.truthy (RawPixel.get image "freecc0") = true →
  RawPixel.truthy (RawPixel.get image "url") = true →
  RawPixel.truthy (RawPixel.get image "image_opengraph") = true →
  (∃ e, RawPixel._process_image_data image = Raised e)
  ∨ ∃ args,
      RawPixel._process_image_data image = RawPixel.add_item args
      ∧ RawPixel.license_ args = "cc0"
      ∧ RawPixel.license_version args = "1.0"
      ∧ RawPixel.foreign_landing_url args = RawPixel.get image "url"
      ∧ RawPixel.image_url args = RawPixel.get image "image_opengraph"
      ∧ RawPixel.foreign_identifier args
        = RawPixel.str (RawPixel.get_default image "id" (JStr ""))
      ∧ RawPixel.width args ≠ Some ""
      ∧ RawPixel.height args ≠ Some ""
      ∧ RawPixel.title args ≠ Some (JStr "")
      ∧ Forall (fun t => t ∉ ["cc0"; "creative commons";
                              "creative commons 0"])
               (RawPixel.raw_tags args).
Proof.
  intros Hfree Hurl Himg.
  unfold RawPixel._process_image_data, RawPixel._get_foreign_id_url.
  rewrite Hfree, Hurl. cbn [negb].
  destruct (get_image_properties_cases image (RawPixel.get image "url") Himg)
    as [->|[->|(w & h & ->)]]; [left; by eexists|left; by eexists|].
  cbn. rewrite Himg. cbn [negb].
  unfold RawPixel._get_title_owner.
  destruct (RawPixel.get_default image "artist_names" (JStr ""))
    as [| | |owner| |]; try by (left; eexists).
  cbn. destruct (get_tags_cases image) as [->|(tags & -> & Htags)];
    [left; by eexists|].
  cbn. right. eexists. split; [done|]. cbn.
  repeat split; try done.
  - case_decide; congruence.
  - case_decide; congruence.
  - destruct (RawPixel.truthy (RawPixel.get_default image "image_title" _))
      eqn:Ht; [|done].
    intros [= Heq]. by rewrite Heq in Ht.
Qed.

(** X20: A payload whose [artist_names] is there and is not a string (JSON
    null, say), or whose [keywords_raw] is a non-empty value that is not a
    string, is never stored: a payload that is not skipped raises. *)
Theorem process_image_data_raises_on_non_string (image : gmap string json) :
  RawPixel.truthy (RawPixel.get image "freecc0") = true →
  RawPixel.truthy (RawPixel.get image "url") = true →
  RawPixel.truthy (RawPixel.get image "image_opengraph") = true →
  (∃ v, image !! "artist_names" = Some v ∧ ∀ s, v ≠ JStr s)
  ∨ (RawPixel.truthy (RawPixel.get image "keywords_raw") = true
     ∧ ∀ s, RawPixel.get image "keywords_raw" ≠ JStr s) →
  ∃ e, RawPixel._process_image_data image = Raised e.
Proof.
  intros Hfree Hurl Himg Hbad.
  unfold RawPixel._process_image_data, RawPixel._get_foreign_id_url.
  rewrite Hfree, Hurl. cbn [negb].
  destruct (get_image_properties_cases image (RawPixel.get image "url") Himg)
    as [->|[->|(w & h & ->)]]; [by eexists|by eexists|].
  cbn. rewrite Himg. cbn [negb]. exists AttributeError.
  unfold RawPixel._get_title_owner, RawPixel.get_default.
  destruct Hbad as [(v & -> & Hv)|[Hk Hs]].
  - cbn. destruct v as [| | |owner| |]; try done. by destruct (Hv owner).
  - destruct (default (JStr "") (image !! "artist_names")); try done.
    cbn. unfold RawPixel._get_tags. rewrite Hk.
    destruct (RawPixel.get image "keywords_raw") as [| | |keywords| |];
      try done.
    by destruct (Hs keywords).
Qed.

End raw_pixel_more.

(** ** The properties on concrete tables *)

Lemma upsert_two_rows_of_one_image_raises :
  upsert_records_to_image_table (H := Examples.store) 7
    {| load_table := [Examples.titled_row "a"; Examples.titled_row "b"];
       image := [] |}
  = Raised CardinalityViolation.
Proof.
  apply (upsert_succeeds_iff_keys_distinct (H := Examples.store) 7
           {| load_table := [Examples.titled_row "a"; Examples.titled_row "b"];
              image := [] |}).
  cbn. intros Hn. apply NoDup_cons in Hn as [Hn _]. apply Hn. left.
Defined.

Lemma upsert_after_clean_of_two_rows :
  NoDup (omap (arbiter_key (H := Examples.first_char_store))
           (_clean_intermediate_table_data
              [Examples.image_data "42" None None None;
               Examples.image_data "7" None None None;
               Examples.image_data "42" (Some 800) None None]))
  ∧ ∃ db',
      upsert_records_to_image_table (H := Examples.first_char_store) 7
        {| load_table :=
             _clean_intermediate_table_data
               [Examples.image_data "42" None None None;
                Examples.image_data "7" None None None;
                Examples.image_data "42" (Some 800) None None];
           image := [] |}
      = Done db'.
Proof.
  apply (upsert_after_clean_succeeds (H := Examples.first_char_store) 7
           [Examples.image_data "42" None None None;
            Examples.image_data "7" None None None;
            Examples.image_data "42" (Some 800) None None] []).
  collision_free_rows.
Defined.

Lemma upsert_image_42_keeps_unique_index :
  ∃ db',
    upsert_records_to_image_table (H := Examples.store) 7 Examples.db_42
    = Done db'
    ∧ unique_index (H := Examples.store) (image db').
Proof.
  eexists. split; [vm_compute; reflexivity|].
  apply (upsert_keeps_unique_index (H := Examples.store) 7 Examples.db_42).
  - cbn. apply NoDup_singleton.
  - vm_compute. reflexivity.
Defined.

Lemma upsert_image_42_merges_by_key :
  ∃ db',
    upsert_records_to_image_table (H := Examples.store) 7 Examples.db_42
    = Done db'
    ∧ ∃ new,
        new ∈ image db'
        ∧ arbiter_key (H := Examples.store) (cols new)
          = Some ("rawpixel", "42")
        ∧ new = do_update_set 7
                  (insert_values 1 (Examples.titled_row "old title"))
                  (Examples.titled_row "new title").
Proof.
  eexists. split; [vm_compute; reflexivity|].
  destruct (upsert_merges_or_inserts_by_key (H := Examples.store) 7
              Examples.db_42 _ (Examples.titled_row "new title")
              ("rawpixel", "42")
              ltac:(cbn; apply NoDup_singleton)
              ltac:(vm_compute; reflexivity)
              ltac:(left) eq_refl)
    as (new & Hnew & Knew & _ & Hmerge & _).
  exists new. split; [exact Hnew|]. split; [exact Knew|].
  apply Hmerge; [left|reflexivity].
Defined.

Lemma upsert_image_42_removes_no_row :
  ∃ db',
    upsert_records_to_image_table (H := Examples.store) 7 Examples.db_42
    = Done db'
    ∧ (length (image Examples.db_42) ≤ length (image db'))%nat
    ∧ ∃ new,
        new ∈ image db'
        ∧ provider (cols new) = Some "rawpixel"
        ∧ foreign_id (cols new) = Some "42"
        ∧ created_on new = Some 1.
Proof.
  eexists. split; [vm_compute; reflexivity|].
  destruct (upsert_removes_no_row (H := Examples.store) 7
              Examples.db_42 _ ltac:(vm_compute; reflexivity))
    as [Hlen Hrows].
  split; [exact Hlen|].
  destruct (Hrows (insert_values 1 (Examples.titled_row "old title")))
    as (new & Hnew & Hp & Hf & Hc & _); [left|].
  exists new. repeat split; assumption.
Defined.

Lemma upsert_image_42_keeps_tags_and_keys :
  ∃ db',
    upsert_records_to_image_table (H := Examples.store) 7
      {| load_table :=
           [Examples.image_data "42" None
              (Some {[ "license_url" := JStr "https://example.org/cc0" ]})
              (Some [JStr "dog"])];
         image :=
           [insert_values 1
              (Examples.image_data "42" None
                 (Some {[ "description" := JStr "A cat" ]})
                 (Some [JStr "cat"]))] |}
    = Done db'
    ∧ ∃ new,
        image db' !! 0%nat = Some new
        ∧ JStr "cat" ∈ elements (tags (cols new))
        ∧ ∃ v', meta_data (cols new) ≫= (fun m => m !! "description")
                = Some v'
                ∧ v' ≠ JNull.
Proof.
  eexists. split; [vm_compute; reflexivity|].
  destruct (upsert_never_loses_tags_or_metadata_keys (H := Examples.store) 7
              {| load_table :=
                   [Examples.image_data "42" None
                      (Some {[ "license_url" := JStr "https://example.org/cc0" ]})
                      (Some [JStr "dog"])];
                 image :=
                   [insert_values 1
                      (Examples.image_data "42" None
                         (Some {[ "description" := JStr "A cat" ]})
                         (Some [JStr "cat"]))] |}
              _ ltac:(vm_compute; reflexivity)
              0%nat _ eq_refl)
    as (new & Hnew & Htags & Hkeys).
  exists new. split; [exact Hnew|]. split.
  - apply Htags. left.
  - apply (Hkeys "description" (JStr "A cat")); [reflexivity|discriminate].
Defined.

Lemma delete_malformed_row_5_of_2 :
  _delete_malformed_row_in_file ["a"; "b"] 5 = ["a"; "b"].
Proof.
  apply (delete_malformed_row_out_of_range_keeps_file ["a"; "b"] 5).
  cbn. lia.
Defined.

Lemma load_local_cap_minus_1 :
  load_local_data_to_intermediate_table (H := Examples.store)
    (H0 := Examples.builtins)
    {| load_table := []; image := [] |} ["a"; "b"] "20200101" (-1)
  = Some {| tsv_after := ["a"; "b"];
            bulk_load_calls := 0;
            db_after := {| load_table := []; image := [] |};
            load_error := Some (InvalidTextRepresentation
              "Exceeded the maximum number of allowed defective rows") |}.
Proof.
  apply (load_local_negative_cap (H := Examples.store)
           (H0 := Examples.builtins)).
  lia.
Defined.

Lemma load_then_upsert_image_42 :
  ∃ db1 db',
    load_s3_data_to_intermediate_table (H := Examples.s3_import)
      Examples.db_42 "bucket" "7" "20200101" = Done db1
    ∧ Forall has_required_columns (load_table db1)
    ∧ image db1 = image Examples.db_42
    ∧ upsert_records_to_image_table (H := Examples.first_char_store) 7 db1 = Done db'.
Proof.
  destruct (load_then_upsert_succeeds (H := Examples.first_char_store)
              (H0 := Examples.builtins) (H1 := Examples.s3_import)
              7 Examples.db_42 "20200101") as [_ Hs3].
  destruct (Hs3 "bucket" "7" _ eq_refl) as (Hreq & Himage & Hupsert).
  destruct Hupsert as [db' Hdb']; [collision_free_rows|].
  eexists _, db'. split; [reflexivity|]. split; [exact Hreq|].
  split; [exact Himage|exact Hdb'].
Defined.

Lemma europeana_pass_changes_source_only :
  let good := Examples.catalog_row "1" "europeana" "europeana" None
                (Some {[ "dataProvider" := JArr [JStr "A"] ]}) in
  let bad := Examples.catalog_row "2" "europeana" "europeana" None
               (Some {[ "dataProvider" := JArr [JStr "A"; JStr "B"] ]}) in
  Forall2 (differ_in_source_only "europeana") [good; bad]
    (image_after
       (update_europeana_sub_providers (H := Examples.store)
          (H0 := Examples.builtins) (H1 := Examples.provider_details)
          [good; bad] "europeana" [("sub_a", "A"); ("sub_b", "B")])).
Proof.
  intros good bad.
  refine (proj1 (proj2 (sub_provider_passes_change_source_only
                          (H := Examples.store) (H0 := Examples.builtins)
                          (H1 := Examples.provider_details)
                          [good; bad] "europeana" _ _))
            [("sub_a", "A"); ("sub_b", "B")] _ _ _).
  - by apply (bool_decide_unpack _).
  - intros r f Hr _ Hf. quote_free_rows Hr Hf.
  - fits_columns_members.
  - done.
Defined.




Lemma process_image_data_skips_empty_payload :
  RawPixel._process_image_data (H := Examples.library) ∅ = Done JNull.
Proof.
  apply (process_image_data_skips_payload (H := Examples.library) ∅).
  left. reflexivity.
Defined.

Lemma process_image_data_stores_payload_with_w_h :
  (∃ e, RawPixel._process_image_data (H := Examples.library)
          Examples.payload_with_w_h = Raised e)
  ∨ ∃ args,
      RawPixel._process_image_data (H := Examples.library)
        Examples.payload_with_w_h
      = RawPixel.add_item (Library := Examples.library) args
      ∧ RawPixel.license_ args = "cc0"
      ∧ RawPixel.license_version args = "1.0"
      ∧ RawPixel.foreign_landing_url args
        = RawPixel.get Examples.payload_with_w_h "url"
      ∧ RawPixel.image_url args
        = RawPixel.get Examples.payload_with_w_h "image_opengraph"
      ∧ RawPixel.foreign_identifier args
        = RawPixel.str (Library := Examples.library)
            (RawPixel.get_default Examples.payload_with_w_h "id" (JStr ""))
      ∧ RawPixel.width args ≠ Some ""
      ∧ RawPixel.height args ≠ Some ""
      ∧ RawPixel.title args ≠ Some (JStr "")
      ∧ Forall (fun t => t ∉ ["cc0"; "creative commons";
                              "creative commons 0"])
               (RawPixel.raw_tags args).
Proof.
  apply (process_image_data_stores_cc0_item (H := Examples.library)
           Examples.payload_with_w_h).
  - vm_compute. reflexivity.
  - vm_compute. reflexivity.
  - vm_compute. reflexivity.
Defined.

Lemma process_image_data_null_artist_raises :
  ∃ e, RawPixel._process_image_data (H := Examples.library)
         Examples.payload_with_null_artist = Raised e.
Proof.
  apply (process_image_data_raises_on_non_string (H := Examples.library)
           Examples.payload_with_null_artist).
  - vm_compute. reflexivity.
  - vm_compute. reflexivity.
  - vm_compute. reflexivity.
  - left. exists JNull. split; [vm_compute; reflexivity|discriminate].
Defined.

(** ** The RawPixel run over the pages *)

Section raw_pixel_run.
Context `{RawPixel.Library, RawPixelRun.World}.

Lemma request_content_never_raises_after_get (url : string)
    (query_params : list (string * Z)) (response : option RawPixelRun.response) :
  RawPixelRun.requester_get url query_params = Done response →
  ∃ j, RawPixelRun._request_content url query_params = Done j
       ∧ (j ≠ JNull →
          ∃ r, response = Some r
               ∧ RawPixelRun.status_code r = 200
               ∧ RawPixelRun.response_json r = Done j).
Proof.
  intros Hget. unfold RawPixelRun._request_content. rewrite Hget. cbn.
  destruct response as [r|]; [|by exists JNull].
  case_decide as Hok; [|by exists JNull].
  destruct (RawPixelRun.response_json r) as [j|e] eqn:Hj; [|by exists JNull].
  exists j. split; [done|]. intros _. by exists r.
Qed.

Lemma get_image_list_failed_request (page : Z) :
  RawPixelRun.requester_get "https://api.rawpixel.com/api/v1/search"
    [("freecc0", 1); ("html", 0); ("page", page)] = Done None
  ∨ (∃ r,
       RawPixelRun.requester_get "https://api.rawpixel.com/api/v1/search"
         [("freecc0", 1); ("html", 0); ("page", page)] = Done (Some r)
       ∧ (RawPixelRun.status_code r ≠ 200
          ∨ ∃ e, RawPixelRun.response_json r = Raised e)) →
  RawPixelRun._get_image_list page = Done (JNull, JNull).
Proof.
  unfold RawPixelRun._get_image_list, RawPixelRun._request_content.
  intros [->|(r & -> & Hr)]; [done|]. cbn.
  destruct Hr as [Hs|[e He]].
  - by rewrite decide_False.
  - rewrite He. by case_decide.
Qed.

(** X21: A request that fails is no error: when the requester gives no
    response, a status other than 200, or a body that is not JSON,
    _request_content returns None and _get_image_list [None, None]. *)
Theorem get_image_list_survives_failed_request (page : Z) :
  RawPixelRun.requester_get "https://api.rawpixel.com/api/v1/search"
    [("freecc0", 1); ("html", 0); ("page", page)] = Done None
  ∨ (∃ r,
       RawPixelRun.requester_get "https://api.rawpixel.com/api/v1/search"
         [("freecc0", 1); ("html", 0); ("page", page)] = Done (Some r)
       ∧ (RawPixelRun.status_code r ≠ 200
          ∨ ∃ e, RawPixelRun.response_json r = Raised e)) →
  RawPixelRun._request_content "https://api.rawpixel.com/api/v1/search"
    [("freecc0", 1); ("html", 0); ("page", page)] = Done JNull
  ∧ RawPixelRun._get_image_list page = Done (JNull, JNull).
Proof.
  intros Hfail. split; [|by apply get_image_list_failed_request].
  unfold RawPixelRun._request_content.
  destruct Hfail as [->|(r & -> & [Hs|[e He]])]; cbn; [done| |].
  - by rewrite decide_False.
  - rewrite He. by case_decide.
Qed.

(** X22: What _get_image_list gives: [None, None], or a total with results
    that are not empty; it raises only what the requester raises, or
    AttributeError on a body that is truthy and not an object. *)
Theorem get_image_list_results_not_empty (page : Z) :
  match RawPixelRun._get_image_list page with
  | Done (total, result) =>
      (total = JNull ∧ result = JNull) ∨ RawPixel.truthy result = true
  | Raised e =>
      RawPixelRun.requester_get "https://api.rawpixel.com/api/v1/search"
        [("freecc0", 1); ("html", 0); ("page", page)] = Raised e
      ∨ (e = AttributeError
         ∧ ∃ r j,
             RawPixelRun.requester_get
               "https://api.rawpixel.com/api/v1/search"
               [("freecc0", 1); ("html", 0); ("page", page)] = Done (Some r)
             ∧ RawPixelRun.response_json r = Done j
             ∧ RawPixel.truthy j = true
             ∧ ∀ m, j ≠ JObj m)
  end.
Proof.
  unfold RawPixelRun._get_image_list.
  destruct (RawPixelRun.requester_get _ _) as [response|e] eqn:Hget.
  - destruct (request_content_never_raises_after_get _ _ _ Hget)
      as (j & -> & Hj).
    cbn. destruct (RawPixel.truthy j) eqn:Ht; [|by left].
    assert (j ≠ JNull) as Hne by (by intros ->).
    destruct (Hj Hne) as (r & -> & Hs & Hr).
    destruct j as [| | | | |m];
      try done;
      try (right; split; [done|]; eexists r, _; by repeat split).
    destruct (RawPixel.truthy (RawPixel.get m "results")) eqn:Hres;
      [by right|by left].
  - unfold RawPixelRun._request_content. rewrite Hget. by left.
Qed.

Lemma pages_loop_not_valid (fuel : nat) (s : RawPixelRun.store)
    (img_ctr total result : json) (page : Z) :
  RawPixelRun.pages_loop fuel s img_ctr total result false page
  = Some (match RawPixelRun.py_lt img_ctr total with
          | Done _ => Done (img_ctr, s)
          | Raised e => Raised e
          end).
Proof.
  destruct fuel; cbn; destruct (RawPixelRun.py_lt img_ctr total);
    by rewrite ?andb_false_r.
Qed.

(** X23: Without a total (None, 0, an empty value) _process_pages processes
    nothing: it returns the count 0 and leaves the store as it is,
    whatever the results hold. *)
Theorem process_pages_without_total (fuel : nat) (s : RawPixelRun.store)
    (total result : json) (page : Z) :
  RawPixel.truthy total = false →
  RawPixelRun._process_pages fuel s total result page
  = Some (Done (JNum 0, s)).
Proof.
  intros Ht. unfold RawPixelRun._process_pages. rewrite Ht. cbn [negb].
  by rewrite pages_loop_not_valid.
Qed.

Lemma pages_loop_ends (n : nat) :
  ∀ (fuel : nat) (s : RawPixelRun.store) (img_ctr total result : json)
    (is_valid : bool) (page : Z),
  (n ≤ fuel)%nat →
  (is_valid = true →
   (1 ≤ n)%nat
   ∧ ∀ t r, RawPixelRun._get_image_list (page + Z.of_nat n) = Done (t, r) →
            RawPixel.truthy t = false ∨ RawPixel.truthy r = false) →
  ∃ o, RawPixelRun.pages_loop fuel s img_ctr total result is_valid page
       = Some o.
Proof.
  induction n as [|n IH]; intros fuel s c total result is_valid page Hfuel Hn.
  - destruct is_valid; [destruct (Hn eq_refl); lia|].
    rewrite pages_loop_not_valid. by eexists.
  - destruct is_valid; [|rewrite pages_loop_not_valid; by eexists].
    destruct (Hn eq_refl) as [_ Hstop].
    destruct fuel as [|fuel]; [lia|]. cbn.
    destruct (RawPixelRun.py_lt c total) as [[|]|e]; try by eexists.
    cbn.
    destruct (RawPixelRun.iterate result ≫= _) as [[c' s']|e];
      [|by eexists].
    destruct (RawPixelRun._get_image_list (page + 1)) as [[t r]|e] eqn:Hlist;
      [|by eexists].
    destruct n as [|n].
    + replace (page + Z.of_nat 1) with (page + 1) in Hstop by lia.
      destruct (Hstop t r Hlist) as [Ht|Hr].
      * rewrite Ht. cbn. rewrite pages_loop_not_valid. by eexists.
      * rewrite Hr. cbn.
        destruct (RawPixel.truthy t); cbn; rewrite pages_loop_not_valid;
          by eexists.
    + assert (∀ v, ∃ o,
                RawPixelRun.pages_loop fuel s' c'
                  (if negb (RawPixel.truthy t) then JNum 0 else t) r v
                  (page + 1) = Some o) as Hnext.
      { intros v. apply IH; [lia|]. intros _. split; [lia|].
        intros t' r' Hlist'. apply Hstop.
        by replace (page + Z.of_nat (S (S n)))
          with (page + 1 + Z.of_nat (S n)) by lia. }
      destruct (RawPixel.truthy r), (RawPixel.truthy t); cbn in *;
        apply Hnext.
Qed.

(** X24: The loop over the pages ends, by returning or by raising, at the
    latest when the API reports a page without results or without a
    total: if the n-th page after the first one is such a page, n
    iterations are enough. *)
Theorem process_pages_ends_at_page_without_results (n fuel : nat)
    (s : RawPixelRun.store) (total result : json) (page : Z) :
  (S n ≤ fuel)%nat →
  (∀ t r, RawPixelRun._get_image_list (page + Z.of_nat (S n)) = Done (t, r) →
          RawPixel.truthy t = false ∨ RawPixel.truthy r = false) →
  ∃ o, RawPixelRun._process_pages fuel s total result page = Some o.
Proof.
  intros Hfuel Hstop. unfold RawPixelRun._process_pages.
  destruct (RawPixel.truthy total); cbn [negb].
  - apply (pages_loop_ends (S n)); [done|]. intros _. split; [lia|done].
  - rewrite pages_loop_not_valid. by eexists.
Qed.

(** X25: When the first request fails, the run processes nothing and still
    commits: main ends with what [commit] makes of the untouched store. *)
Theorem main_commits_when_first_request_fails (fuel : nat)
    (s : RawPixelRun.store) :
  RawPixelRun.requester_get "https://api.rawpixel.com/api/v1/search"
    [("freecc0", 1); ("html", 0); ("page", 1)] = Done None
  ∨ (∃ r,
       RawPixelRun.requester_get "https://api.rawpixel.com/api/v1/search"
         [("freecc0", 1); ("html", 0); ("page", 1)] = Done (Some r)
       ∧ (RawPixelRun.status_code r ≠ 200
          ∨ ∃ e, RawPixelRun.response_json r = Raised e)) →
  RawPixelRun.main fuel s = Some (RawPixelRun.commit s).
Proof.
  intros Hfail. unfold RawPixelRun.main.
  rewrite (get_image_list_failed_request 1 Hfail).
  unfold RawPixelRun._process_pages. cbn [RawPixel.truthy negb].
  by rewrite pages_loop_not_valid.
Qed.

(** The normalizer with the store as a state returns what the
    normalizer returns when its [add_item] is the one of that state. *)
Lemma run_process_image_data_agrees (s : RawPixelRun.store)
    (image : gmap string json) :
  (∀ args, RawPixel.add_item args
           = RawPixelRun.add_item s args ≫= (fun p => Done p.1)) →
  RawPixel._process_image_data image
  = RawPixelRun._process_image_data s image ≫= (fun p => Done p.1).
Proof.
  intros Hadd.
  unfold RawPixel._process_image_data, RawPixelRun._process_image_data.
  destruct (RawPixel._get_foreign_id_url image) as [foreign_id foreign_url].
  destruct (negb (RawPixel.truthy foreign_url)); [done|].
  destruct (RawPixel._get_image_properties image foreign_url)
    as [[[[img_url width] height] thumbnail]|e]; [|done].
  cbn. destruct (negb (RawPixel.truthy img_url)); [done|].
  destruct (RawPixel._get_title_owner image) as [[title owner]|e]; [|done].
  cbn. destruct (RawPixel._get_tags image) as [tags|e]; [|done].
  cbn. apply Hadd.
Qed.

Lemma run_process_image_data_IndexError (s : RawPixelRun.store)
    (image : gmap string json) (img_url : string) :
  RawPixel.truthy (RawPixel.get image "freecc0") = true →
  RawPixel.truthy (RawPixel.get image "url") = true →
  image !! "image_opengraph" = Some (JStr img_url) →
  img_url ≠ "" →
  RawPixel.parse_qs (RawPixel.urlparse_query img_url) !! "w" = None
  ∨ RawPixel.parse_qs (RawPixel.urlparse_query img_url) !! "h" = None →
  RawPixelRun._process_image_data s image = Raised IndexError.
Proof.
  intros Hfree Hurl Himg Hne Hmissing.
  unfold RawPixelRun._process_image_data, RawPixel._get_foreign_id_url.
  rewrite Hfree, Hurl. cbn [negb].
  assert (RawPixel._get_image_properties image (RawPixel.get image "url")
          = Raised IndexError) as ->; [|done].
  unfold RawPixel._get_image_properties, RawPixel.get.
  rewrite Himg. unfold default, id. cbn [RawPixel.truthy].
  rewrite bool_decide_eq_true_2 by done.
  destruct Hmissing as [Hw|Hh].
  - by rewrite Hw.
  - rewrite Hh.
    by destruct (RawPixel.parse_qs (RawPixel.urlparse_query img_url) !! "w")
      as [[|w ws]|].
Qed.

Lemma for_img_in_raises (imgs : list json) (img : json) :
  img ∈ imgs →
  (∀ c s, ∃ e, RawPixelRun.process_img c s img = Raised e) →
  ∀ c s, ∃ e, RawPixelRun.for_img_in imgs c s = Raised e.
Proof.
  intros Hin Hbad. induction imgs as [|x imgs IH]; intros c s.
  - by apply elem_of_nil in Hin.
  - cbn. apply elem_of_cons in Hin as [<-|Hin].
    + destruct (Hbad c s) as [e ->]. by exists e.
    + destruct (RawPixelRun.process_img c s x) as [[c' s']|e];
        [|by exists e].
      cbn. by apply IH.
Qed.

(** X26: One image on the first page whose image URL lacks the width or the
    height makes the whole run fail: main raises and commits nothing,
    whatever the other images and pages are. *)
Theorem main_fails_on_image_without_dimensions (fuel : nat)
    (s : RawPixelRun.store) (total : Z) (imgs : list json)
    (image : gmap string json) (img_url : string) :
  RawPixelRun._get_image_list 1 = Done (JNum total, JArr imgs) →
  0 < total →
  JObj image ∈ imgs →
  RawPixel.truthy (RawPixel.get image "freecc0") = true →
  RawPixel.truthy (RawPixel.get image "url") = true →
  image !! "image_opengraph" = Some (JStr img_url) →
  img_url ≠ "" →
  RawPixel.parse_qs (RawPixel.urlparse_query img_url) !! "w" = None
  ∨ RawPixel.parse_qs (RawPixel.urlparse_query img_url) !! "h" = None →
  ∃ e, RawPixelRun.main (S fuel) s = Some (Raised e).
Proof.
  intros Hlist Htotal Hin Hfree Hurl Himg Hne Hmissing.
  unfold RawPixelRun.main. rewrite Hlist.
  unfold RawPixelRun._process_pages. cbn [RawPixel.truthy].
  rewrite bool_decide_eq_true_2 by lia. cbn [negb RawPixelRun.pages_loop].
  unfold RawPixelRun.py_lt. cbn [RawPixelRun.as_int].
  rewrite bool_decide_eq_true_2 by lia. cbn [andb RawPixelRun.iterate].
  destruct (for_img_in_raises imgs (JObj image) Hin) with (c := JNum 0) (s := s)
    as [e He].
  { intros c s0. exists IndexError. unfold RawPixelRun.process_img.
    by rewrite (run_process_image_data_IndexError s0 image img_url). }
  cbn. rewrite He. by exists e.
Qed.

End raw_pixel_run.

(** ** The properties on concrete runs *)

Lemma load_local_gives_up_on_garbled_message :
  load_local_data_to_intermediate_table (H := Examples.garbled_store)
    (H0 := Examples.builtins)
    {| load_table := []; image := [] |} ["a"; "b"] "20200101" 10
  = Some {| tsv_after := ["a"; "b"];
            bulk_load_calls := 1;
            db_after := {| load_table := []; image := [] |};
            load_error := Some AssertionError |}.
Proof.
  apply (load_local_gives_up_without_retry (H := Examples.garbled_store)
           (H0 := Examples.builtins)); [lia|].
  right. exists "invalid input syntax for type json".
  split; [reflexivity|vm_compute; reflexivity].
Defined.

Lemma get_image_list_when_api_is_down :
  RawPixelRun._request_content (H := Examples.world_down)
    "https://api.rawpixel.com/api/v1/search"
    [("freecc0", 1); ("html", 0); ("page", 1)] = Done JNull
  ∧ RawPixelRun._get_image_list (H := Examples.world_down) 1
    = Done (JNull, JNull).
Proof.
  apply (get_image_list_survives_failed_request (H0 := Examples.world_down) 1).
  left. reflexivity.
Defined.

Lemma process_pages_with_total_None :
  RawPixelRun._process_pages (H := Examples.library) (H0 := Examples.world)
    0 (0 : RawPixelRun.store (World := Examples.world)) JNull
    (JArr [JObj Examples.payload_with_w_h]) 1
  = Some (Done (JNum 0, 0)).
Proof.
  apply (process_pages_without_total (H := Examples.library)
           (H0 := Examples.world)).
  reflexivity.
Defined.

Lemma process_pages_ends_after_one_page :
  ∃ o,
    RawPixelRun._process_pages (H := Examples.library) (H0 := Examples.world)
      1 (0 : RawPixelRun.store (World := Examples.world)) (JNum 1)
      (JArr [JObj Examples.payload_with_w_h]) 1
    = Some o.
Proof.
  apply (process_pages_ends_at_page_without_results (H := Examples.library)
           (H0 := Examples.world) 0 1); [lia|].
  intros t r Hlist. vm_compute in Hlist. injection Hlist as <- <-.
  left. reflexivity.
Defined.

Lemma main_commits_when_api_is_down :
  RawPixelRun.main (H := Examples.library) (H0 := Examples.world_down) 0
    (0 : RawPixelRun.store (World := Examples.world_down))
  = Some (Done 0).
Proof.
  apply (main_commits_when_first_request_fails (H := Examples.library)
           (H0 := Examples.world_down)).
  left. reflexivity.
Defined.

Lemma main_fails_on_payload_without_w :
  ∃ e,
    RawPixelRun.main (H := Examples.library)
      (H0 := Examples.world_without_w) 1
      (0 : RawPixelRun.store (World := Examples.world_without_w))
    = Some (Raised e).
Proof.
  apply (main_fails_on_image_without_dimensions (H := Examples.library)
           (H0 := Examples.world_without_w) 0 _ 2
           [JObj Examples.payload_with_w_h; JObj Examples.payload_without_w]
           Examples.payload_without_w
           "https://img.rawpixel.com/1234.jpg?h=630").
  - vm_compute. reflexivity.
  - lia.
  - right. left.
  - vm_compute. reflexivity.
  - vm_compute. reflexivity.
  - vm_compute. reflexivity.
  - discriminate.
  - left. vm_compute. reflexivity.
Defined.
